(** * RichTextDiffViewer: a shallow embedding of the diff / alignment /
      highlighting core of [src/RichTextDiffViewer.tsx]

    The file follows the source top to bottom of its data flow:

    - JavaScript strings, the three regular expressions of the component
      and [String.prototype.substring] / [trim];
    - the text diff engine ([performDiff], [forceDiffByWords]) over the
      interface of the diff-match-patch library;
    - the word tokenizer ([splitIntoWords], [processContentWithWords]);
    - the DOM as a tree of text, element and other nodes;
    - the highlight applicator ([applyWordHighlighting],
      [markTextDifferences], [markNodeAsChanged]);
    - the node aligner ([deepCompareAndMarkChanges]);
    - the whitespace-run highlighter ([markWhitespaceChanges]);
    - the raw text-node splice ([applyTextNodeChanges], [highlightChanges]);
    - the orchestrator ([processSideBySideDiff]).

    Conventions.  A JavaScript string is the list of its UTF-16 code units
    ([str]); offsets are [Z].  A [for]/[while] loop is a [Fixpoint] over the
    array it walks, with the mutable locals as arguments.  A thrown
    exception is the [Throw] outcome of [Result]; where state has been
    written before the throw, the [Raised] outcome of [Outcome] carries
    it.  The diff-match-patch library and the browser are parameters
    ([Dmp], [Platform]); [simple_dmp] and [example_platform] are small
    instances on which the worked examples run.  The definitions come
    first, the properties after them. *)

From Stdlib Require Import String Ascii DecimalString.
From Stdlib Require Import List ZArith NArith Lia Bool.
From Stdlib Require Import Sorting.Sorted Sorting.Permutation.
Import ListNotations.

Set Warnings "-register-all".
Local Open Scope Z_scope.

(* ================================================================== *)
(** * JavaScript strings *)
(* ================================================================== *)

(** A UTF-16 code unit. *)
Definition char := N.

(** A JavaScript string: the sequence of its code units. *)
Definition str := list char.

(** Literals of the development are written as Rocq strings (ASCII). *)
Definition js (s : string) : str := map N_of_ascii (list_ascii_of_string s).

Definition str_eqb (a b : str) : bool :=
  if list_eq_dec N.eq_dec a b then true else false.

(** [text.length] *)
Definition strlen (s : str) : Z := Z.of_nat (length s).

(** Truthiness of a string: [if (text)] holds for the non-empty ones. *)
Definition truthy (s : str) : bool :=
  match s with [] => false | _ :: _ => true end.

(** ** Character classes

    [\s] of a JavaScript regular expression (and the characters removed by
    [trim]): the white space and line terminator code points. *)
Definition is_space (c : char) : bool :=
  ((9 <=? c) && (c <=? 13) || (c =? 32) || (c =? 160) || (c =? 5760)
   || (8192 <=? c) && (c <=? 8202) || (c =? 8232) || (c =? 8233)
   || (c =? 8239) || (c =? 8287) || (c =? 12288) || (c =? 65279))%N.

(** [[.,;:!?()]] *)
Definition is_punct (c : char) : bool :=
  ((c =? 46) || (c =? 44) || (c =? 59) || (c =? 58)
   || (c =? 33) || (c =? 63) || (c =? 40) || (c =? 41))%N.

(** [[^\s.,;:!?()]] *)
Definition is_wordchar (c : char) : bool :=
  negb (is_space c || is_punct c).

(** The literal space of [/ /g] and [/( {2,})/g], and the placeholder
    U+00A0 of [spaceSensitiveText]. *)
Definition SPACE : char := 32%N.
Definition NBSP : char := 160%N.

(** [/^\s+$/.test(text)] *)
Definition only_whitespace (text : str) : bool :=
  truthy text && forallb is_space text.

(** ** The regular expressions of the component

    Each pattern is an alternation whose alternatives are one character
    class, taken once or as a greedy run [+].  Nothing follows the run
    inside an alternative, so the greedy match is the maximal run and no
    backtracking takes place. *)
Inductive alt : Type :=
| Run (cls : char -> bool)      (* [cls]+ *)
| Single (cls : char -> bool).  (* [cls]  *)

Definition regex := list alt.

(** The longest prefix of [s] inside the class, and what follows it. *)
Fixpoint span (cls : char -> bool) (s : str) : str * str :=
  match s with
  | [] => ([], [])
  | c :: s' =>
      if cls c then let (m, r) := span cls s' in (c :: m, r)
      else ([], s)
  end.

(** One alternative tried at the head of [s]: the match and the rest. *)
Definition match_alt (a : alt) (s : str) : option (str * str) :=
  match a with
  | Run cls =>
      match span cls s with
      | ([], _) => None
      | (m, r) => Some (m, r)
      end
  | Single cls =>
      match s with
      | c :: r => if cls c then Some ([c], r) else None
      | [] => None
      end
  end.

(** The alternatives are tried left to right at the head of [s]. *)
Fixpoint match_here (re : regex) (s : str) : option (str * str) :=
  match re with
  | [] => None
  | a :: re' =>
      match match_alt a s with
      | Some mr => Some mr
      | None => match_here re' s
      end
  end.

(** [regex.exec(text)] of a global regex whose [lastIndex] stands at the
    head of [s]: the first position at which some alternative matches.
    The result is (the characters skipped before [match.index], [match[0]],
    the text after the match); [None] is the [null] result. *)
Fixpoint exec (re : regex) (s : str) : option (str * str * str) :=
  match match_here re s with
  | Some (m, r) => Some ([], m, r)
  | None =>
      match s with
      | [] => None
      | c :: s' =>
          match exec re s' with
          | Some (sk, m, r) => Some (c :: sk, m, r)
          | None => None
          end
      end
  end.

(** [/([^\s.,;:!?()]+)|([.,;:!?()])/g] of [forceDiffByWords] *)
Definition wordPattern : regex := [Run is_wordchar; Single is_punct].

(** [/([^\s.,;:!?()]+)|([.,;:!?()])|(\s+)/g] of [splitIntoWords] *)
Definition splitPattern : regex :=
  [Run is_wordchar; Single is_punct; Run is_space].

(** [/( {2,})/g] of [markWhitespaceChanges]: a maximal run of literal
    spaces of length at least two.  A single space is no match and the
    scan goes on behind it. *)
Fixpoint exec_spaces (s : str) : option (str * str * str) :=
  match s with
  | [] => None
  | c :: s' =>
      let (m, r) := span (N.eqb SPACE) s in
      if (2 <=? length m)%nat then Some ([], m, r)
      else
        match exec_spaces s' with
        | Some (sk, m', r') => Some (c :: sk, m', r')
        | None => None
        end
  end.

(** ** [substring] and [trim] *)

(** An integer index clamped to [[0, length]], as [substring] does. *)
Definition clamp (len : nat) (i : Z) : nat :=
  Z.to_nat (Z.max 0 (Z.min i (Z.of_nat len))).

(** [s.substring(a, b)]: both indices are clamped, and swapped when the
    first is the larger one. *)
Definition substring (s : str) (a b : Z) : str :=
  let a' := clamp (length s) a in
  let b' := clamp (length s) b in
  let lo := Nat.min a' b' in
  let hi := Nat.max a' b' in
  firstn (hi - lo) (skipn lo s).

(** [s.substring(a)] *)
Definition substring_from (s : str) (a : Z) : str :=
  skipn (clamp (length s) a) s.

Fixpoint drop_space (s : str) : str :=
  match s with
  | c :: s' => if is_space c then drop_space s' else s
  | [] => []
  end.

(** [s.trim()] *)
Definition trim (s : str) : str :=
  rev (drop_space (rev (drop_space s))).

(* ================================================================== *)
(** * Outcomes of a call that may throw *)
(* ================================================================== *)

Inductive Result (A : Type) : Type :=
| Ok (a : A)
| Throw.
Arguments Ok {A} a.
Arguments Throw {A}.

Definition bind {A B : Type} (m : Result A) (k : A -> Result B) : Result B :=
  match m with
  | Ok a => k a
  | Throw => Throw
  end.

Notation "x <- m ;; k" := (bind m (fun x => k))
  (at level 61, m at next level, right associativity).

(* ================================================================== *)
(** * Text diff engine *)
(* ================================================================== *)

(** A [DiffOp] is the pair [[op, text]] of diff-match-patch:
    [op] is [-1] (delete), [0] (equal) or [1] (insert). *)
Definition DiffOp : Type := Z * str.

Definition DIFF_DELETE : Z := -1.
Definition DIFF_EQUAL : Z := 0.
Definition DIFF_INSERT : Z := 1.

(** The fragments whose operation is not [drop], concatenated. *)
Definition kept_text (drop : Z) (ds : list DiffOp) : str :=
  concat (map snd (filter (fun d => negb (fst d =? drop)) ds)).

(** The fragments with [op <> insert], concatenated. *)
Definition old_text (ds : list DiffOp) : str := kept_text DIFF_INSERT ds.

(** The fragments with [op <> delete], concatenated. *)
Definition new_text (ds : list DiffOp) : str := kept_text DIFF_DELETE ds.

(** The diff-match-patch object [dmp]: the library is not part of the
    repository, so its three entry points used by [performDiff] are
    parameters.  [diff_main] is the character diff and may throw; the two
    cleanup passes rewrite the array they are given. *)
Record Dmp : Type := {
  diff_main : str -> str -> Result (list DiffOp);
  diff_cleanupSemantic : list DiffOp -> list DiffOp;
  diff_cleanupEfficiency : list DiffOp -> list DiffOp
}.

(** What the library documents of these entry points: the diff of two
    texts rebuilds both, a text compared with itself has no change, and
    the cleanup passes keep both texts and introduce no change. *)
Definition all_equal (ds : list DiffOp) : Prop :=
  Forall (fun d => fst d = DIFF_EQUAL) ds.

Record DmpLaws (dmp : Dmp) : Prop := {
  diff_main_texts : forall a b ds,
      diff_main dmp a b = Ok ds -> old_text ds = a /\ new_text ds = b;
  diff_main_same : forall a ds,
      diff_main dmp a a = Ok ds -> all_equal ds;
  cleanupSemantic_texts : forall ds,
      old_text (diff_cleanupSemantic dmp ds) = old_text ds /\
      new_text (diff_cleanupSemantic dmp ds) = new_text ds;
  cleanupSemantic_equal : forall ds,
      all_equal ds -> all_equal (diff_cleanupSemantic dmp ds);
  cleanupEfficiency_texts : forall ds,
      old_text (diff_cleanupEfficiency dmp ds) = old_text ds /\
      new_text (diff_cleanupEfficiency dmp ds) = new_text ds;
  cleanupEfficiency_equal : forall ds,
      all_equal ds -> all_equal (diff_cleanupEfficiency dmp ds)
}.

(** [text.replace(/ /g, "\u00A0")] *)
Definition spaceSensitiveText (text : str) : str :=
  map (fun c => if (c =? SPACE)%N then NBSP else c) text.

(** [text.replace(/\u00A0/g, " ")] *)
Definition restoreSpaces (text : str) : str :=
  map (fun c => if (c =? NBSP)%N then SPACE else c) text.

(** The [while ((match = regex.exec(text)) !== null)] loop of
    [forceDiffByWords] on what is left of [text] behind [lastIndex].
    Every match is non-empty, so [length text] rounds are enough; the
    loop is given one more. *)
Fixpoint forceWords_loop (fuel : nat) (op : Z) (text : str) : list DiffOp :=
  match fuel with
  | O => []
  | S fuel' =>
      match exec wordPattern text with
      | Some (spaces, word, rest) =>
          (* if (startPos > lastIndex) result.push([op, spaces]) *)
          (if truthy spaces then [(op, spaces)] else [])
            ++ (op, word) :: forceWords_loop fuel' op rest
      | None =>
          (* if (lastIndex < text.length) result.push(...) *)
          if truthy text then [(op, text)] else []
      end
  end.

Definition forceDiffByWords_one (d : DiffOp) : list DiffOp :=
  let (op, text) := d in
  if op =? 0 then [d]
  else if only_whitespace text then [d]
  else forceWords_loop (S (length text)) op text.

Definition forceDiffByWords (diffs : list DiffOp) : list DiffOp :=
  flat_map forceDiffByWords_one diffs.

Definition performDiff (dmp : Dmp) (oldText newText : str)
  : Result (list DiffOp) :=
  diffs <- diff_main dmp (spaceSensitiveText oldText)
                         (spaceSensitiveText newText) ;;
  let normalizedDiffs :=
    map (fun d : DiffOp => (fst d, restoreSpaces (snd d))) diffs in
  let normalizedDiffs := diff_cleanupSemantic dmp normalizedDiffs in
  let normalizedDiffs := diff_cleanupEfficiency dmp normalizedDiffs in
  Ok (forceDiffByWords normalizedDiffs).

(* ================================================================== *)
(** * Word tokenizer *)
(* ================================================================== *)

(** The [while] loop of [splitIntoWords].  Only [match[0]] is pushed: what
    [exec] skips before a match is not. *)
Fixpoint splitWords_loop (fuel : nat) (text : str) : list str :=
  match fuel with
  | O => []
  | S fuel' =>
      match exec splitPattern text with
      | Some (_, word, rest) => word :: splitWords_loop fuel' rest
      | None => if truthy text then [text] else []
      end
  end.

Definition splitIntoWords (text : str) : list str :=
  if negb (truthy text) then []
  else if only_whitespace text then [text]
  else splitWords_loop (S (length text)) text.

Record Word : Type := {
  w_start : Z;
  w_end : Z;
  w_text : str;
  w_isChanged : bool
}.

(** The inner loop of [processContentWithWords] over the words of one
    diff; [position] is threaded. *)
Fixpoint pushWords (position : Z) (isChanged : bool) (words : list str)
  : list Word * Z :=
  match words with
  | [] => ([], position)
  | word :: words' =>
      let w := {| w_start := position; w_end := position + strlen word;
                  w_text := word; w_isChanged := isChanged |} in
      let (ws, p) := pushWords (position + strlen word) isChanged words' in
      (w :: ws, p)
  end.

Fixpoint processContent_loop (position : Z) (diffs : list DiffOp)
  : list Word :=
  match diffs with
  | [] => []
  | (op, text) :: diffs' =>
      let (ws, p) := pushWords position (negb (op =? 0)) (splitIntoWords text) in
      ws ++ processContent_loop p diffs'
  end.

(** [content] is a parameter of the source function that its body never
    reads. *)
Definition processContentWithWords (content : str) (diffs : list DiffOp)
  : list Word :=
  processContent_loop 0 diffs.

(** ** A small instance of the library interface

    [simple_dmp] trims the common prefix of the two texts and reports the
    rest as one deletion followed by one insertion; its cleanup passes do
    nothing.  It shows that the laws of [DmpLaws] can be met and is the
    engine of the worked examples. *)
Fixpoint common_prefix (a b : str) : str * str * str :=
  match a, b with
  | x :: a', y :: b' =>
      if (x =? y)%N then
        let '(p, ra, rb) := common_prefix a' b' in (x :: p, ra, rb)
      else ([], a, b)
  | _, _ => ([], a, b)
  end.

Definition simple_diff_main (a b : str) : Result (list DiffOp) :=
  let '(p, ra, rb) := common_prefix a b in
  Ok ((if truthy p then [(DIFF_EQUAL, p)] else [])
        ++ (if truthy ra then [(DIFF_DELETE, ra)] else [])
        ++ (if truthy rb then [(DIFF_INSERT, rb)] else [])).

Definition simple_dmp : Dmp := {|
  diff_main := simple_diff_main;
  diff_cleanupSemantic := fun ds => ds;
  diff_cleanupEfficiency := fun ds => ds
|}.

(** An engine whose character diff throws on every input. *)
Definition throwing_dmp : Dmp := {|
  diff_main := fun _ _ => Throw;
  diff_cleanupSemantic := fun ds => ds;
  diff_cleanupEfficiency := fun ds => ds
|}.

(* ================================================================== *)
(** * The DOM *)
(* ================================================================== *)

(** What the component reads of an element: whether it is an
    [HTMLElement] (and not, say, an SVG element), its [tagName] and its
    attributes in document order; [class] and [style] are attributes like
    the others.  [created] tells the elements that the pass itself makes
    with [document.createElement] from those of the rendered input: the
    node maps of the aligner hold references to the latter only. *)
Record Element : Type := {
  created : bool;
  isHTMLElement : bool;
  tagName : str;
  attributes : list (str * str)
}.

(** A fresh [document.createElement("span")] with the given attributes. *)
Definition newSpan (attrs : list (str * str)) : Element :=
  {| created := true; isHTMLElement := true; tagName := js "SPAN";
     attributes := attrs |}.

Definition withAttributes (e : Element) (attrs : list (str * str)) : Element :=
  {| created := created e; isHTMLElement := isHTMLElement e;
     tagName := tagName e; attributes := attrs |}.

(** A DOM node: a text node with its data, an element with its
    [childNodes], or a node of another type (a comment, say), which has no
    text content and is not descended into. *)
Inductive node : Type :=
| TextNode (data : str)
| ElemNode (e : Element) (childNodes : list node)
| OtherNode.

(** [node.textContent] *)
Fixpoint textContent (n : node) : str :=
  match n with
  | TextNode data => data
  | ElemNode _ cs => flat_map textContent cs
  | OtherNode => []
  end.

Definition nodes_text (ns : list node) : str := flat_map textContent ns.

Definition is_element (n : node) : bool :=
  match n with ElemNode _ _ => true | _ => false end.

(** [node.children]: the element children among [childNodes]. *)
Definition children (cs : list node) : list node := filter is_element cs.

Fixpoint getAttribute (name : str) (attrs : list (str * str)) : option str :=
  match attrs with
  | [] => None
  | (n, v) :: attrs' =>
      if str_eqb n name then Some v else getAttribute name attrs'
  end.

Fixpoint setAttribute (name value : str) (attrs : list (str * str))
  : list (str * str) :=
  match attrs with
  | [] => [(name, value)]
  | (n, v) :: attrs' =>
      if str_eqb n name then (n, value) :: attrs'
      else (n, v) :: setAttribute name value attrs'
  end.

(** ASCII white space, which separates the tokens of a [classList]. *)
Definition is_ascii_ws (c : char) : bool :=
  ((c =? 9) || (c =? 10) || (c =? 12) || (c =? 13) || (c =? 32))%N.

(** The maximal runs of [s] without a separator, left to right. *)
Fixpoint split_on (sep : char -> bool) (cur : str) (s : str) : list str :=
  match s with
  | [] => [rev cur]
  | c :: s' =>
      if sep c then rev cur :: split_on sep [] s'
      else split_on sep (c :: cur) s'
  end.

Definition mem_str (x : str) (l : list str) : bool := existsb (str_eqb x) l.

Fixpoint dedup (seen : list str) (l : list str) : list str :=
  match l with
  | [] => []
  | x :: l' =>
      if mem_str x seen then dedup seen l' else x :: dedup (x :: seen) l'
  end.

(** [Array.from(element.classList)]: the distinct tokens of the [class]
    attribute. *)
Definition classList (e : Element) : list str :=
  match getAttribute (js "class") (attributes e) with
  | None => []
  | Some v => dedup [] (filter truthy (split_on is_ascii_ws [] v))
  end.

(** [tokens.join(" ")] *)
Fixpoint join (sep : str) (l : list str) : str :=
  match l with
  | [] => []
  | [x] => x
  | x :: l' => x ++ sep ++ join sep l'
  end.

(** [element.classList.add(token)]: the token is appended to the token
    set unless it is there, and the [class] attribute is set to the
    tokens of the set joined by single spaces. *)
Definition classList_add (token : str) (e : Element) : Element :=
  let tokens := if mem_str token (classList e) then classList e
                else classList e ++ [token] in
  withAttributes e
    (setAttribute (js "class") (join (js " ") tokens) (attributes e)).

(** [element.textContent = text] on a fresh element: one text node, or
    no child at all for the empty string. *)
Definition setTextContent (text : str) : list node :=
  if truthy text then [TextNode text] else [].

(** A change type of the annotation vocabulary. *)
Inductive ChangeType : Type := removed | added.

Definition changeName (t : ChangeType) : str :=
  match t with removed => js "removed" | added => js "added" end.

(* ================================================================== *)
(** * Highlight applicator *)
(* ================================================================== *)

(** An entry of [extractTextNodesWithPositions]: a text node (here its
    data and its parent element, which is all the applicator reads of it)
    and its offsets in the text of the element. *)
Record TextSpan : Type := {
  ts_text : str;
  ts_parent : Element;
  ts_start : Z;
  ts_end : Z
}.

(** [processNode] of [extractTextNodesWithPositions], with the running
    [position] threaded; the text nodes come out in document order. *)
Fixpoint textSpans (parent : Element) (n : node) (position : Z)
  : list TextSpan * Z :=
  match n with
  | TextNode text =>
      ([{| ts_text := text; ts_parent := parent;
           ts_start := position; ts_end := position + strlen text |}],
       position + strlen text)
  | ElemNode e cs =>
      (fix each (cs : list node) (position : Z) : list TextSpan * Z :=
         match cs with
         | [] => ([], position)
         | c :: cs' =>
             let (l1, p1) := textSpans e c position in
             let (l2, p2) := each cs' p1 in
             (l1 ++ l2, p2)
         end) cs position
  | OtherNode => ([], position)
  end.

(** [extractTextNodesWithPositions(element)] *)
Definition extractTextNodesWithPositions (e : Element) (cs : list node)
  : list TextSpan :=
  fst (textSpans e (ElemNode e cs) 0).

Record Group : Type := {
  g_start : Z;
  g_end : Z;
  g_isChanged : bool
}.

(** The grouping loop of [applyWordHighlighting] with [currentGroup] as
    an argument; the last group is pushed when the words are exhausted. *)
Fixpoint groupWords (currentGroup : option Group) (words : list Word)
  : list Group :=
  match words with
  | [] => match currentGroup with Some g => [g] | None => [] end
  | word :: words' =>
      match currentGroup with
      | None =>
          groupWords (Some {| g_start := w_start word; g_end := w_end word;
                              g_isChanged := w_isChanged word |}) words'
      | Some g =>
          if Bool.eqb (g_isChanged g) (w_isChanged word) then
            groupWords (Some {| g_start := g_start g; g_end := w_end word;
                                g_isChanged := g_isChanged g |}) words'
          else
            g :: groupWords (Some {| g_start := w_start word;
                                     g_end := w_end word;
                                     g_isChanged := w_isChanged word |}) words'
      end
  end.

(** The marker of [applyWordHighlighting]: a [span] whose class is
    [diff-<changeType>] followed by the classes of the parent, and whose
    inline style is the parent's when it has one. *)
Definition markerSpan (changeType : ChangeType) (parent : Element)
                      (highlighted : str) : node :=
  let style := if isHTMLElement parent
               then match getAttribute (js "style") (attributes parent) with
                    | Some v => v | None => [] end
               else [] in
  let classes := if isHTMLElement parent then classList parent else [] in
  let own := js "diff-" ++ changeName changeType in
  let span0 := newSpan [(js "class", own)] in
  let span1 := if truthy style
               then withAttributes span0
                      (setAttribute (js "style") style (attributes span0))
               else span0 in
  let span2 := if truthy (join (js " ") classes)
               then fold_left (fun e t => classList_add t e) classes span1
               else span1 in
  ElemNode span2 (setTextContent highlighted).

(** The fragment that replaces a text node: the text before the range
    when there is some, the marker, the text after when there is some. *)
Definition wordFragment (changeType : ChangeType) (parent : Element)
                        (content : str) (localStart localEnd : Z)
  : list node :=
  let before := substring content 0 localStart in
  let highlighted := substring content localStart localEnd in
  let after := substring_from content localEnd in
  (if truthy before then [TextNode before] else [])
    ++ [markerSpan changeType parent highlighted]
    ++ (if truthy after then [TextNode after] else []).

(** The range of a group inside a text node, for the text nodes that the
    group reaches: [localStart] and [localEnd]. *)
Definition localRange (start end_ len : Z) (gstart gend : Z)
  : option (Z * Z) :=
  if (end_ <=? gstart) || (start >=? gend) then None
  else
    let localStart := Z.max 0 (gstart - start) in
    let localEnd := Z.min len (gend - start) in
    if localStart <? localEnd then Some (localStart, localEnd) else None.

(** The state of the text nodes during [applyWordHighlighting]: for each
    entry of [textNodes], the fragment it has been replaced with, if any.
    [processedNodes] is the set of the replaced ones. *)
Definition Replacements := list (option (list node)).

Definition processed_node (rs : Replacements) (k : nat) : bool :=
  match nth_error rs k with
  | Some (Some _) => true
  | _ => false
  end.

Fixpoint set_nth {A : Type} (k : nat) (v : A) (l : list A) : list A :=
  match l, k with
  | [], _ => []
  | _ :: l', O => v :: l'
  | x :: l', S k' => x :: set_nth k' v l'
  end.

(** The first inner loop: [affectedNodes] of one group, as (index in
    [textNodes], text span, localStart, localEnd). *)
Fixpoint affectedNodes (rs : Replacements) (g : Group) (k : nat)
                       (textNodes : list TextSpan)
  : list (nat * TextSpan * Z * Z) :=
  match textNodes with
  | [] => []
  | ts :: textNodes' =>
      let rest := affectedNodes rs g (S k) textNodes' in
      if processed_node rs k then rest
      else
        match localRange (ts_start ts) (ts_end ts) (strlen (ts_text ts))
                         (g_start g) (g_end g) with
        | Some (localStart, localEnd) => (k, ts, localStart, localEnd) :: rest
        | None => rest
        end
  end.

(** The second inner loop: the affected nodes are replaced, except where
    the range holds white space only.  The text nodes of the list were
    found under an element and an unprocessed one has not been detached,
    so each has a parent and the [if (!parentNode) continue] of the
    source is not taken. *)
Fixpoint applyAffected (changeType : ChangeType)
                       (affected : list (nat * TextSpan * Z * Z))
                       (rs : Replacements) : Replacements :=
  match affected with
  | [] => rs
  | (k, ts, localStart, localEnd) :: affected' =>
      let content := ts_text ts in
      if str_eqb (trim (substring content localStart localEnd)) [] then
        applyAffected changeType affected' rs
      else
        applyAffected changeType affected'
          (set_nth k (Some (wordFragment changeType (ts_parent ts) content
                                         localStart localEnd)) rs)
  end.

Definition applyGroup (changeType : ChangeType) (textNodes : list TextSpan)
                      (rs : Replacements) (g : Group) : Replacements :=
  if negb (g_isChanged g) then rs
  else applyAffected changeType (affectedNodes rs g 0 textNodes) rs.

(** [applyWordHighlighting]: the replacement of every text node of
    [textNodes] once all groups are done. *)
Definition applyWordHighlighting (textNodes : list TextSpan)
                                 (words : list Word)
                                 (changeType : ChangeType) : Replacements :=
  fold_left (applyGroup changeType textNodes)
            (groupWords None words)
            (repeat None (length textNodes)).

(** The effect of the [replaceChild] calls on a subtree: its text nodes,
    in document order, are replaced by their fragments.  The result is
    the list of nodes that stand where [n] stood, and the replacements
    left for the text nodes behind [n]. *)
Fixpoint replaceTextNodes (n : node) (rs : Replacements)
  : list node * Replacements :=
  match n with
  | TextNode _ =>
      match rs with
      | Some fragment :: rs' => (fragment, rs')
      | None :: rs' => ([n], rs')
      | [] => ([n], [])
      end
  | ElemNode e cs =>
      let (cs', rs') :=
        (fix each (cs : list node) (rs : Replacements)
           : list node * Replacements :=
           match cs with
           | [] => ([], rs)
           | c :: cs0 =>
               let (l1, rs1) := replaceTextNodes c rs in
               let (l2, rs2) := each cs0 rs1 in
               (l1 ++ l2, rs2)
           end) cs rs in
      ([ElemNode e cs'], rs')
  | OtherNode => ([n], rs)
  end.

(** One side of [markTextDifferences]: the element [e] with child nodes
    [cs] after its highlighting with the given view of the diffs. *)
Definition highlightSide (changeType : ChangeType) (drop : Z)
                         (diffs : list DiffOp)
                         (e : Element) (cs : list node) : node :=
  let textNodes := extractTextNodesWithPositions e cs in
  let words := processContentWithWords (textContent (ElemNode e cs))
                 (filter (fun d : DiffOp => negb (fst d =? drop)) diffs) in
  let rs := applyWordHighlighting textNodes words changeType in
  match fst (replaceTextNodes (ElemNode e cs) rs) with
  | [n] => n
  | _ => ElemNode e cs
  end.

(* ================================================================== *)
(** * Whitespace-run highlighter *)
(* ================================================================== *)

(** The double quote character. *)
Definition QUOTE : char := 34%N.

(** The opening tag of the cosmetic marker: [span] with the class
    [diff-whitespace] and the style [white-space: pre-wrap;], both
    attribute values between double quotes. *)
Definition whitespaceSpanOpen : str :=
  js "<span class=" ++ [QUOTE] ++ js "diff-whitespace" ++ [QUOTE]
    ++ js " style=" ++ [QUOTE] ++ js "white-space: pre-wrap;" ++ [QUOTE]
    ++ js ">".

Definition whitespaceSpanClose : str := js "</span>".

(** The [while] loop of [markWhitespaceChanges] on what is left of
    [content] behind [lastIndex], and the remainder appended after it:
    the string [newContent]. *)
Fixpoint whitespaceMarkup (fuel : nat) (content : str) : str :=
  match fuel with
  | O => []
  | S fuel' =>
      match exec_spaces content with
      | Some (before, spaces, rest) =>
          before ++ whitespaceSpanOpen ++ spaces ++ whitespaceSpanClose
            ++ whitespaceMarkup fuel' rest
      | None => content
      end
  end.

Definition newContent (content : str) : str :=
  whitespaceMarkup (S (length content)) content.

(** What the component asks of the browser: [parseHTML] is the HTML
    fragment parser behind [element.innerHTML = markup],
    [serializeHTML] the fragment serialiser behind the reading of
    [element.innerHTML], applied to the child nodes of the element, and
    [backgroundWasChanged] the test
    [getComputedStyle(node).backgroundColor !== "transparent"] on an
    element that has just received its change class. *)
Record Platform : Type := {
  parseHTML : str -> list node;
  serializeHTML : list node -> str;
  backgroundWasChanged : Element -> bool
}.

(** The nodes of a freshly parsed fragment: none of them was created by
    the pass. *)
Fixpoint asRendered (n : node) : node :=
  match n with
  | ElemNode e cs =>
      ElemNode {| created := false; isHTMLElement := isHTMLElement e;
                  tagName := tagName e; attributes := attributes e |}
               (map asRendered cs)
  | _ => n
  end.

(** [container.innerHTML = html] with an input of the component. *)
Definition render (platform : Platform) (html : str) : list node :=
  map asRendered (parseHTML platform html).

Section Whitespace.

Variable platform : Platform.

(** What one text node becomes: itself, or the [tempSpan] whose
    [innerHTML] is [newContent]. *)
Definition markWhitespaceNode (content : str) : node :=
  let nc := newContent content in
  if truthy nc && negb (str_eqb nc content) then
    ElemNode (newSpan []) (parseHTML platform nc)
  else TextNode content.

(** [markWhitespaceChanges(container)]: every text node under the
    container is visited once. *)
Fixpoint markWhitespaceChanges (n : node) : node :=
  match n with
  | TextNode content => markWhitespaceNode content
  | ElemNode e cs => ElemNode e (map markWhitespaceChanges cs)
  | OtherNode => OtherNode
  end.

End Whitespace.

(* ================================================================== *)
(** * The raw text-node splice *)
(* ================================================================== *)

(** A path of [childNodes] indices from a root. *)
Definition NodePath := list nat.

Record TextNodeMap : Type := {
  tn_path : NodePath;
  tn_text : str;
  tn_startPos : Z;
  tn_endPos : Z
}.

(** The callback of [root.childNodes.forEach] in [extractTextNodes], on
    the child [n] found at [currentPath], with the shared
    [textPositions.pos] threaded: a text node gives one entry, an element
    the entries of [extractTextNodes(n, currentPath, textPositions)], that
    is, of its own child nodes, and any other node none. *)
Fixpoint extractTextNode (n : node) (currentPath : NodePath) (pos : Z)
  : list TextNodeMap * Z :=
  match n with
  | TextNode text =>
      ([{| tn_path := currentPath; tn_text := text;
           tn_startPos := pos; tn_endPos := pos + strlen text |}],
       pos + strlen text)
  | ElemNode _ cs =>
      (fix each (cs : list node) (i : nat) (pos : Z)
         : list TextNodeMap * Z :=
         match cs with
         | [] => ([], pos)
         | c :: cs' =>
             let (l1, p1) := extractTextNode c (currentPath ++ [i]) pos in
             let (l2, p2) := each cs' (S i) p1 in
             (l1 ++ l2, p2)
         end) cs 0%nat pos
  | OtherNode => ([], pos)
  end.

(** [extractTextNodes(root)]: the child nodes of [root] are walked, so
    that a root without child nodes (a text node, say) has no entry. *)
Definition extractTextNodes (root : node) : list TextNodeMap :=
  match root with
  | ElemNode _ _ => fst (extractTextNode root [] 0)
  | _ => []
  end.

Definition childNodesOf (n : node) : list node :=
  match n with ElemNode _ cs => cs | _ => [] end.

(** [findNodeByPath(root, path)] *)
Fixpoint findNodeByPath (root : node) (path : NodePath) : option node :=
  match path with
  | [] => Some root
  | index :: path' =>
      match nth_error (childNodesOf root) index with
      | None => None
      | Some child => findNodeByPath child path'
      end
  end.

Record Change : Type := {
  ch_start : Z;
  ch_end : Z;
  ch_text : str;
  ch_type : ChangeType
}.

(** [createSpan(text, type)] *)
Definition createSpan (text : str) (type : ChangeType) : node :=
  ElemNode (newSpan [(js "class", js "diff-" ++ changeName type)])
           (setTextContent text).

(** The nodes inserted before a target text node, which is then removed:
    the text before the range when there is some, the span, the text
    after when there is some. *)
Definition changeFragment (type : ChangeType) (originalText : str)
                          (localStart localEnd : Z) : list node :=
  let before := substring originalText 0 localStart in
  let middle := substring originalText localStart localEnd in
  let after := substring_from originalText localEnd in
  (if truthy before then [TextNode before] else [])
    ++ [createSpan middle type]
    ++ (if truthy after then [TextNode after] else []).

(** The clone after one affected node is handled: the node at [path] is
    looked up, and when it is a text node [fragment] of its text takes
    its place among the children of its parent.  The result is the list
    of nodes that stand where [n] stood. *)
Fixpoint spliceAt (path : NodePath) (fragment : str -> list node) (n : node)
  : list node :=
  match path with
  | [] =>
      match n with
      | TextNode text => fragment text
      | _ => [n]
      end
  | index :: path' =>
      match n with
      | ElemNode e cs =>
          [ElemNode e
             ((fix each (cs : list node) (i : nat) : list node :=
                 match cs with
                 | [] => []
                 | c :: cs' =>
                     match i with
                     | O => spliceAt path' fragment c ++ cs'
                     | S i' => c :: each cs' i'
                     end
                 end) cs index)]
      | _ => [n]
      end
  end.

Definition spliceRoot (path : NodePath) (fragment : str -> list node)
                      (root : node) : node :=
  match path with
  | [] => root
  | _ :: _ =>
      match spliceAt path fragment root with
      | [n] => n
      | _ => root
      end
  end.

(** [affectedNodes] of one change. *)
Fixpoint affectedByChange (change : Change) (textNodes : list TextNodeMap)
  : list (TextNodeMap * Z * Z) :=
  match textNodes with
  | [] => []
  | node :: textNodes' =>
      let rest := affectedByChange change textNodes' in
      match localRange (tn_startPos node) (tn_endPos node)
                       (strlen (tn_text node))
                       (ch_start change) (ch_end change) with
      | Some (localStart, localEnd) => (node, localStart, localEnd) :: rest
      | None => rest
      end
  end.

Definition applyChange (textNodes : list TextNodeMap)
                       (containerClone : node) (change : Change) : node :=
  fold_left
    (fun clone '(node, localStart, localEnd) =>
       spliceRoot (tn_path node)
         (fun originalText =>
            changeFragment (ch_type change) originalText localStart localEnd)
         clone)
    (affectedByChange change textNodes) containerClone.

(** [[...changes].sort((a, b) => b.start - a.start)]: stable, by
    descending start. *)
Fixpoint insertChange (c : Change) (l : list Change) : list Change :=
  match l with
  | [] => [c]
  | d :: l' =>
      if ch_start d <=? ch_start c then c :: l
      else d :: insertChange c l'
  end.

Definition sortChanges (changes : list Change) : list Change :=
  fold_right insertChange [] changes.

(** [applyTextNodeChanges]: the tree whose [innerHTML] is returned. *)
Definition applyTextNodeChanges (container : node)
                                (textNodes : list TextNodeMap)
                                (changes : list Change) : node :=
  match changes with
  | [] => container
  | _ :: _ => fold_left (applyChange textNodes) (sortChanges changes) container
  end.

(** The loop of [highlightChanges] that turns the diffs into the change
    ranges of the two sides; [oldPos] and [newPos] are threaded. *)
Fixpoint changeRanges (oldPos newPos : Z) (diffs : list DiffOp)
  : list Change * list Change :=
  match diffs with
  | [] => ([], [])
  | (operation, text) :: diffs' =>
      if operation =? 0 then
        changeRanges (oldPos + strlen text) (newPos + strlen text) diffs'
      else if operation =? -1 then
        let (o, n) := changeRanges (oldPos + strlen text) newPos diffs' in
        ({| ch_start := oldPos; ch_end := oldPos + strlen text;
            ch_text := text; ch_type := removed |} :: o, n)
      else if operation =? 1 then
        let (o, n) := changeRanges oldPos (newPos + strlen text) diffs' in
        (o, {| ch_start := newPos; ch_end := newPos + strlen text;
               ch_text := text; ch_type := added |} :: n)
      else changeRanges oldPos newPos diffs'
  end.

(* ================================================================== *)
(** * Node aligner *)
(* ================================================================== *)

(** The path of an element in a node map: the indices, among the element
    children, from the container down to the element.  The source keeps
    it as the string of the tree tag and the indices joined by a slash
    (old/0/2); the container itself is the empty path, which is no key of
    the map. *)
Definition Path := list nat.

Definition path_eqb (p q : Path) : bool :=
  if list_eq_dec Nat.eq_dec p q then true else false.

Definition mem_path (p : Path) (l : list Path) : bool :=
  existsb (path_eqb p) l.

(** [childPath.startsWith(path + "/")]: [p] is a proper prefix of [q]. *)
Fixpoint is_strict_prefix (p q : Path) : bool :=
  match p, q with
  | [], _ :: _ => true
  | x :: p', y :: q' => (x =? y)%nat && is_strict_prefix p' q'
  | _, [] => false
  end.

(** An entry of a node map.  The [element] of the source entry is the
    element that stood at [nr_path] when the map was built. *)
Record NodeRecord : Type := {
  nr_signature : str;
  nr_textContent : str;
  nr_path : Path;
  nr_depth : nat;
  nr_highlighted : bool;
  nr_parent : Path
}.

(** [tagName.toLowerCase()] on a tag name whose letters are ASCII, as
    the tag names of the HTML elements are: the capitals A to Z are
    folded and every other code unit is kept. *)
Definition toLowerCase (s : str) : str :=
  map (fun c => if ((65 <=? c) && (c <=? 90))%N then (c + 32)%N else c) s.

(** The decimal digits of a number, as template literals print it. *)
Definition decimal (n : nat) : str :=
  js (DecimalString.NilZero.string_of_uint (Nat.to_uint n)).

Fixpoint startsWith (s prefix : str) : bool :=
  match prefix, s with
  | [], _ => true
  | x :: prefix', y :: s' => (x =? y)%N && startsWith s' prefix'
  | _ :: _, [] => false
  end.

(** The signature of an element: lower-case tag, the attributes outside
    [data-lexical...] as [name="value"] joined by spaces, and the number
    of child nodes. *)
Definition signatureOf (e : Element) (cs : list node) : str :=
  let attrs :=
    join (js " ")
      (map (fun a : str * str =>
              fst a ++ js "=" ++ [QUOTE] ++ snd a ++ [QUOTE])
         (filter (fun a : str * str =>
                    negb (startsWith (fst a) (js "data-lexical")))
            (attributes e))) in
  toLowerCase (tagName e)
    ++ (if truthy attrs then js " " ++ attrs else [])
    ++ js ":" ++ decimal (length cs).

(** [processNode] of [createNodeMap]: the entry of the element, then the
    entries of its element children, each with its index among them. *)
Fixpoint processNode (n : node) (path : Path) (depth : nat)
                     (parentPath : Path) : list NodeRecord :=
  match n with
  | ElemNode e cs =>
      {| nr_signature := signatureOf e cs;
         nr_textContent := textContent n;
         nr_path := path;
         nr_depth := depth;
         nr_highlighted := false;
         nr_parent := parentPath |}
      :: (fix each (cs : list node) (index : nat) : list NodeRecord :=
            match cs with
            | [] => []
            | c :: cs' =>
                match c with
                | ElemNode _ _ =>
                    processNode c (path ++ [index]) (S depth) path
                      ++ each cs' (S index)
                | _ => each cs' index
                end
            end) cs 0%nat
  | _ => []
  end.

(** The elements under a path, child by child. *)
Fixpoint processChildren (cs : list node) (index : nat) (path : Path)
                         (depth : nat) : list NodeRecord :=
  match cs with
  | [] => []
  | c :: cs' =>
      match c with
      | ElemNode _ _ =>
          processNode c (path ++ [index]) depth path
            ++ processChildren cs' (S index) path depth
      | _ => processChildren cs' index path depth
      end
  end.

(** [createNodeMap(container, prefix)]: the entries in the order of their
    insertion into the map. *)
Definition createNodeMap (container : node) : list NodeRecord :=
  processChildren (childNodesOf container) 0 [] 0.

(** [nodeMap.get(path)] *)
Definition getRecord (nodeMap : list NodeRecord) (path : Path)
  : option NodeRecord :=
  find (fun r => path_eqb (nr_path r) path) nodeMap.

(** The [while] loop of [hasHighlightedAncestor]; [None] is the [null] of
    [currentParent].  Every path of the two maps is a tree tag followed
    by indices, a string of more than one character, so the loop goes on
    as long as [currentParent] is not null.  A chain of parents of a path
    of [n] indices has at most [n] links, which bounds the loop. *)
Fixpoint ancestorLoop (fuel : nat) (nodeMap : list NodeRecord)
                      (currentParent : option Path) : bool :=
  match fuel with
  | O => false
  | S fuel' =>
      match currentParent with
      | None => false
      | Some parent =>
          match getRecord nodeMap parent with
          | Some parentNode =>
              if nr_highlighted parentNode then true
              else ancestorLoop fuel' nodeMap (Some (nr_parent parentNode))
          | None => ancestorLoop fuel' nodeMap None
          end
      end
  end.

Definition hasHighlightedAncestor (nodeMap : list NodeRecord) (path : Path)
  : bool :=
  match getRecord nodeMap path with
  | None => false
  | Some node =>
      ancestorLoop (S (length path)) nodeMap (Some (nr_parent node))
  end.

Definition setHighlighted (r : NodeRecord) : NodeRecord :=
  {| nr_signature := nr_signature r; nr_textContent := nr_textContent r;
     nr_path := nr_path r; nr_depth := nr_depth r;
     nr_highlighted := true; nr_parent := nr_parent r |}.

(** [markAsHighlighted(nodeMap, path)] *)
Definition markAsHighlighted (nodeMap : list NodeRecord) (path : Path)
  : list NodeRecord :=
  map (fun r => if path_eqb (nr_path r) path then setHighlighted r else r)
      nodeMap.

(** [sortNodesByDepth]: a stable sort by ascending depth. *)
Fixpoint insertByDepth (r : NodeRecord) (l : list NodeRecord)
  : list NodeRecord :=
  match l with
  | [] => [r]
  | x :: l' =>
      if (nr_depth r <=? nr_depth x)%nat then r :: l
      else x :: insertByDepth r l'
  end.

Definition sortNodesByDepth (nodeMap : list NodeRecord) : list NodeRecord :=
  fold_right insertByDepth [] nodeMap.

(** [diffs.some(([op, text]) => op !== 0 && text.trim().length > 0)] *)
Definition hasSignificantChanges (diffs : list DiffOp) : bool :=
  existsb (fun d : DiffOp =>
             negb (fst d =? 0) && (0 <? strlen (trim (snd d)))) diffs.


Definition is_original (n : node) : bool :=
  match n with
  | ElemNode e _ => negb (created e)
  | _ => false
  end.

(** The tree after [f] has been applied to the element that a node map
    entry refers to: the element reached from the container by the
    indices of [path], counted among the element children that were there
    when the map was built. *)
Fixpoint updateElement (path : Path) (f : node -> node) (n : node) : node :=
  match path with
  | [] => f n
  | index :: path' =>
      match n with
      | ElemNode e cs =>
          ElemNode e
            ((fix each (cs : list node) (i : nat) : list node :=
                match cs with
                | [] => []
                | c :: cs' =>
                    if is_original c then
                      match i with
                      | O => updateElement path' f c :: cs'
                      | S i' => c :: each cs' i'
                      end
                    else c :: each cs' i
                end) cs index)
      | _ => n
      end
  end.

(** One side of the comparison: the container, its node map, the set of
    processed paths, and [marked], the paths of the elements handed to
    [markNodeAsChanged], in the order of the calls (a record of what the
    pass did; the algorithm does not read it).  The elements that receive
    the class [diff-node-removed] or [diff-node-added] are among them. *)
Record Side : Type := {
  tree : node;
  nodeMap : list NodeRecord;
  processed : list Path;
  marked : list Path
}.

(** The state of [deepCompareAndMarkChanges].  [highlightCalls] records
    the calls of [markTextDifferences] (old path, new path); the
    algorithm does not read it. *)
Record AlignState : Type := {
  oldSide : Side;
  newSide : Side;
  nodeMapping : list (Path * Path);
  highlightCalls : list (Path * Path)
}.

(** How a stretch of the pass ends: normally, or with an exception
    thrown; either way the state reached is the one given. *)
Inductive Outcome (S : Type) : Type :=
| Done (s : S)
| Raised (s : S).
Arguments Done {S} s.
Arguments Raised {S} s.

Definition addProcessed (p : Path) (s : Side) : Side :=
  {| tree := tree s; nodeMap := nodeMap s;
     processed := p :: processed s; marked := marked s |}.

Definition highlightOn (changeType : ChangeType) (drop : Z)
                       (diffs : list DiffOp) (p : Path) (s : Side) : Side :=
  {| tree := updateElement p
               (fun n => match n with
                         | ElemNode e cs => highlightSide changeType drop diffs e cs
                         | _ => n
                         end)
               (tree s);
     nodeMap := markAsHighlighted (nodeMap s) p;
     processed := processed s;
     marked := marked s |}.

(** The candidates of both matching passes: the first new entry that is
    neither processed nor under a highlighted ancestor and that [fits]. *)
Definition firstCandidate (fits : NodeRecord -> bool) (new : Side)
                          (sortedNewNodes : list NodeRecord)
  : option NodeRecord :=
  find (fun newNode =>
          negb (hasHighlightedAncestor (nodeMap new) (nr_path newNode)
                || mem_path (nr_path newNode) (processed new))
          && fits newNode)
       sortedNewNodes.

Definition pairUp (oldPath newPath : Path) (st : AlignState) : AlignState :=
  {| oldSide := addProcessed oldPath (oldSide st);
     newSide := addProcessed newPath (newSide st);
     nodeMapping := (oldPath, newPath) :: nodeMapping st;
     highlightCalls := highlightCalls st |}.

(** Step 2.1: entries equal in signature and content. *)
Fixpoint exactPass (sortedOldNodes sortedNewNodes : list NodeRecord)
                   (st : AlignState) : AlignState :=
  match sortedOldNodes with
  | [] => st
  | oldNode :: rest =>
      let oldPath := nr_path oldNode in
      if hasHighlightedAncestor (nodeMap (oldSide st)) oldPath then
        exactPass rest sortedNewNodes
          {| oldSide := addProcessed oldPath (oldSide st);
             newSide := newSide st;
             nodeMapping := nodeMapping st;
             highlightCalls := highlightCalls st |}
      else
        match firstCandidate
                (fun newNode =>
                   str_eqb (nr_signature oldNode) (nr_signature newNode)
                   && str_eqb (nr_textContent oldNode) (nr_textContent newNode))
                (newSide st) sortedNewNodes with
        | Some newNode =>
            exactPass rest sortedNewNodes (pairUp oldPath (nr_path newNode) st)
        | None => exactPass rest sortedNewNodes st
        end
  end.

Section Aligner.

Variable dmp : Dmp.
Variable platform : Platform.

(** [markTextDifferences(oldNode.element, newNode.element, diffs)]
    followed by the two [markAsHighlighted]. *)
Definition markTextDifferences (oldPath newPath : Path)
                               (diffs : list DiffOp) (st : AlignState)
  : AlignState :=
  {| oldSide := highlightOn removed DIFF_INSERT diffs oldPath (oldSide st);
     newSide := highlightOn added DIFF_DELETE diffs newPath (newSide st);
     nodeMapping := nodeMapping st;
     highlightCalls := highlightCalls st ++ [(oldPath, newPath)] |}.

(** The body of [if (oldNode.signature === newNode.signature)] in step
    2.2, for the pair found. *)
Definition pairStructural (oldNode newNode : NodeRecord) (st : AlignState)
  : Outcome AlignState :=
  let st1 := pairUp (nr_path oldNode) (nr_path newNode) st in
  match performDiff dmp (nr_textContent oldNode) (nr_textContent newNode) with
  | Throw => Raised st1
  | Ok diffs =>
      if hasSignificantChanges diffs then
        Done (markTextDifferences (nr_path oldNode) (nr_path newNode) diffs st1)
      else Done st1
  end.

(** Step 2.2: entries equal in signature only. *)
Fixpoint structuralPass (sortedOldNodes sortedNewNodes : list NodeRecord)
                        (st : AlignState) : Outcome AlignState :=
  match sortedOldNodes with
  | [] => Done st
  | oldNode :: rest =>
      let oldPath := nr_path oldNode in
      if mem_path oldPath (processed (oldSide st))
         || hasHighlightedAncestor (nodeMap (oldSide st)) oldPath then
        structuralPass rest sortedNewNodes st
      else
        match firstCandidate
                (fun newNode =>
                   str_eqb (nr_signature oldNode) (nr_signature newNode))
                (newSide st) sortedNewNodes with
        | Some newNode =>
            match pairStructural oldNode newNode st with
            | Done st' => structuralPass rest sortedNewNodes st'
            | Raised st' => Raised st'
            end
        | None => structuralPass rest sortedNewNodes st
        end
  end.

(** [markNodeAsChanged(node, changeType)] on an element. *)
Definition markNodeAsChanged (changeType : ChangeType) (n : node) : node :=
  match n with
  | ElemNode e cs =>
      if negb (isHTMLElement e) then n
      else
        let originalStyle :=
          match getAttribute (js "style") (attributes e) with
          | Some v => v | None => [] end in
        let e1 := classList_add (js "diff-node-" ++ changeName changeType) e in
        if backgroundWasChanged platform e1 && truthy originalStyle then
          ElemNode (withAttributes e1
                      (setAttribute (js "data-original-style") originalStyle
                                    (attributes e1))) cs
        else ElemNode e1 cs
  | _ => n
  end.

(** Step 2.3 on one side: the entries left without a pair. *)
Fixpoint residualPass (changeType : ChangeType)
                      (sortedNodes : list NodeRecord) (s : Side) : Side :=
  match sortedNodes with
  | [] => s
  | n :: rest =>
      let path := nr_path n in
      if mem_path path (processed s)
         || hasHighlightedAncestor (nodeMap s) path then
        residualPass changeType rest s
      else
        residualPass changeType rest
          {| tree := updateElement path (markNodeAsChanged changeType) (tree s);
             nodeMap := markAsHighlighted (nodeMap s) path;
             processed :=
               filter (is_strict_prefix path) (map nr_path (nodeMap s))
                 ++ processed s;
             marked := marked s ++ [path] |}
  end.

Definition initialState (oldContainer newContainer : node) : AlignState :=
  {| oldSide := {| tree := oldContainer;
                   nodeMap := createNodeMap oldContainer;
                   processed := []; marked := [] |};
     newSide := {| tree := newContainer;
                   nodeMap := createNodeMap newContainer;
                   processed := []; marked := [] |};
     nodeMapping := [];
     highlightCalls := [] |}.

(** [deepCompareAndMarkChanges(oldContainer, newContainer)] *)
Definition deepCompareAndMarkChanges (oldContainer newContainer : node)
  : Outcome AlignState :=
  let st0 := initialState oldContainer newContainer in
  let sortedOldNodes := sortNodesByDepth (nodeMap (oldSide st0)) in
  let sortedNewNodes := sortNodesByDepth (nodeMap (newSide st0)) in
  let st1 := exactPass sortedOldNodes sortedNewNodes st0 in
  match structuralPass sortedOldNodes sortedNewNodes st1 with
  | Raised st2 => Raised st2
  | Done st2 =>
      Done {| oldSide := residualPass removed sortedOldNodes (oldSide st2);
              newSide := residualPass added sortedNewNodes (newSide st2);
              nodeMapping := nodeMapping st2;
              highlightCalls := highlightCalls st2 |}
  end.

End Aligner.

(* ================================================================== *)
(** * Predicates of the statements and of their invariants *)
(* ================================================================== *)

(** The part of a node map entry that the pass never writes. *)
Definition skeleton (r : NodeRecord) : Path * Path * nat :=
  (nr_path r, nr_parent r, nr_depth r).

(** An entry as [createNodeMap] makes them: the parent path is the path
    without its last index and the depth counts the indices after the
    first. *)
Definition wf_entry (r : NodeRecord) : Prop :=
  nr_path r <> [] /\
  nr_parent r = removelast (nr_path r) /\
  length (nr_path r) = S (nr_depth r).

(** Every parent path other than the container's is a key of the map. *)
Definition closed (nm : list NodeRecord) : Prop :=
  forall r, In r nm ->
            nr_parent r = [] \/ In (nr_parent r) (map nr_path nm).

Definition wf_map (nm : list NodeRecord) : Prop :=
  Forall wf_entry nm /\ closed nm.

Definition depth_le (a b : NodeRecord) : Prop :=
  (nr_depth a <= nr_depth b)%nat.

(** The invariant of step 2.3 on one side. *)
Definition residual_inv (s : Side) : Prop :=
  wf_map (nodeMap s) /\
  (forall p, In p (marked s) ->
             exists r, getRecord (nodeMap s) p = Some r /\
                       nr_highlighted r = true) /\
  (forall p q, In p (marked s) -> In q (marked s) ->
               is_strict_prefix p q = false).

Definition outcomeState {S : Type} (o : Outcome S) : S :=
  match o with Done s => s | Raised s => s end.

(* ================================================================== *)
(** * Orchestrator *)
(* ================================================================== *)

(** What a pass leaves behind: the content of the two containers, the
    state the node aligner ended in when it was run ([None] when it was
    not), and whether a failure was reported with [console.error]. *)
Record PassResult : Type := {
  r_old : node;
  r_new : node;
  r_aligner : option AlignState;
  r_logged : bool
}.

(** A pass returns, or an exception leaves it uncaught. *)
Inductive PassOutcome : Type :=
| Completed (r : PassResult)
| Uncaught (r : PassResult).

Section Orchestrator.

Variable dmp : Dmp.
Variable platform : Platform.

(** [markStructuralChanges]: the aligner, then the whitespace-run
    highlighter on both containers.  The containers are changed in
    place: when the aligner throws they stay as it left them. *)
Definition markStructuralChanges (oldContainer newContainer : node)
  : Outcome (node * node * AlignState) :=
  match deepCompareAndMarkChanges dmp platform oldContainer newContainer with
  | Raised st => Raised (tree (oldSide st), tree (newSide st), st)
  | Done st =>
      Done (markWhitespaceChanges platform (tree (oldSide st)),
            markWhitespaceChanges platform (tree (newSide st)), st)
  end.

(** [container.innerHTML], read. *)
Definition innerHTML (container : node) : str :=
  serializeHTML platform (childNodesOf container).

(** [highlightChanges]: the trees whose [innerHTML] it returns. *)
Definition highlightChanges (oldHtmlContainer newHtmlContainer : node)
                            (diffs : list DiffOp)
  : Outcome (node * node * AlignState) :=
  match markStructuralChanges oldHtmlContainer newHtmlContainer with
  | Raised r => Raised r
  | Done (oldMarked, newMarked, st) =>
      let oldTextNodes := extractTextNodes oldMarked in
      let newTextNodes := extractTextNodes newMarked in
      let (oldChanges, newChanges) := changeRanges 0 0 diffs in
      Done (applyTextNodeChanges oldMarked oldTextNodes oldChanges,
            applyTextNodeChanges newMarked newTextNodes newChanges, st)
  end.

(** The container [div] of one column with the given content. *)
Definition containerOf (content : list node) : node :=
  ElemNode {| created := false; isHTMLElement := true; tagName := js "DIV";
              attributes := [(js "class", js "lexical-content")] |} content.

(** [container.innerHTML = highlightedHtml], where [highlightedHtml] is
    the [innerHTML] of [highlighted]: the container receives the nodes
    that the parser reads from the serialisation of the children of
    [highlighted]. *)
Definition reparsed (highlighted : node) : node :=
  containerOf (render platform (innerHTML highlighted)).

(** [processSideBySideDiff] for the inputs [oldHtml] and [newHtml], with
    both containers mounted. *)
Definition processSideBySideDiff (oldHtml newHtml : str) : PassOutcome :=
  let oldContainer := containerOf (render platform oldHtml) in
  let newContainer := containerOf (render platform newHtml) in
  let oldText := textContent oldContainer in
  let newText := textContent newContainer in
  if str_eqb oldText newText && negb (str_eqb oldHtml newHtml) then
    match markStructuralChanges oldContainer newContainer with
    | Done (o, n, st) =>
        Completed {| r_old := o; r_new := n; r_aligner := Some st;
                     r_logged := false |}
    | Raised (o, n, st) =>
        Uncaught {| r_old := o; r_new := n; r_aligner := Some st;
                    r_logged := false |}
    end
  else
    match performDiff dmp oldText newText with
    | Throw =>
        Uncaught {| r_old := oldContainer; r_new := newContainer;
                    r_aligner := None; r_logged := false |}
    | Ok diffs =>
        match highlightChanges oldContainer newContainer diffs with
        | Done (o, n, st) =>
            (* oldContainer.innerHTML = highlightedOldHtml, and the new *)
            Completed {| r_old := reparsed o; r_new := reparsed n;
                         r_aligner := Some st; r_logged := false |}
        | Raised (_, _, st) =>
            (* catch: console.error, innerHTML = oldHtml / newHtml *)
            Completed {| r_old := containerOf (render platform oldHtml);
                         r_new := containerOf (render platform newHtml);
                         r_aligner := Some st; r_logged := true |}
        end
    end.

End Orchestrator.

(* ================================================================== *)
(** * A small platform for the worked examples *)
(* ================================================================== *)

(** [example_parse] reads the markup of the examples: text with the
    character references for the less-than sign, the greater-than sign
    and the ampersand, start tags with double-quoted attributes, and end
    tags.  It stands for the browser's fragment parser in the worked
    examples only; the general theorems hold for every [Platform]. *)
Inductive token : Type :=
| TText (text : str)
| TOpen (tag : str) (attrs : list (str * str))
| TClose.

Definition LT : char := 60%N.
Definition GT : char := 62%N.
Definition AMP : char := 38%N.

Definition toUpperCase (s : str) : str :=
  map (fun c => if ((97 <=? c) && (c <=? 122))%N then (c - 32)%N else c) s.

(** Character data up to the next tag, with the references decoded. *)
Fixpoint lexText (fuel : nat) (s : str) : str * str :=
  match fuel with
  | O => ([], s)
  | S fuel' =>
      match s with
      | [] => ([], [])
      | c :: s' =>
          if (c =? LT)%N then ([], s)
          else if startsWith s (js "&lt;") then
            let (t, r) := lexText fuel' (skipn 4 s) in (LT :: t, r)
          else if startsWith s (js "&gt;") then
            let (t, r) := lexText fuel' (skipn 4 s) in (GT :: t, r)
          else if startsWith s (js "&amp;") then
            let (t, r) := lexText fuel' (skipn 5 s) in (AMP :: t, r)
          else let (t, r) := lexText fuel' s' in (c :: t, r)
      end
  end.

(** The attributes inside a start tag, each a name, the equals sign and
    a value between double quotes. *)
Fixpoint lexAttrs (fuel : nat) (s : str) : list (str * str) :=
  match fuel with
  | O => []
  | S fuel' =>
      match span (fun c => negb (c =? 61)%N) (drop_space s) with
      | (name, _ :: _ :: rest) =>
          let (value, rest') := span (fun c => negb (c =? QUOTE)%N) rest in
          (name, value) :: lexAttrs fuel' (tl rest')
      | _ => []
      end
  end.

Fixpoint lex (fuel : nat) (s : str) : list token :=
  match fuel with
  | O => []
  | S fuel' =>
      match s with
      | [] => []
      | c :: s' =>
          if (c =? LT)%N then
            let (inside, after) := span (fun c => negb (c =? GT)%N) s' in
            match inside with
            | 47%N :: _ => TClose :: lex fuel' (tl after)
            | _ =>
                let (name, attrs) := span (fun c => negb (is_space c)) inside in
                TOpen (toUpperCase name) (lexAttrs (length attrs) attrs)
                  :: lex fuel' (tl after)
            end
          else
            let (t, r) := lexText (length s) s in
            TText t :: lex fuel' r
      end
  end.

(** The forest of a token list: a start tag opens an element that goes on
    to the next unmatched end tag or to the end of the input. *)
Fixpoint build (fuel : nat) (ts : list token) : list node * list token :=
  match fuel with
  | O => ([], [])
  | S fuel' =>
      match ts with
      | [] => ([], [])
      | TText t :: ts' =>
          let (ns, r) := build fuel' ts' in (TextNode t :: ns, r)
      | TOpen tag attrs :: ts' =>
          let (cs, r1) := build fuel' ts' in
          let (ns, r2) := build fuel' r1 in
          (ElemNode {| created := false; isHTMLElement := true;
                       tagName := tag; attributes := attrs |} cs :: ns, r2)
      | TClose :: ts' => ([], ts')
      end
  end.

Definition example_parse (markup : str) : list node :=
  let ts := lex (S (length markup)) markup in
  fst (build (S (length ts)) ts).

(** [example_serialize] writes what [example_parse] reads: text with
    the three characters replaced by their references, start tags with
    the tag name in lower case and the attributes between double quotes,
    and end tags.  A node of another type is written as nothing. *)
Definition escapeText (text : str) : str :=
  flat_map (fun c => if (c =? AMP)%N then js "&amp;"
                     else if (c =? LT)%N then js "&lt;"
                     else if (c =? GT)%N then js "&gt;"
                     else [c]) text.

Fixpoint serializeNode (n : node) : str :=
  match n with
  | TextNode data => escapeText data
  | ElemNode e cs =>
      js "<" ++ toLowerCase (tagName e)
        ++ flat_map (fun a : str * str =>
                       js " " ++ fst a ++ js "=" ++ [QUOTE] ++ snd a ++ [QUOTE])
                    (attributes e)
        ++ js ">" ++ flat_map serializeNode cs
        ++ js "</" ++ toLowerCase (tagName e) ++ js ">"
  | OtherNode => []
  end.

Definition example_serialize (ns : list node) : str :=
  flat_map serializeNode ns.

(** The computed background colour of an element is never the string
    [transparent] in this platform (browsers report an [rgba] value), so
    the test of [markNodeAsChanged] holds. *)
Definition example_platform : Platform := {|
  parseHTML := example_parse;
  serializeHTML := example_serialize;
  backgroundWasChanged := fun _ => true
|}.

(** The words of [ws] tile [[pos, stop)]: the first starts at [pos], each
    ends where the next starts, each spans exactly its own text, and the
    last ends at [stop]. *)
Fixpoint tiles (pos : Z) (ws : list Word) (stop : Z) : Prop :=
  match ws with
  | [] => pos = stop
  | w :: ws' =>
      w_start w = pos /\ w_end w = pos + strlen (w_text w) /\
      tiles (w_end w) ws' stop
  end.

(** The invariant of [applyWordHighlighting]: a replaced text node was
    replaced by nodes whose text is its own. *)
Definition fragments_faithful (textNodes : list TextSpan) (rs : Replacements)
  : Prop :=
  length rs = length textNodes /\
  forall k fragment,
    nth_error rs k = Some (Some fragment) ->
    exists ts, nth_error textNodes k = Some ts /\
               nodes_text fragment = ts_text ts.

(** Induction on DOM trees, with the hypothesis for every child. *)
Fixpoint node_tree_ind (P : node -> Prop)
    (Htext : forall data, P (TextNode data))
    (Helem : forall e cs, Forall P cs -> P (ElemNode e cs))
    (Hother : P OtherNode) (n : node) : P n :=
  match n with
  | TextNode data => Htext data
  | ElemNode e cs =>
      Helem e cs
        ((fix all (cs : list node) : Forall P cs :=
            match cs with
            | [] => Forall_nil P
            | c :: cs' =>
                Forall_cons c (node_tree_ind P Htext Helem Hother c) (all cs')
            end) cs)
  | OtherNode => Hother
  end.

(** Steps 2.1 and 2.2 write nothing but flags into the node maps and
    call [markNodeAsChanged] on no element. *)
Definition same_maps (st st' : AlignState) : Prop :=
  map skeleton (nodeMap (oldSide st')) = map skeleton (nodeMap (oldSide st)) /\
  map skeleton (nodeMap (newSide st')) = map skeleton (nodeMap (newSide st)) /\
  marked (oldSide st') = marked (oldSide st) /\
  marked (newSide st') = marked (newSide st).

(** A string with two consecutive literal spaces somewhere. *)
Definition has_double_space (s : str) : Prop :=
  exists a b, s = a ++ SPACE :: SPACE :: b.

(** The data of the text nodes under a node, in document order. *)
Fixpoint textNodesOf (n : node) : list str :=
  match n with
  | TextNode data => [data]
  | ElemNode _ cs => flat_map textNodesOf cs
  | OtherNode => []
  end.

(** No entry of a node map is flagged. *)
Definition unflagged (nm : list NodeRecord) : Prop :=
  Forall (fun r => nr_highlighted r = false) nm.

(** Some element of the subtree carries the class token. *)
Fixpoint has_class (token : str) (n : node) : bool :=
  match n with
  | ElemNode e cs => mem_str token (classList e) || existsb (has_class token) cs
  | _ => false
  end.

(** An element [<tag>] of the rendered input with the given children. *)
Definition elem (tag : string) (cs : list node) : node :=
  ElemNode {| created := false; isHTMLElement := true; tagName := js tag;
              attributes := [] |} cs.

(** The marker [<span class="...">] as the parser reads it from the
    markup of a container. *)
Definition parsedMarker (class : string) (cs : list node) : node :=
  ElemNode {| created := false; isHTMLElement := true; tagName := js "SPAN";
              attributes := [(js "class", js class)] |} cs.


(** The engine of the fourth scenario: on the texts of that scenario it
    answers as a character diff does (the first of the two spaces kept,
    the second deleted), and elsewhere as [simple_dmp]. *)
Definition scenario4_dmp : Dmp := {|
  diff_main := fun a b =>
    if str_eqb a (spaceSensitiveText (js "a  b"))
       && str_eqb b (spaceSensitiveText (js "a b"))
    then Ok [(DIFF_EQUAL, [97; NBSP]%N); (DIFF_DELETE, [NBSP]);
             (DIFF_EQUAL, js "b")]
    else simple_diff_main a b;
  diff_cleanupSemantic := fun ds => ds;
  diff_cleanupEfficiency := fun ds => ds
|}.

(* ================================================================== *)
(** * Predicates of the further properties *)
(* ================================================================== *)

(** The ranges [(start, end, text)] of [l] tile [[pos, stop)]: the first
    starts at [pos], each ends where the next starts and spans exactly
    its own text, and the last ends at [stop]. *)
Fixpoint ranges_tile (pos : Z) (l : list (Z * Z * str)) (stop : Z) : Prop :=
  match l with
  | [] => pos = stop
  | (s, e, t) :: l' => s = pos /\ e = pos + strlen t /\ ranges_tile e l' stop
  end.

Definition tn_range (t : TextNodeMap) : Z * Z * str :=
  (tn_startPos t, tn_endPos t, tn_text t).

Definition ts_range (t : TextSpan) : Z * Z * str :=
  (ts_start t, ts_end t, ts_text t).

(** The element reached from [n] by the indices of [path], each counted
    among the element children ([node.children]). *)
Fixpoint elementAt (n : node) (path : Path) : option node :=
  match path with
  | [] => Some n
  | index :: path' =>
      match nth_error (children (childNodesOf n)) index with
      | Some child => elementAt child path'
      | None => None
      end
  end.

(** The shapes of a token: white space only, word characters only, or
    one punctuation character. *)
Definition token_shape (t : str) : Prop :=
  forallb is_space t = true \/
  forallb is_wordchar t = true \/
  (exists c, t = [c] /\ is_punct c = true).

(** The invariant of the two matching steps on the pairs made so far:
    both ends of a pair are processed and are entries with equal
    signatures, no entry is paired twice, nothing else is processed, the
    flagged entries are those of the highlight calls, and every highlight
    call is for a pair. *)
Definition pairs_inv (sortedOldNodes sortedNewNodes : list NodeRecord)
                     (st : AlignState) : Prop :=
  (forall o n, In (o, n) (nodeMapping st) ->
     In o (processed (oldSide st)) /\ In n (processed (newSide st)) /\
     exists ro rn,
       In ro sortedOldNodes /\ In rn sortedNewNodes /\
       nr_path ro = o /\ nr_path rn = n /\
       nr_signature ro = nr_signature rn) /\
  NoDup (map fst (nodeMapping st)) /\
  NoDup (map snd (nodeMapping st)) /\
  (forall p, In p (processed (oldSide st)) ->
             In p (map fst (nodeMapping st))) /\
  (forall p, In p (processed (newSide st)) ->
             In p (map snd (nodeMapping st))) /\
  (forall r, In r (nodeMap (oldSide st)) -> nr_highlighted r = true ->
             In (nr_path r) (map fst (highlightCalls st))) /\
  (forall r, In r (nodeMap (newSide st)) -> nr_highlighted r = true ->
             In (nr_path r) (map snd (highlightCalls st))) /\
  (forall c, In c (highlightCalls st) -> In c (nodeMapping st)).

(** The invariant of step 2.3 on one side, where [M] are the paired
    paths of the side and [H] those of its highlight calls. *)
Definition residual_ok (M H : list Path) (s : Side) : Prop :=
  (forall p, In p M -> In p (processed s)) /\
  (forall p, In p (processed s) ->
     In p M \/ exists a, In a (marked s) /\ is_strict_prefix a p = true) /\
  (forall r, In r (nodeMap s) -> nr_highlighted r = true ->
     In (nr_path r) H \/ In (nr_path r) (marked s)) /\
  (forall p, In p (marked s) -> ~ In p M).

(** How an element ends a pass: paired, marked, or under an element that
    was marked or highlighted. *)
Definition classified (M H marks : list Path) (p : Path) : Prop :=
  In p M \/ In p marks \/
  exists a, is_strict_prefix a p = true /\ (In a marks \/ In a H).

(** What a pass leaves behind, however it ended. *)
Definition passResult (o : PassOutcome) : PassResult :=
  match o with Completed r => r | Uncaught r => r end.

(** A string without two consecutive spaces. *)
Definition plain (t : str) : Prop := ~ has_double_space t.

(** Every fragment of the replacement state is free of space runs. *)
Definition plain_fragments (rs : Replacements) : Prop :=
  forall k fragment, nth_error rs k = Some (Some fragment) ->
                     Forall plain (flat_map textNodesOf fragment).

(** No text node under the node holds two consecutive spaces. *)
Definition no_space_runs (n : node) : Prop :=
  Forall (fun t => ~ has_double_space t) (textNodesOf n).

(** The operations of diff-match-patch. *)
Definition valid_op (d : DiffOp) : Prop :=
  fst d = DIFF_DELETE \/ fst d = DIFF_EQUAL \/ fst d = DIFF_INSERT.

(** The groups follow one another from [pos] to [stop]. *)
Fixpoint groups_chain (pos : Z) (gs : list Group) (stop : Z) : Prop :=
  match gs with
  | [] => pos = stop
  | g :: gs' => g_start g = pos /\ groups_chain (g_end g) gs' stop
  end.

(** Neighbouring groups differ in their classification. *)
Fixpoint alternating (gs : list Group) : Prop :=
  match gs with
  | g1 :: ((g2 :: _) as rest) =>
      g_isChanged g1 <> g_isChanged g2 /\ alternating rest
  | _ => True
  end.

(** [markup] is [content] with every maximal run of two or more spaces
    put between the tags of the whitespace marker, and nothing else
    changed. *)
Inductive marks_runs : str -> str -> Prop :=
| marks_none (s : str) : plain s -> marks_runs s s
| marks_run (t sp rest markup : str) :
    plain t -> (forall t', t <> t' ++ [SPACE]) ->
    (2 <= length sp)%nat -> Forall (eq SPACE) sp ->
    (forall r', rest <> SPACE :: r') ->
    marks_runs rest markup ->
    marks_runs (t ++ sp ++ rest)
               (t ++ whitespaceSpanOpen ++ sp ++ whitespaceSpanClose ++ markup).

(** A change range that lies in [text]: it has the given type, spans
    exactly its own text, and that text stands in [text] at the start
    offset of the range. *)
Definition located (text : str) (type : ChangeType) (c : Change) : Prop :=
  ch_type c = type /\ ch_end c = ch_start c + strlen (ch_text c) /\
  exists pre post, text = pre ++ ch_text c ++ post /\ ch_start c = strlen pre.

(* ================================================================== *)
(** * The export filter of the editor *)
(* ================================================================== *)

(** [element.removeAttribute(name)]: the first attribute of that name is
    removed. *)
Fixpoint removeAttribute (name : str) (attrs : list (str * str))
  : list (str * str) :=
  match attrs with
  | [] => []
  | (n, v) :: attrs' =>
      if str_eqb n name then attrs'
      else (n, v) :: removeAttribute name attrs'
  end.

(** The selector [[style],[class],[dir="ltr"]] of [querySelectorAll].
    On an HTML element the value of [dir] is compared without regard to
    ASCII case, on any other element as it is. *)
Definition matchesExportSelector (e : Element) : bool :=
  match getAttribute (js "style") (attributes e) with
  | Some _ => true
  | None =>
      match getAttribute (js "class") (attributes e) with
      | Some _ => true
      | None =>
          match getAttribute (js "dir") (attributes e) with
          | Some v =>
              if isHTMLElement e then str_eqb (toLowerCase v) (js "ltr")
              else str_eqb v (js "ltr")
          | None => false
          end
      end
  end.

(** The body of the loop of [removeStylesExportDOM] on one element. *)
Definition clearPresentation (e : Element) : Element :=
  let a1 := removeAttribute (js "class") (attributes e) in
  let a2 := removeAttribute (js "style") a1 in
  let a3 := match getAttribute (js "dir") a2 with
            | Some v =>
                if str_eqb v (js "ltr") then removeAttribute (js "dir") a2
                else a2
            | None => a2
            end in
  withAttributes e a3.

(** The loop over the descendants that [querySelectorAll] returns. *)
Fixpoint clearMatching (n : node) : node :=
  match n with
  | ElemNode e cs =>
      ElemNode (if matchesExportSelector e then clearPresentation e else e)
               (map clearMatching cs)
  | _ => n
  end.

(** [removeStylesExportDOM] on [output.element], the node that
    [target.exportDOM(editor)] has returned.  The test [isHTMLElement] of
    the editor library holds for every element node ([nodeType === 1]),
    whatever its namespace: the element itself and the matching
    descendants are cleared. *)
Definition removeStylesExportDOM (element : node) : node :=
  match element with
  | ElemNode e cs => ElemNode (clearPresentation e) (map clearMatching cs)
  | _ => element
  end.

(** The elements of a tree, the root first, in document order. *)
Fixpoint elementsOf (n : node) : list Element :=
  match n with
  | ElemNode e cs => e :: flat_map elementsOf cs
  | _ => []
  end.

(** No two attributes of the element have the same name. *)
Definition attrs_distinct (e : Element) : Prop :=
  NoDup (map fst (attributes e)).

(** The element carries no class, no inline style and no [dir="ltr"]. *)
Definition presentation_free (e : Element) : Prop :=
  getAttribute (js "class") (attributes e) = None /\
  getAttribute (js "style") (attributes e) = None /\
  getAttribute (js "dir") (attributes e) <> Some (js "ltr").

(** [e'] is [e] up to the attributes [class], [style] and [dir]. *)
Definition same_but_presentation (e e' : Element) : Prop :=
  tagName e' = tagName e /\ isHTMLElement e' = isHTMLElement e /\
  forall name, name <> js "class" -> name <> js "style" -> name <> js "dir" ->
               getAttribute name (attributes e')
               = getAttribute name (attributes e).

(* ================================================================== *)
(** * The style strings of the toolbar *)
(* ================================================================== *)

Definition SEMICOLON : char := 59%N.
Definition DOLLAR : char := 36%N.

(** [[^;]] *)
Definition not_semicolon (c : char) : bool := negb (c =? SEMICOLON)%N.

(** One attempt of [/<name>:\s*([^;]+)(;|$)/] at the head of [s];
    [literal] is the name with its colon.  [\s*] and [[^;]+] are greedy.
    Behind the run of [[^;]+] stands a semicolon or the end of the
    string, so the last group always matches.  When nothing but a
    semicolon or the end stands behind the white space, [\s*] gives its
    last character back and that character is group 1.  The result is
    [match[0]], group 1, group 2 and the text behind the match. *)
Definition match_declaration (literal s : str)
  : option (str * str * str * str) :=
  if startsWith s literal then
    let (spaces, s2) := span is_space (skipn (length literal) s) in
    let (value, s3) := span not_semicolon s2 in
    match value with
    | _ :: _ =>
        Some (literal ++ spaces ++ value ++ firstn 1 s3,
              value, firstn 1 s3, skipn 1 s3)
    | [] =>
        match rev spaces with
        | c :: _ =>
            Some (literal ++ spaces ++ firstn 1 s2,
                  [c], firstn 1 s2, skipn 1 s2)
        | [] => None
        end
    end
  else None.

(** The first position of [s] at which the pattern matches: the text
    before the match, and the match. *)
Fixpoint find_declaration (literal s : str)
  : option (str * (str * str * str * str)) :=
  match match_declaration literal s with
  | Some r => Some ([], r)
  | None =>
      match s with
      | [] => None
      | c :: s' =>
          match find_declaration literal s' with
          | Some (before, r) => Some (c :: before, r)
          | None => None
          end
      end
  end.

(** One attempt of [/<name>:\s*([^;]+)/] at the head of [s]: group 1. *)
Definition match_value (literal s : str) : option str :=
  if startsWith s literal then
    let (spaces, s2) := span is_space (skipn (length literal) s) in
    let (value, _) := span not_semicolon s2 in
    match value with
    | _ :: _ => Some value
    | [] =>
        match rev spaces with
        | c :: _ => Some [c]
        | [] => None
        end
    end
  else None.

(** [styleString.match(/<name>:\s*([^;]+)/)]: group 1 of the first
    match. *)
Fixpoint find_value (literal s : str) : option str :=
  match match_value literal s with
  | Some v => Some v
  | None =>
      match s with
      | [] => None
      | _ :: s' => find_value literal s'
      end
  end.

Definition is_digit (c : char) : bool := ((48 <=? c) && (c <=? 57))%N.

(** The capture with the given number, of a pattern with two groups. *)
Definition capture (group1 group2 : str) (index : N) : option str :=
  if (index =? 1)%N then Some group1
  else if (index =? 2)%N then Some group2
  else None.

(** The replacement text that [String.prototype.replace] builds from a
    template for a match of a pattern with two groups and no named
    group: [$$], [$&], the dollar sign with a backquote or a quote, and
    the dollar sign with one or two digits are substituted, every other
    character is copied. *)
Fixpoint getSubstitution (matched before after group1 group2 : str)
                         (template : str) : str :=
  let go := getSubstitution matched before after group1 group2 in
  match template with
  | [] => []
  | c :: rest =>
      if negb (c =? DOLLAR)%N then c :: go rest
      else
        match rest with
        | [] => [c]
        | d :: rest' =>
            if (d =? DOLLAR)%N then DOLLAR :: go rest'
            else if (d =? 38)%N then matched ++ go rest'
            else if (d =? 96)%N then before ++ go rest'
            else if (d =? 39)%N then after ++ go rest'
            else if is_digit d then
              let one :=
                match capture group1 group2 (d - 48) with
                | Some text => text ++ go rest'
                | None => c :: d :: go rest'
                end in
              match rest' with
              | d2 :: rest'' =>
                  if is_digit d2 then
                    let index := ((d - 48) * 10 + (d2 - 48))%N in
                    if (2 <? index)%N then one
                    else
                      match capture group1 group2 index with
                      | Some text => text ++ go rest''
                      | None => c :: d :: d2 :: go rest''
                      end
                  else one
              | [] => one
              end
            else c :: go rest
        end
  end.

(** [currentStyle.endsWith(";")] *)
Definition endsWithSemicolon (s : str) : bool :=
  match rev s with
  | c :: _ => (c =? SEMICOLON)%N
  | [] => false
  end.

(** The style that the handlers [onFontSizeChange], [onFontFamilyChange]
    and [onFontColorChange] give to a text node whose style is
    [currentStyle]; the three differ in the name of the property only. *)
Definition setStyleProperty (property value currentStyle : str) : str :=
  match find_declaration (property ++ js ":") currentStyle with
  | Some (before, (matched, group1, group2, after)) =>
      (* currentStyle.replace(pattern, `<name>: ${value}$2`) *)
      before
        ++ getSubstitution matched before after group1 group2
             (property ++ js ": " ++ value ++ js "$2")
        ++ after
  | None =>
      currentStyle
        ++ (if truthy currentStyle && negb (endsWithSemicolon currentStyle)
            then js ";" else [])
        ++ property ++ js ": " ++ value ++ js ";"
  end.

Definition onFontSizeChange (fontSize currentStyle : str) : str :=
  setStyleProperty (js "font-size") fontSize currentStyle.

Definition onFontFamilyChange (fontFamily currentStyle : str) : str :=
  setStyleProperty (js "font-family") fontFamily currentStyle.

Definition onFontColorChange (color currentStyle : str) : str :=
  setStyleProperty (js "color") color currentStyle.

(** What [$updateToolbar] reads from the style of the first selected
    text node for one property: group 1 of the match when there is one,
    the default otherwise; an empty style leaves the state as it is. *)
Definition readStyleProperty (property default styleString previous : str)
  : str :=
  if truthy styleString then
    match find_value (property ++ js ":") styleString with
    | Some v => if truthy v then v else default
    | None => default
    end
  else previous.

Definition toolbarFontSize (styleString previous : str) : str :=
  readStyleProperty (js "font-size") (js "15px") styleString previous.

Definition toolbarFontFamily (styleString previous : str) : str :=
  readStyleProperty (js "font-family") (js "Arial, sans-serif")
                    styleString previous.

Definition toolbarFontColor (styleString previous : str) : str :=
  readStyleProperty (js "color") (js "#000000") styleString previous.

(** The pattern matches at the head of [u]: the literal is followed by a
    character other than the semicolon. *)
Definition hits (literal u : str) : Prop :=
  exists c r, u = literal ++ c :: r /\ c <> SEMICOLON.

(** The pattern matches at no position inside [b] when [u] follows. *)
Definition misses (literal b u : str) : Prop :=
  forall b1 b2, b = b1 ++ b2 -> b2 <> [] -> ~ hits literal (b2 ++ u).

(** A value as the toolbar offers them: not empty, not beginning with
    white space, and without semicolon or dollar sign. *)
Definition style_value (v : str) : Prop :=
  (exists c r, v = c :: r /\ is_space c = false) /\
  ~ In SEMICOLON v /\ ~ In DOLLAR v.

(* ****************************************************************** *)
(** * Properties *)
(* ****************************************************************** *)

(* ================================================================== *)
(** * Strings and regular expressions: basic facts *)
(* ================================================================== *)

Lemma str_eqb_eq (a b : str) : str_eqb a b = true <-> a = b.
Proof.
  unfold str_eqb. destruct (list_eq_dec N.eq_dec a b); split; congruence.
Qed.

Lemma str_eqb_refl (a : str) : str_eqb a a = true.
Proof. now apply str_eqb_eq. Qed.

Lemma truthy_false (s : str) : truthy s = false -> s = [].
Proof. destruct s; simpl; congruence. Qed.

Lemma truthy_true (s : str) : truthy s = true -> s <> [].
Proof. destruct s; simpl; congruence. Qed.

Lemma span_app cls s m r : span cls s = (m, r) -> s = m ++ r.
Proof.
  revert m r. induction s as [|c s IH]; simpl; intros m r H.
  - now inversion H.
  - destruct (cls c).
    + destruct (span cls s) as [m' r'] eqn:E. inversion H; subst.
      simpl. f_equal. now apply IH.
    + now inversion H.
Qed.

Lemma span_all cls s m r : span cls s = (m, r) -> forallb cls m = true.
Proof.
  revert m r. induction s as [|c s IH]; simpl; intros m r H.
  - now inversion H.
  - destruct (cls c) eqn:Ec.
    + destruct (span cls s) as [m' r'] eqn:E. inversion H; subst.
      simpl. rewrite Ec. simpl. eapply IH; eauto.
    + now inversion H.
Qed.

Lemma span_head cls c s : cls c = true -> exists m r, span cls (c :: s) = (c :: m, r).
Proof.
  intros H. simpl. rewrite H. destruct (span cls s) as [m r]. eauto.
Qed.

Lemma match_alt_sound a s m r :
  match_alt a s = Some (m, r) -> s = m ++ r /\ m <> [].
Proof.
  destruct a as [cls|cls]; simpl.
  - destruct (span cls s) as [m' r'] eqn:E.
    destruct m' as [|c m']; [discriminate|].
    intros H; inversion H; subst. split; [now apply (span_app cls)|discriminate].
  - destruct s as [|c s]; [discriminate|].
    destruct (cls c); [|discriminate].
    intros H; inversion H; subst. split; [reflexivity|discriminate].
Qed.

Lemma match_here_sound re s m r :
  match_here re s = Some (m, r) -> s = m ++ r /\ m <> [].
Proof.
  induction re as [|a re IH]; simpl; [discriminate|].
  destruct (match_alt a s) as [[m' r']|] eqn:E.
  - intros H; inversion H; subst. now apply (match_alt_sound a).
  - exact IH.
Qed.

Lemma exec_sound re s sk m r :
  exec re s = Some (sk, m, r) -> s = sk ++ m ++ r /\ m <> [].
Proof.
  revert sk m r. induction s as [|c s IH]; intros sk m r; simpl.
  - destruct (match_here re []) as [[m' r']|] eqn:E; [|discriminate].
    intros H; inversion H; subst. now apply match_here_sound in E.
  - destruct (match_here re (c :: s)) as [[m' r']|] eqn:E.
    + intros H; inversion H; subst. now apply match_here_sound in E.
    + destruct (exec re s) as [[[sk' m'] r']|] eqn:E'; [|discriminate].
      intros H; inversion H; subst.
      destruct (IH _ _ _ eq_refl) as [-> Hm]. now split.
Qed.

Lemma exec_rest_shorter re s sk m r :
  exec re s = Some (sk, m, r) -> (length r < length s)%nat.
Proof.
  intros H. apply exec_sound in H as [-> Hm].
  rewrite !length_app. destruct m; [congruence|simpl; lia].
Qed.

(* ================================================================== *)
(** * The word tokenizer partitions its input *)
(* ================================================================== *)

(** Every character belongs to one of the three classes of
    [splitPattern], so a match starts at the head of any non-empty text. *)
Lemma splitPattern_head c s :
  exists m r, match_here splitPattern (c :: s) = Some (m, r).
Proof.
  unfold splitPattern, match_here, match_alt.
  destruct (is_wordchar c) eqn:Ew.
  - destruct (span_head is_wordchar c s Ew) as (m & r & ->). eauto.
  - assert (Hs : span is_wordchar (c :: s) = ([], c :: s))
      by (simpl; now rewrite Ew).
    rewrite Hs. destruct (is_punct c) eqn:Ep; [eauto|].
    assert (Esp : is_space c = true).
    { unfold is_wordchar in Ew. rewrite Ep, orb_false_r in Ew.
      now apply negb_false_iff in Ew. }
    destruct (span_head is_space c s Esp) as (m & r & ->). eauto.
Qed.

Lemma exec_splitPattern_noskip s sk m r :
  exec splitPattern s = Some (sk, m, r) -> sk = [].
Proof.
  destruct s as [|c s].
  - simpl. discriminate.
  - destruct (splitPattern_head c s) as (m' & r' & E).
    cbn [exec]. rewrite E. now intros H; inversion H.
Qed.

Lemma splitWords_loop_concat fuel text :
  (length text < fuel)%nat -> concat (splitWords_loop fuel text) = text.
Proof.
  revert text. induction fuel as [|fuel IH]; intros text Hf; [lia|].
  cbn [splitWords_loop].
  destruct (exec splitPattern text) as [[[sk m] r]|] eqn:E.
  - pose proof (exec_splitPattern_noskip _ _ _ _ E) as ->.
    pose proof (exec_rest_shorter _ _ _ _ _ E) as Hlt.
    apply exec_sound in E as [-> _]. simpl.
    rewrite IH; [reflexivity|lia].
  - destruct text as [|c text]; [reflexivity|].
    simpl. now rewrite app_nil_r.
Qed.

Lemma splitIntoWords_concat_eq (t : str) : concat (splitIntoWords t) = t.
Proof.
  unfold splitIntoWords.
  destruct (truthy t) eqn:Et; cbn [negb].
  - destruct (only_whitespace t).
    + simpl. now rewrite app_nil_r.
    + apply splitWords_loop_concat. lia.
  - symmetry. now apply truthy_false.
Qed.

Lemma tiles_app pos ws1 mid ws2 stop :
  tiles pos ws1 mid -> tiles mid ws2 stop -> tiles pos (ws1 ++ ws2) stop.
Proof.
  revert pos. induction ws1 as [|w ws1 IH]; simpl; intros pos H1 H2.
  - now subst.
  - destruct H1 as (Hs & He & Ht). repeat split; auto.
Qed.

Lemma pushWords_spec pos chg words ws p :
  pushWords pos chg words = (ws, p) ->
  tiles pos ws p /\ map w_text ws = words /\
  p = pos + strlen (concat words) /\
  Forall (fun w => w_isChanged w = chg) ws.
Proof.
  revert pos ws p. induction words as [|w words IH]; simpl; intros pos ws p H.
  - inversion H; subst. unfold strlen. simpl. repeat split; auto; lia.
  - destruct (pushWords (pos + strlen w) chg words) as [ws' p'] eqn:E.
    inversion H; subst. destruct (IH _ _ _ E) as (Ht & Hm & Hp & Hf).
    simpl. repeat split; auto.
    + now rewrite Hm.
    + unfold strlen in *. rewrite length_app. lia.
Qed.

Lemma processContent_loop_spec pos diffs :
  tiles pos (processContent_loop pos diffs)
        (pos + strlen (concat (map snd diffs))) /\
  concat (map w_text (processContent_loop pos diffs)) = concat (map snd diffs).
Proof.
  revert pos. induction diffs as [|[op text] diffs IH]; intros pos; simpl.
  - unfold strlen. simpl. split; [lia|reflexivity].
  - destruct (pushWords pos (negb (op =? 0)) (splitIntoWords text))
      as [ws p] eqn:E.
    destruct (pushWords_spec _ _ _ _ _ E) as (Ht & Hm & Hp & _).
    destruct (IH p) as (IHt & IHc).
    rewrite splitIntoWords_concat_eq in Hp. split.
    + eapply tiles_app; [exact Ht|].
      replace (pos + strlen (text ++ concat (map snd diffs)))
        with (p + strlen (concat (map snd diffs))); [exact IHt|].
      unfold strlen in *. rewrite length_app. lia.
    + rewrite map_app, concat_app, Hm, IHc, splitIntoWords_concat_eq.
      reflexivity.
Qed.

(** C10. For every string [t] the fragments of [splitIntoWords t],
    concatenated in order, are exactly [t]; and the words that
    [processContentWithWords] builds from any diff list tile the
    concatenation of the diff texts contiguously from offset 0, each word
    spanning exactly its own text. *)
Theorem splitIntoWords_partitions :
  (forall t : str, concat (splitIntoWords t) = t) /\
  (forall (content : str) (diffs : list DiffOp),
      let ws := processContentWithWords content diffs in
      tiles 0 ws (strlen (concat (map snd diffs))) /\
      concat (map w_text ws) = concat (map snd diffs)).
Proof.
  split.
  - exact splitIntoWords_concat_eq.
  - intros content diffs. exact (processContent_loop_spec 0 diffs).
Qed.

(* ================================================================== *)
(** * The text diff engine and the two texts of its result *)
(* ================================================================== *)

Lemma kept_text_app drop ds1 ds2 :
  kept_text drop (ds1 ++ ds2) = kept_text drop ds1 ++ kept_text drop ds2.
Proof.
  unfold kept_text. now rewrite filter_app, map_app, concat_app.
Qed.

Lemma kept_text_cons drop d ds :
  kept_text drop (d :: ds) = kept_text drop [d] ++ kept_text drop ds.
Proof. exact (kept_text_app drop [d] ds). Qed.

Lemma kept_text_uniform drop op ds :
  Forall (fun d => fst d = op) ds ->
  kept_text drop ds = if op =? drop then [] else concat (map snd ds).
Proof.
  induction 1 as [|[o t] ds Ho _ IH].
  - now destruct (op =? drop).
  - rewrite kept_text_cons, IH. simpl in Ho. subst o.
    unfold kept_text. simpl. destruct (op =? drop); simpl; [reflexivity|].
    now rewrite app_nil_r.
Qed.

Lemma forceWords_loop_spec fuel op text :
  (length text < fuel)%nat ->
  Forall (fun d => fst d = op) (forceWords_loop fuel op text) /\
  concat (map snd (forceWords_loop fuel op text)) = text.
Proof.
  revert text. induction fuel as [|fuel IH]; intros text Hf; [lia|].
  cbn [forceWords_loop].
  destruct (exec wordPattern text) as [[[sk m] r]|] eqn:E.
  - pose proof (exec_rest_shorter _ _ _ _ _ E) as Hlt.
    apply exec_sound in E as [-> _].
    destruct (IH r ltac:(lia)) as [Hall Hcat].
    destruct sk as [|c sk]; simpl.
    + split; [constructor; auto|]. now rewrite Hcat.
    + split; [repeat constructor; auto|].
      now rewrite Hcat.
  - destruct text as [|c text]; simpl.
    + split; [constructor|reflexivity].
    + split; [repeat constructor|now rewrite app_nil_r].
Qed.

Lemma forceDiffByWords_one_text drop d :
  kept_text drop (forceDiffByWords_one d) = kept_text drop [d].
Proof.
  destruct d as [op text]. unfold forceDiffByWords_one.
  destruct (op =? 0); [reflexivity|].
  destruct (only_whitespace text); [reflexivity|].
  destruct (forceWords_loop_spec (S (length text)) op text ltac:(lia))
    as [Hall Hcat].
  rewrite (kept_text_uniform drop op _ Hall), Hcat.
  unfold kept_text. simpl. destruct (op =? drop); simpl; [reflexivity|].
  now rewrite app_nil_r.
Qed.

Lemma forceDiffByWords_text drop ds :
  kept_text drop (forceDiffByWords ds) = kept_text drop ds.
Proof.
  unfold forceDiffByWords. induction ds as [|d ds IH]; [reflexivity|].
  simpl. rewrite kept_text_app, IH, forceDiffByWords_one_text.
  symmetry. apply kept_text_cons.
Qed.

Lemma restoreSpaces_app a b :
  restoreSpaces (a ++ b) = restoreSpaces a ++ restoreSpaces b.
Proof. apply map_app. Qed.

Lemma kept_text_restore drop ds :
  kept_text drop (map (fun d : DiffOp => (fst d, restoreSpaces (snd d))) ds)
  = restoreSpaces (kept_text drop ds).
Proof.
  induction ds as [|[op t] ds IH]; [reflexivity|].
  cbn [map]. rewrite kept_text_cons, IH, (kept_text_cons drop (op, t) ds).
  rewrite restoreSpaces_app. f_equal.
  unfold kept_text. simpl. destruct (op =? drop); simpl; [reflexivity|].
  now rewrite !app_nil_r.
Qed.

(** The placeholder round trip sends every U+00A0 of the input to a
    space, and is the identity on the other characters. *)
Lemma restore_spaceSensitive (t : str) :
  restoreSpaces (spaceSensitiveText t) = restoreSpaces t.
Proof.
  unfold restoreSpaces, spaceSensitiveText. rewrite map_map.
  apply map_ext. intros c. unfold SPACE, NBSP.
  destruct (N.eqb_spec c 32) as [->|H32]; [reflexivity|].
  reflexivity.
Qed.

Lemma restoreSpaces_id (t : str) :
  ~ In NBSP t -> restoreSpaces t = t.
Proof.
  unfold restoreSpaces. induction t as [|c t IH]; intros H; [reflexivity|].
  simpl. rewrite IH by (intros ?; apply H; now right).
  destruct (N.eqb_spec c NBSP) as [->|_]; [|reflexivity].
  exfalso. apply H. now left.
Qed.

(** What [performDiff] rebuilds on each side: the input with every
    U+00A0 replaced by a space. *)
Lemma performDiff_texts dmp (L : DmpLaws dmp) A B ops :
  performDiff dmp A B = Ok ops ->
  old_text ops = restoreSpaces A /\ new_text ops = restoreSpaces B.
Proof.
  unfold performDiff, bind.
  destruct (diff_main dmp (spaceSensitiveText A) (spaceSensitiveText B))
    as [ds|] eqn:E; [|discriminate].
  intros H; inversion H; subst ops; clear H.
  destruct (diff_main_texts dmp L _ _ _ E) as [Ho Hn].
  destruct (cleanupEfficiency_texts dmp L
              (diff_cleanupSemantic dmp
                 (map (fun d : DiffOp => (fst d, restoreSpaces (snd d))) ds)))
    as [Ho1 Hn1].
  destruct (cleanupSemantic_texts dmp L
              (map (fun d : DiffOp => (fst d, restoreSpaces (snd d))) ds))
    as [Ho2 Hn2].
  unfold old_text, new_text in *.
  rewrite !forceDiffByWords_text, Ho1, Hn1, Ho2, Hn2.
  rewrite !kept_text_restore, Ho, Hn, !restore_spaceSensitive. auto.
Qed.

(** [performDiff] returns whenever the character diff does. *)
Lemma performDiff_returns dmp A B ds :
  diff_main dmp (spaceSensitiveText A) (spaceSensitiveText B) = Ok ds ->
  exists ops, performDiff dmp A B = Ok ops.
Proof. intros E. unfold performDiff. rewrite E. simpl. eauto. Qed.

(** For texts without U+00A0 the reconstruction is exact. *)
Lemma performDiff_reconstructs_without_nbsp dmp (L : DmpLaws dmp) A B ops :
  ~ In NBSP A -> ~ In NBSP B ->
  performDiff dmp A B = Ok ops ->
  old_text ops = A /\ new_text ops = B.
Proof.
  intros HA HB H. destruct (performDiff_texts dmp L A B ops H) as [-> ->].
  now rewrite !restoreSpaces_id.
Qed.

Lemma common_prefix_spec a b p ra rb :
  common_prefix a b = (p, ra, rb) -> a = p ++ ra /\ b = p ++ rb.
Proof.
  revert b p ra rb. induction a as [|x a IH]; intros b p ra rb; simpl.
  - intros H; inversion H; auto.
  - destruct b as [|y b]; [intros H; inversion H; auto|].
    destruct (N.eqb_spec x y) as [->|Hxy].
    + destruct (common_prefix a b) as [[p' ra'] rb'] eqn:E.
      intros H; inversion H; subst.
      destruct (IH _ _ _ _ E) as [-> ->]. auto.
    + intros H; inversion H; auto.
Qed.

Lemma common_prefix_same a : common_prefix a a = (a, [], []).
Proof.
  induction a as [|x a IH]; [reflexivity|].
  simpl. now rewrite N.eqb_refl, IH.
Qed.

Lemma simple_dmp_laws : DmpLaws simple_dmp.
Proof.
  constructor; simpl; auto.
  - intros a b ds. unfold simple_diff_main.
    destruct (common_prefix a b) as [[p ra] rb] eqn:E.
    apply common_prefix_spec in E as [-> ->].
    intros H; inversion H; subst ds; clear H.
    unfold old_text, new_text. rewrite !kept_text_app.
    destruct p, ra, rb; unfold kept_text; simpl; rewrite ?app_nil_r; auto.
  - intros a ds. unfold simple_diff_main. rewrite common_prefix_same.
    intros H; inversion H; subst ds.
    destruct a; simpl; repeat constructor.
Qed.

(** C1, at an input with a no-break space: whatever diff engine obeys the
    library laws, [performDiff] on the old text "a", U+00A0, "b" and the
    new text "a b" returns operations whose old-side concatenation is
    "a b" (the U+00A0 has become a space), which is not the old text. *)
Theorem performDiff_nbsp_not_reconstructed dmp (L : DmpLaws dmp) ops :
  performDiff dmp [97; NBSP; 98]%N (js "a b") = Ok ops ->
  old_text ops = js "a b" /\ old_text ops <> [97; NBSP; 98]%N.
Proof.
  intros H. destruct (performDiff_texts dmp L _ _ _ H) as [Ho _].
  rewrite Ho. split; [reflexivity|discriminate].
Qed.

Lemma performDiff_nbsp_not_reconstructed_witness :
  performDiff simple_dmp [97; NBSP; 98]%N (js "a b") = Ok [(0, js "a b")] /\
  old_text [(0, js "a b")] = js "a b" /\
  old_text [(0, js "a b")] <> [97; NBSP; 98]%N.
Proof.
  split; [reflexivity|].
  exact (performDiff_nbsp_not_reconstructed simple_dmp simple_dmp_laws
           [(0, js "a b")] eq_refl).
Defined.

(* ================================================================== *)
(** * Splitting a text node loses no character *)
(* ================================================================== *)

Lemma clamp_le len a b : a <= b -> (clamp len a <= clamp len b)%nat.
Proof. unfold clamp. lia. Qed.

Lemma clamp_bound len a : (clamp len a <= len)%nat.
Proof. unfold clamp. lia. Qed.

Lemma clamp_0 len : clamp len 0 = 0%nat.
Proof. unfold clamp. lia. Qed.

Lemma firstn_mid_skipn {A : Type} (l : list A) (i j : nat) :
  (i <= j)%nat ->
  firstn i l ++ firstn (j - i) (skipn i l) ++ skipn j l = l.
Proof.
  intros Hij.
  replace (skipn j l) with (skipn (j - i) (skipn i l)).
  - now rewrite firstn_skipn, firstn_skipn.
  - rewrite skipn_skipn. f_equal. lia.
Qed.

(** [s.substring(0, a) + s.substring(a, b) + s.substring(b)] is [s]
    whenever [a <= b]. *)
Lemma substring_three_parts (s : str) (a b : Z) :
  a <= b ->
  substring s 0 a ++ substring s a b ++ substring_from s b = s.
Proof.
  intros Hab. unfold substring, substring_from.
  pose proof (clamp_le (length s) a b Hab) as Hc.
  rewrite clamp_0.
  rewrite (Nat.min_l 0) by lia. rewrite (Nat.max_r 0) by lia.
  rewrite (Nat.min_l _ _ Hc), (Nat.max_r _ _ Hc).
  rewrite Nat.sub_0_r. cbn [skipn].
  now apply firstn_mid_skipn.
Qed.

Lemma nodes_text_app (a b : list node) :
  nodes_text (a ++ b) = nodes_text a ++ nodes_text b.
Proof. apply flat_map_app. Qed.

Lemma optional_text (t : str) :
  nodes_text (if truthy t then [TextNode t] else []) = t.
Proof.
  destruct t; [reflexivity|]. unfold nodes_text. simpl. now rewrite app_nil_r.
Qed.

Lemma markerSpan_text ct parent h : textContent (markerSpan ct parent h) = h.
Proof. unfold markerSpan. cbn [textContent]. apply optional_text. Qed.

Lemma wordFragment_text ct parent content ls le :
  ls <= le ->
  nodes_text (wordFragment ct parent content ls le) = content.
Proof.
  intros H. unfold wordFragment.
  rewrite !nodes_text_app, !optional_text.
  unfold nodes_text at 1. cbn [flat_map]. rewrite markerSpan_text, app_nil_r.
  now apply substring_three_parts.
Qed.

Lemma localRange_some s e len gs ge ls le :
  localRange s e len gs ge = Some (ls, le) ->
  0 <= ls /\ ls < le /\ le <= len.
Proof.
  unfold localRange.
  destruct ((e <=? gs) || (s >=? ge)); [discriminate|].
  destruct (Z.ltb_spec (Z.max 0 (gs - s)) (Z.min len (ge - s))); [|discriminate].
  intros E; inversion E; subst. lia.
Qed.

Lemma set_nth_length {A : Type} k (v : A) l : length (set_nth k v l) = length l.
Proof.
  revert k. induction l as [|x l IH]; intros [|k]; simpl; auto.
Qed.

Lemma nth_error_set_nth_eq {A : Type} k (v : A) l :
  (k < length l)%nat -> nth_error (set_nth k v l) k = Some v.
Proof.
  revert k. induction l as [|x l IH]; intros [|k]; simpl; try lia; auto.
  intros H. apply IH. lia.
Qed.

Lemma nth_error_set_nth_neq {A : Type} k j (v : A) l :
  j <> k -> nth_error (set_nth k v l) j = nth_error l j.
Proof.
  revert k j. induction l as [|x l IH]; intros [|k] [|j]; simpl; auto;
    congruence.
Qed.

Lemma nth_error_set_nth {A : Type} k j (v : A) l x :
  nth_error (set_nth k v l) j = Some x ->
  (j = k /\ x = v) \/ nth_error l j = Some x.
Proof.
  destruct (Nat.eq_dec j k) as [->|Hjk].
  - destruct (Nat.lt_ge_cases k (length l)) as [Hlt|Hge].
    + rewrite nth_error_set_nth_eq by assumption.
      intros E; inversion E; auto.
    + intros E. assert (nth_error (set_nth k v l) k = None) as Hn.
      { apply nth_error_None. now rewrite set_nth_length. }
      congruence.
  - rewrite nth_error_set_nth_neq by assumption. auto.
Qed.

(** The entries of [affectedNodes] name text nodes of the list, with a
    non-empty range inside them. *)
Lemma affectedNodes_sound rs g k0 textNodes k ts ls le :
  In (k, ts, ls, le) (affectedNodes rs g k0 textNodes) ->
  nth_error textNodes (k - k0) = Some ts /\ (k0 <= k)%nat /\
  localRange (ts_start ts) (ts_end ts) (strlen (ts_text ts))
             (g_start g) (g_end g) = Some (ls, le).
Proof.
  revert k0. induction textNodes as [|t textNodes IH]; intros k0; simpl.
  - tauto.
  - assert (Hrest : In (k, ts, ls, le) (affectedNodes rs g (S k0) textNodes) ->
                    nth_error (t :: textNodes) (k - k0) = Some ts /\
                    (k0 <= k)%nat /\
                    localRange (ts_start ts) (ts_end ts) (strlen (ts_text ts))
                               (g_start g) (g_end g) = Some (ls, le)).
    { intros Hin. destruct (IH _ Hin) as (Hn & Hk & Hr).
      repeat split; [|lia|exact Hr].
      replace (k - k0)%nat with (S (k - S k0)) by lia. exact Hn. }
    destruct (processed_node rs k0); [exact Hrest|].
    destruct (localRange (ts_start t) (ts_end t) (strlen (ts_text t))
                (g_start g) (g_end g)) as [[ls' le']|] eqn:E; [|exact Hrest].
    intros [Hin|Hin]; [|now apply Hrest].
    inversion Hin; subst. rewrite Nat.sub_diag. simpl. auto.
Qed.

Lemma applyAffected_faithful ct textNodes affected rs :
  (forall k ts ls le, In (k, ts, ls, le) affected ->
                      nth_error textNodes k = Some ts /\ ls <= le) ->
  fragments_faithful textNodes rs ->
  fragments_faithful textNodes (applyAffected ct affected rs).
Proof.
  revert rs. induction affected as [|[[[k ts] ls] le] affected IH];
    intros rs Haff Hrs; simpl; [exact Hrs|].
  assert (Haff' : forall k ts ls le, In (k, ts, ls, le) affected ->
                    nth_error textNodes k = Some ts /\ ls <= le)
    by (intros; apply Haff; now right).
  destruct (str_eqb (trim (substring (ts_text ts) ls le)) []).
  - now apply IH.
  - apply IH; [exact Haff'|].
    destruct (Haff k ts ls le (or_introl eq_refl)) as [Hk Hle].
    destruct Hrs as [Hlen Hfr]. split.
    + now rewrite set_nth_length.
    + intros j fragment Hj.
      apply nth_error_set_nth in Hj as [[-> Hv]|Hj].
      * inversion Hv; subst. exists ts. split; [exact Hk|].
        now apply wordFragment_text.
      * now apply Hfr.
Qed.

Lemma applyGroup_faithful ct textNodes rs g :
  fragments_faithful textNodes rs ->
  fragments_faithful textNodes (applyGroup ct textNodes rs g).
Proof.
  intros Hrs. unfold applyGroup. destruct (negb (g_isChanged g)); [exact Hrs|].
  apply applyAffected_faithful; [|exact Hrs].
  intros k ts ls le Hin.
  destruct (affectedNodes_sound _ _ _ _ _ _ _ _ Hin) as (Hn & _ & Hr).
  rewrite Nat.sub_0_r in Hn. split; [exact Hn|].
  apply localRange_some in Hr. lia.
Qed.

Lemma applyWordHighlighting_faithful textNodes words ct :
  fragments_faithful textNodes (applyWordHighlighting textNodes words ct).
Proof.
  unfold applyWordHighlighting.
  assert (H0 : fragments_faithful textNodes (repeat None (length textNodes))).
  { split; [apply repeat_length|].
    intros k fragment Hk. apply nth_error_In, repeat_spec in Hk. discriminate. }
  revert H0. generalize (repeat (@None (list node)) (length textNodes)).
  induction (groupWords None words) as [|g gs IH]; intros rs Hrs; simpl.
  - exact Hrs.
  - apply IH. now apply applyGroup_faithful.
Qed.

(* ================================================================== *)
(** * White space inside a changed group is not wrapped *)
(* ================================================================== *)

Lemma drop_space_nil s : drop_space s = [] <-> forallb is_space s = true.
Proof.
  induction s as [|c s IH]; simpl; [tauto|].
  destruct (is_space c); simpl; [exact IH|].
  split; discriminate.
Qed.

Lemma drop_space_head s c r : drop_space s = c :: r -> is_space c = false.
Proof.
  induction s as [|x s IH]; simpl; [discriminate|].
  destruct (is_space x) eqn:E; [exact IH|].
  intros H; inversion H; subst. exact E.
Qed.

Lemma forallb_rev {A : Type} (f : A -> bool) l :
  forallb f (rev l) = forallb f l.
Proof.
  induction l as [|x l IH]; [reflexivity|].
  simpl. rewrite forallb_app, IH. simpl. rewrite andb_true_r. apply andb_comm.
Qed.

(** [s.trim() === ""] exactly when [s] holds white space only. *)
Lemma trim_empty_iff (s : str) : trim s = [] <-> forallb is_space s = true.
Proof.
  unfold trim. split.
  - intros H. apply (f_equal (@rev char)) in H. rewrite rev_involutive in H.
    simpl in H. apply drop_space_nil in H. rewrite forallb_rev in H.
    destruct (drop_space s) as [|c r] eqn:E.
    + now apply drop_space_nil.
    + apply drop_space_head in E. simpl in H. rewrite E in H. discriminate.
  - intros H. apply drop_space_nil in H. now rewrite H.
Qed.

Lemma applyAffected_untouched ct affected rs k :
  (forall ts ls le, In (k, ts, ls, le) affected ->
                    forallb is_space (substring (ts_text ts) ls le) = true) ->
  nth_error (applyAffected ct affected rs) k = nth_error rs k.
Proof.
  revert rs. induction affected as [|[[[j ts] ls] le] affected IH];
    intros rs H; simpl; [reflexivity|].
  assert (H' : forall ts ls le, In (k, ts, ls, le) affected ->
                 forallb is_space (substring (ts_text ts) ls le) = true)
    by (intros; eapply H; right; eauto).
  destruct (str_eqb (trim (substring (ts_text ts) ls le)) []) eqn:E.
  - now apply IH.
  - rewrite IH by exact H'.
    destruct (Nat.eq_dec k j) as [->|Hkj].
    + exfalso. specialize (H ts ls le (or_introl eq_refl)).
      apply trim_empty_iff in H. rewrite H in E. now rewrite str_eqb_refl in E.
    + now apply nth_error_set_nth_neq.
Qed.

(** C7. In [applyWordHighlighting], when the part of a text node that a
    word group reaches ([localStart], [localEnd]) holds white space only,
    the group produces no marker for that text node: its replacement
    state after the group is what it was before (no span is inserted and
    the text node is left as it stood). *)
Theorem whitespace_only_group_not_wrapped
  (changeType : ChangeType) (textNodes : list TextSpan) (rs : Replacements)
  (g : Group) (k : nat) (ts : TextSpan) (localStart localEnd : Z) :
  nth_error textNodes k = Some ts ->
  localRange (ts_start ts) (ts_end ts) (strlen (ts_text ts))
             (g_start g) (g_end g) = Some (localStart, localEnd) ->
  forallb is_space (substring (ts_text ts) localStart localEnd) = true ->
  nth_error (applyGroup changeType textNodes rs g) k = nth_error rs k.
Proof.
  intros Hk Hr Hws. unfold applyGroup.
  destruct (negb (g_isChanged g)); [reflexivity|].
  apply applyAffected_untouched. intros ts' ls le Hin.
  destruct (affectedNodes_sound _ _ _ _ _ _ _ _ Hin) as (Hn & _ & Hr').
  rewrite Nat.sub_0_r in Hn. rewrite Hk in Hn. inversion Hn; subst ts'.
  rewrite Hr in Hr'. inversion Hr'; subst. exact Hws.
Qed.

(* ================================================================== *)
(** * The raw splice keeps the text of the container *)
(* ================================================================== *)

Lemma changeFragment_text type originalText ls le :
  ls <= le -> nodes_text (changeFragment type originalText ls le) = originalText.
Proof.
  intros H. unfold changeFragment.
  rewrite !nodes_text_app, !optional_text.
  unfold nodes_text at 1. cbn [flat_map createSpan textContent].
  fold (nodes_text (setTextContent (substring originalText ls le))).
  unfold setTextContent. rewrite optional_text, app_nil_r.
  now apply substring_three_parts.
Qed.

Lemma spliceAt_text path fragment n :
  (forall t, nodes_text (fragment t) = t) ->
  nodes_text (spliceAt path fragment n) = textContent n.
Proof.
  intros Hf. revert path.
  induction n as [data|e cs IH|] using node_tree_ind; intros path.
  - destruct path; simpl; [apply Hf|]. now rewrite app_nil_r.
  - destruct path as [|index path].
    + unfold nodes_text. simpl. now rewrite app_nil_r.
    + cbn [spliceAt]. unfold nodes_text at 1. cbn [flat_map textContent].
      rewrite app_nil_r. revert index.
      induction IH as [|c cs Hc _ IHcs]; intros index; [reflexivity|].
      destruct index as [|index].
      * fold (nodes_text (spliceAt path fragment c ++ cs)).
        rewrite nodes_text_app, Hc. reflexivity.
      * cbn [flat_map]. now rewrite IHcs.
  - destruct path; unfold nodes_text; reflexivity.
Qed.

Lemma spliceRoot_text path fragment root :
  (forall t, nodes_text (fragment t) = t) ->
  textContent (spliceRoot path fragment root) = textContent root.
Proof.
  intros Hf. unfold spliceRoot. destruct path as [|i path]; [reflexivity|].
  pose proof (spliceAt_text (i :: path) fragment root Hf) as H.
  destruct (spliceAt (i :: path) fragment root) as [|n [|n' l]]; auto.
  unfold nodes_text in H. simpl in H. now rewrite app_nil_r in H.
Qed.

Lemma affectedByChange_range change textNodes node ls le :
  In (node, ls, le) (affectedByChange change textNodes) ->
  0 <= ls /\ ls < le /\ le <= strlen (tn_text node).
Proof.
  induction textNodes as [|t textNodes IH]; simpl; [tauto|].
  destruct (localRange (tn_startPos t) (tn_endPos t) (strlen (tn_text t))
              (ch_start change) (ch_end change)) as [[ls' le']|] eqn:E;
    [|exact IH].
  intros [Hin|Hin]; [|now apply IH].
  inversion Hin; subst. now apply localRange_some in E.
Qed.

Lemma applyChange_text textNodes clone change :
  textContent (applyChange textNodes clone change) = textContent clone.
Proof.
  unfold applyChange.
  pose proof (affectedByChange_range change textNodes) as Hr.
  revert clone Hr.
  induction (affectedByChange change textNodes) as [|[[node ls] le] l IH];
    intros clone Hr; simpl; [reflexivity|].
  rewrite IH by (intros; eapply Hr; right; eauto).
  apply spliceRoot_text. intros t. apply changeFragment_text.
  specialize (Hr node ls le (or_introl eq_refl)). lia.
Qed.

Lemma applyTextNodeChanges_text container textNodes changes :
  textContent (applyTextNodeChanges container textNodes changes)
  = textContent container.
Proof.
  unfold applyTextNodeChanges. destruct changes as [|c changes]; [reflexivity|].
  generalize (sortChanges (c :: changes)). intros l. revert container.
  induction l as [|d l IH]; intros container; simpl; [reflexivity|].
  now rewrite IH, applyChange_text.
Qed.

Lemma textSpans_texts parent n pos :
  map ts_text (fst (textSpans parent n pos)) = textNodesOf n.
Proof.
  revert parent pos.
  induction n as [data|e cs IH|] using node_tree_ind; intros parent pos;
    [reflexivity| |reflexivity].
  cbn [textSpans textNodesOf]. revert pos.
  induction IH as [|c cs Hc _ IHcs]; intros pos; [reflexivity|].
  specialize (Hc e pos).
  destruct (textSpans e c pos) as [l1 p1].
  specialize (IHcs p1).
  destruct ((fix each (cs0 : list node) (position : Z) {struct cs0} :
               list TextSpan * Z :=
               match cs0 with
               | [] => ([], position)
               | c0 :: cs' =>
                   let (l1, p1) := textSpans e c0 position in
                   let (l2, p2) := each cs' p1 in (l1 ++ l2, p2)
               end) cs p1) as [l2 p2].
  cbn [fst flat_map] in *. now rewrite map_app, Hc, IHcs.
Qed.

(** Replacing text nodes by fragments that spell them keeps the text of
    the subtree, and uses up one replacement per text node. *)
Lemma replaceTextNodes_text n :
  forall rs,
    (forall k fragment t,
        nth_error rs k = Some (Some fragment) ->
        nth_error (textNodesOf n) k = Some t ->
        nodes_text fragment = t) ->
    nodes_text (fst (replaceTextNodes n rs)) = textContent n /\
    snd (replaceTextNodes n rs) = skipn (length (textNodesOf n)) rs.
Proof.
  induction n as [data|e cs IH|] using node_tree_ind; intros rs H.
  - destruct rs as [|[fragment|] rs]; simpl.
    + split; [unfold nodes_text; simpl; apply app_nil_r|reflexivity].
    + split; [|reflexivity]. now apply (H 0%nat fragment data).
    + split; [unfold nodes_text; simpl; apply app_nil_r|reflexivity].
  - cbn [replaceTextNodes textNodesOf textContent].
    assert (Hcs :
      nodes_text (fst ((fix each (cs0 : list node) (rs0 : Replacements)
                          {struct cs0} : list node * Replacements :=
                          match cs0 with
                          | [] => ([], rs0)
                          | c :: cs1 =>
                              let (l1, rs1) := replaceTextNodes c rs0 in
                              let (l2, rs2) := each cs1 rs1 in (l1 ++ l2, rs2)
                          end) cs rs)) = flat_map textContent cs /\
      snd ((fix each (cs0 : list node) (rs0 : Replacements)
              {struct cs0} : list node * Replacements :=
              match cs0 with
              | [] => ([], rs0)
              | c :: cs1 =>
                  let (l1, rs1) := replaceTextNodes c rs0 in
                  let (l2, rs2) := each cs1 rs1 in (l1 ++ l2, rs2)
              end) cs rs) = skipn (length (flat_map textNodesOf cs)) rs).
    { cbn [textNodesOf] in H. revert rs H.
      induction IH as [|c cs Hc _ IHcs]; intros rs H; [split; reflexivity|].
      cbn [flat_map] in H.
      destruct (Hc rs) as [Ht Hr].
      { intros k fragment t Hk Ht. apply (H k fragment t Hk).
        rewrite nth_error_app1; [exact Ht|].
        apply nth_error_Some. congruence. }
      destruct (replaceTextNodes c rs) as [l1 rs1]. cbn [fst snd] in Ht, Hr.
      destruct (IHcs rs1) as [Ht' Hr'].
      { intros k fragment t Hk Hkt. subst rs1.
        rewrite nth_error_skipn in Hk.
        apply (H _ fragment t Hk).
        rewrite nth_error_app2 by lia.
        now replace (length (textNodesOf c) + k - length (textNodesOf c))%nat
          with k by lia. }
      destruct ((fix each (cs0 : list node) (rs0 : Replacements)
                   {struct cs0} : list node * Replacements :=
                   match cs0 with
                   | [] => ([], rs0)
                   | c0 :: cs1 =>
                       let (l1, rs2) := replaceTextNodes c0 rs0 in
                       let (l2, rs3) := each cs1 rs2 in (l1 ++ l2, rs3)
                   end) cs rs1) as [l2 rs2].
      cbn [fst snd flat_map] in *. split.
      - now rewrite nodes_text_app, Ht, Ht'.
      - rewrite Hr', Hr, skipn_skipn, length_app. f_equal. lia. }
    destruct ((fix each (cs0 : list node) (rs0 : Replacements)
                 {struct cs0} : list node * Replacements :=
                 match cs0 with
                 | [] => ([], rs0)
                 | c :: cs1 =>
                     let (l1, rs1) := replaceTextNodes c rs0 in
                     let (l2, rs2) := each cs1 rs1 in (l1 ++ l2, rs2)
                 end) cs rs) as [cs' rs'].
    cbn [fst snd] in *. destruct Hcs as [Ht Hr]. split; [|exact Hr].
    unfold nodes_text. cbn [flat_map textContent]. rewrite app_nil_r. exact Ht.
  - split; reflexivity.
Qed.

(** One side of [markTextDifferences] keeps the text of the element. *)
Lemma highlightSide_text changeType drop diffs e cs :
  textContent (highlightSide changeType drop diffs e cs)
  = textContent (ElemNode e cs).
Proof.
  unfold highlightSide.
  set (textNodes := extractTextNodesWithPositions e cs).
  set (rs := applyWordHighlighting textNodes _ changeType).
  destruct (replaceTextNodes_text (ElemNode e cs) rs) as [Ht _].
  { intros k fragment t Hk Hkt.
    destruct (applyWordHighlighting_faithful textNodes
                (processContentWithWords (textContent (ElemNode e cs))
                   (filter (fun d : DiffOp => negb (fst d =? drop)) diffs))
                changeType) as [_ Hf].
    destruct (Hf k fragment Hk) as (ts & Hts & Htext).
    rewrite Htext.
    rewrite <- (textSpans_texts e (ElemNode e cs) 0) in Hkt.
    fold (extractTextNodesWithPositions e cs) in Hkt. fold textNodes in Hkt.
    rewrite nth_error_map, Hts in Hkt. simpl in Hkt. congruence. }
  destruct (fst (replaceTextNodes (ElemNode e cs) rs)) as [|n [|n' l]];
    try reflexivity.
  unfold nodes_text in Ht. simpl in Ht. now rewrite app_nil_r in Ht.
Qed.

(** C5. Whenever the highlight application splits a text node, the parts
    it emits (text before, marked middle, text after) spell the content
    of that text node, character for character and so with the same
    length.  In [applyWordHighlighting]: every fragment that replaces a
    text node has the text of that node, and the element highlighted by
    [markTextDifferences] keeps its text.  In [applyTextNodeChanges]: for
    every affected node and local range that the function computes, the
    nodes put in place of the target text node have the target's text,
    whatever it is, and the container keeps its text. *)
Theorem split_parts_spell_original :
  (forall textNodes words changeType k fragment,
      nth_error (applyWordHighlighting textNodes words changeType) k
        = Some (Some fragment) ->
      exists ts, nth_error textNodes k = Some ts /\
                 nodes_text fragment = ts_text ts /\
                 length (nodes_text fragment) = length (ts_text ts)) /\
  (forall change textNodes node localStart localEnd originalText,
      In (node, localStart, localEnd) (affectedByChange change textNodes) ->
      nodes_text (changeFragment (ch_type change) originalText
                                 localStart localEnd) = originalText) /\
  (forall changeType drop diffs e cs,
      textContent (highlightSide changeType drop diffs e cs)
      = textContent (ElemNode e cs)) /\
  (forall container textNodes changes,
      textContent (applyTextNodeChanges container textNodes changes)
      = textContent container).
Proof.
  split; [|split; [|split]].
  - intros textNodes words ct k fragment H.
    destruct (applyWordHighlighting_faithful textNodes words ct) as [_ Hf].
    destruct (Hf k fragment H) as (ts & Hts & Htext).
    exists ts. repeat split; auto. now rewrite Htext.
  - intros change textNodes node ls le originalText Hin.
    apply changeFragment_text.
    apply affectedByChange_range in Hin. lia.
  - exact highlightSide_text.
  - exact applyTextNodeChanges_text.
Qed.

(* ================================================================== *)
(** * Step 2.2 of the aligner: when a pair is highlighted *)
(* ================================================================== *)




Lemma path_eqb_eq p q : path_eqb p q = true <-> p = q.
Proof.
  unfold path_eqb. destruct (list_eq_dec Nat.eq_dec p q); split; congruence.
Qed.

Lemma path_eqb_refl p : path_eqb p p = true.
Proof. now apply path_eqb_eq. Qed.

Lemma getRecord_some nm p r :
  getRecord nm p = Some r -> In r nm /\ nr_path r = p.
Proof.
  unfold getRecord. intros H. apply find_some in H as [Hin Hp].
  split; [exact Hin|]. now apply path_eqb_eq.
Qed.

Lemma getRecord_exists nm p :
  In p (map nr_path nm) -> exists r, getRecord nm p = Some r.
Proof.
  unfold getRecord. induction nm as [|x nm IH]; simpl; [tauto|].
  intros [Hx|Hin].
  - subst p. rewrite path_eqb_refl. eauto.
  - destruct (path_eqb (nr_path x) p); eauto.
Qed.

Lemma getRecord_markAsHighlighted_same nm p r :
  getRecord nm p = Some r ->
  getRecord (markAsHighlighted nm p) p = Some (setHighlighted r).
Proof.
  unfold getRecord, markAsHighlighted.
  induction nm as [|x nm IH]; simpl; [discriminate|].
  destruct (path_eqb (nr_path x) p) eqn:E.
  - intros H; inversion H; subst. simpl. now rewrite E.
  - simpl. rewrite E. exact IH.
Qed.

Lemma getRecord_markAsHighlighted nm p q r :
  getRecord nm q = Some r ->
  exists r', getRecord (markAsHighlighted nm p) q = Some r' /\
             nr_path r' = nr_path r /\ nr_parent r' = nr_parent r /\
             (nr_highlighted r = true -> nr_highlighted r' = true) /\
             (nr_highlighted r' = true -> nr_highlighted r = true \/ q = p).
Proof.
  unfold getRecord, markAsHighlighted.
  induction nm as [|x nm IH]; simpl; [discriminate|].
  destruct (path_eqb (nr_path x) q) eqn:Eq.
  - intros H; inversion H; subst x; clear H.
    destruct (path_eqb (nr_path r) p) eqn:Ep; simpl; rewrite Eq.
    + exists (setHighlighted r). repeat split; auto.
      intros _. right. apply path_eqb_eq in Eq, Ep. congruence.
    + exists r. repeat split; auto.
  - intros H. destruct (path_eqb (nr_path x) p); simpl; rewrite Eq; auto.
Qed.


(* ================================================================== *)
(** * Node maps: shape, order and ancestors *)
(* ================================================================== *)

Lemma processNode_children e cs path depth parent :
  processNode (ElemNode e cs) path depth parent
  = {| nr_signature := signatureOf e cs;
       nr_textContent := textContent (ElemNode e cs);
       nr_path := path; nr_depth := depth;
       nr_highlighted := false; nr_parent := parent |}
    :: processChildren cs 0 path (S depth).
Proof.
  cbn [processNode]. f_equal. generalize 0%nat.
  induction cs as [|c cs IH]; intros index; [reflexivity|].
  cbn [processChildren]. destruct c; try apply IH.
  f_equal. apply IH.
Qed.

Lemma removelast_snoc {A : Type} (l : list A) (x : A) :
  removelast (l ++ [x]) = l.
Proof. rewrite removelast_app by discriminate. simpl. apply app_nil_r. Qed.

(** The entries made for an element at [path] and for what is under it:
    all are well formed, and the parent of each is [path]'s own parent
    (for the element itself) or a path of the same list. *)
Lemma processNode_wf n :
  forall path depth parent,
    path <> [] -> parent = removelast path -> length path = S depth ->
    Forall wf_entry (processNode n path depth parent) /\
    (forall r, In r (processNode n path depth parent) ->
               nr_path r = path \/
               In (nr_parent r) (map nr_path (processNode n path depth parent))).
Proof.
  induction n as [data|e cs IH|] using node_tree_ind;
    intros path depth parent Hne Hpar Hlen;
    [split; [constructor|intros r []] | | split; [constructor|intros r []]].
  rewrite processNode_children.
  assert (Hcs : forall index,
             Forall wf_entry (processChildren cs index path (S depth)) /\
             (forall r, In r (processChildren cs index path (S depth)) ->
                nr_parent r = path \/
                In (nr_parent r)
                   (map nr_path (processChildren cs index path (S depth))))).
  { induction IH as [|c cs Hc _ IHcs]; intros index.
    - split; [constructor|intros r []].
    - cbn [processChildren]. destruct c as [d|e' cs'|]; try apply IHcs.
      destruct (Hc (path ++ [index]) (S depth) path) as [Hwf Hcl].
      + now destruct path.
      + symmetry. apply removelast_snoc.
      + rewrite length_app. simpl. lia.
      + destruct (IHcs (S index)) as [Hwf' Hcl']. split.
        * apply Forall_app. now split.
        * intros r Hin. rewrite map_app. apply in_app_or in Hin as [Hin|Hin].
          -- destruct (Hcl r Hin) as [Hp|Hp].
             ++ left. destruct (proj1 (Forall_forall _ _) Hwf r Hin)
                  as (_ & Hpr & _).
                rewrite Hpr, Hp. apply removelast_snoc.
             ++ right. apply in_or_app. now left.
          -- destruct (Hcl' r Hin) as [Hp|Hp]; [now left|].
             right. apply in_or_app. now right. }
  destruct (Hcs 0%nat) as [Hwf Hcl]. split.
  - constructor; [|exact Hwf]. repeat split; assumption.
  - intros r [Hr|Hin].
    + left. now subst r.
    + right. destruct (Hcl r Hin) as [Hp|Hp].
      * left. simpl. congruence.
      * right. exact Hp.
Qed.

Lemma processChildren_wf cs index :
  Forall wf_entry (processChildren cs index [] 0) /\
  (forall r, In r (processChildren cs index [] 0) ->
             nr_parent r = [] \/
             In (nr_parent r) (map nr_path (processChildren cs index [] 0))).
Proof.
  revert index. induction cs as [|c cs IH]; intros index.
  - split; [constructor|intros r []].
  - cbn [processChildren]. destruct c as [d|e' cs'|]; try apply IH.
    destruct (processNode_wf (ElemNode e' cs') ([] ++ [index]) 0 [])
      as [Hwf Hcl]; [discriminate|reflexivity|reflexivity|].
    destruct (IH (S index)) as [Hwf' Hcl']. split.
    + apply Forall_app. now split.
    + intros r Hin. rewrite map_app. apply in_app_or in Hin as [Hin|Hin].
      * destruct (Hcl r Hin) as [Hp|Hp].
        -- left. destruct (proj1 (Forall_forall _ _) Hwf r Hin)
             as (_ & Hpr & _).
           rewrite Hpr, Hp. reflexivity.
        -- right. apply in_or_app. now left.
      * destruct (Hcl' r Hin) as [Hp|Hp]; [now left|].
        right. apply in_or_app. now right.
Qed.

Lemma createNodeMap_wf container : wf_map (createNodeMap container).
Proof. exact (processChildren_wf (childNodesOf container) 0). Qed.

Lemma skeleton_markAsHighlighted nm p :
  map skeleton (markAsHighlighted nm p) = map skeleton nm.
Proof.
  unfold markAsHighlighted. rewrite map_map. apply map_ext.
  intros r. now destruct (path_eqb (nr_path r) p).
Qed.

Lemma skeleton_paths nm nm0 :
  map skeleton nm = map skeleton nm0 -> map nr_path nm = map nr_path nm0.
Proof.
  intros H.
  assert (E : forall l, map nr_path l = map (fun t => fst (fst t)) (map skeleton l))
    by (intros l; rewrite map_map; reflexivity).
  now rewrite !E, H.
Qed.

Lemma skeleton_in nm nm0 r :
  map skeleton nm = map skeleton nm0 -> In r nm ->
  exists r0, In r0 nm0 /\ skeleton r0 = skeleton r.
Proof.
  intros H Hin. apply (in_map skeleton) in Hin. rewrite H in Hin.
  apply in_map_iff in Hin as (r0 & Hs & Hin0). eauto.
Qed.

Lemma wf_map_skeleton nm nm0 :
  map skeleton nm = map skeleton nm0 -> wf_map nm0 -> wf_map nm.
Proof.
  intros H [Hwf Hcl]. split.
  - apply Forall_forall. intros r Hin.
    destruct (skeleton_in _ _ _ H Hin) as (r0 & Hin0 & Hs).
    pose proof (proj1 (Forall_forall _ _) Hwf r0 Hin0) as Hw.
    unfold skeleton in Hs. inversion Hs as [[Hp Hpar Hd]].
    unfold wf_entry in *. now rewrite <- Hp, <- Hpar, <- Hd.
  - intros r Hin. rewrite (skeleton_paths _ _ H).
    destruct (skeleton_in _ _ _ H Hin) as (r0 & Hin0 & Hs).
    unfold skeleton in Hs. inversion Hs as [[Hp Hpar Hd]].
    rewrite <- ?Hpar. now apply Hcl.
Qed.

Lemma is_strict_prefix_spec p q :
  is_strict_prefix p q = true <-> exists x s, q = p ++ x :: s.
Proof.
  revert q. induction p as [|a p IH]; intros [|b q]; simpl.
  - split; [discriminate|]. intros (x & s & H). discriminate.
  - split; [eauto|reflexivity].
  - split; [discriminate|]. intros (x & s & H). discriminate.
  - rewrite andb_true_iff, Nat.eqb_eq, IH. split.
    + intros (-> & x & s & ->). eauto.
    + intros (x & s & H). inversion H; subst. eauto.
Qed.

Lemma is_strict_prefix_length p q :
  is_strict_prefix p q = true -> (length p < length q)%nat.
Proof.
  intros H. apply is_strict_prefix_spec in H as (x & s & ->).
  rewrite length_app. simpl. lia.
Qed.

(** The loop finds a highlighted entry at [p] from any path that
    continues [p] and whose chain of parents stays inside the map. *)
Lemma ancestorLoop_finds nm p rp :
  wf_map nm -> getRecord nm p = Some rp -> nr_highlighted rp = true ->
  forall fuel s,
    (length s < fuel)%nat ->
    (s = [] \/ In (p ++ s) (map nr_path nm)) ->
    ancestorLoop fuel nm (Some (p ++ s)) = true.
Proof.
  intros [Hwf Hcl] Hp Hhl. induction fuel as [|fuel IH]; intros s Hf Hs; [lia|].
  cbn [ancestorLoop].
  destruct Hs as [->|Hin].
  - rewrite app_nil_r, Hp, Hhl. reflexivity.
  - destruct (getRecord_exists _ _ Hin) as (rc & Hrc). rewrite Hrc.
    destruct (nr_highlighted rc) eqn:Ehl; [reflexivity|].
    destruct (getRecord_some _ _ _ Hrc) as [Hinrc Hpath].
    destruct (proj1 (Forall_forall _ _) Hwf rc Hinrc) as (_ & Hpar & _).
    destruct s as [|x s].
    + rewrite app_nil_r in Hrc. congruence.
    + assert (E : nr_parent rc = p ++ removelast (x :: s)).
      { rewrite Hpar, Hpath. now apply removelast_app. }
      rewrite E. apply IH.
      * assert (length (removelast (x :: s)) < length (x :: s))%nat.
        { clear. revert x. induction s as [|y s IH]; intros x; simpl; [lia|].
          specialize (IH y). simpl in IH. lia. }
        lia.
      * destruct (Hcl rc Hinrc) as [Hnil|Hin'].
        -- left. rewrite E in Hnil. now apply app_eq_nil in Hnil as [_ ?].
        -- right. now rewrite <- E.
Qed.

Lemma hasHighlightedAncestor_complete nm p q rp :
  wf_map nm ->
  getRecord nm p = Some rp -> nr_highlighted rp = true ->
  In q (map nr_path nm) ->
  is_strict_prefix p q = true ->
  hasHighlightedAncestor nm q = true.
Proof.
  intros Hwf Hp Hhl Hq Hpre. unfold hasHighlightedAncestor.
  destruct (getRecord_exists _ _ Hq) as (rq & Hrq). rewrite Hrq.
  destruct (getRecord_some _ _ _ Hrq) as [Hinrq Hpath].
  destruct Hwf as [Hwf Hcl].
  destruct (proj1 (Forall_forall _ _) Hwf rq Hinrq) as (_ & Hpar & _).
  apply is_strict_prefix_spec in Hpre as (x & s & ->).
  assert (E : nr_parent rq = p ++ removelast (x :: s)).
  { rewrite Hpar, Hpath. now apply removelast_app. }
  rewrite E. apply (ancestorLoop_finds nm p rp); auto.
  - now split.
  - assert (length (removelast (x :: s)) <= length (x :: s))%nat.
    { clear. revert x. induction s as [|y s IH]; intros x; simpl; [lia|].
      specialize (IH y). simpl in IH. lia. }
    rewrite length_app. lia.
  - destruct (Hcl rq Hinrq) as [Hnil|Hin'].
    + left. rewrite E in Hnil. now apply app_eq_nil in Hnil as [_ ?].
    + right. now rewrite <- E.
Qed.

Lemma insertByDepth_in r l x :
  In x (insertByDepth r l) <-> x = r \/ In x l.
Proof.
  induction l as [|y l IH]; simpl.
  - intuition.
  - destruct (nr_depth r <=? nr_depth y)%nat; simpl; [intuition|].
    rewrite IH. intuition.
Qed.

Lemma insertByDepth_sorted r l :
  StronglySorted depth_le l -> StronglySorted depth_le (insertByDepth r l).
Proof.
  induction 1 as [|y l Hs IH Hy]; simpl.
  - repeat constructor.
  - destruct (Nat.leb_spec (nr_depth r) (nr_depth y)) as [Hle|Hgt].
    + constructor; [now constructor|].
      constructor; [exact Hle|].
      apply Forall_forall. intros z Hz.
      pose proof (proj1 (Forall_forall _ _) Hy z Hz) as Hyz.
      unfold depth_le in *. lia.
    + constructor; [exact IH|].
      apply Forall_forall. intros z Hz. apply insertByDepth_in in Hz as [->|Hz].
      * unfold depth_le. lia.
      * exact (proj1 (Forall_forall _ _) Hy z Hz).
Qed.

Lemma sortNodesByDepth_sorted nm : StronglySorted depth_le (sortNodesByDepth nm).
Proof.
  unfold sortNodesByDepth. induction nm as [|r nm IH]; simpl.
  - constructor.
  - now apply insertByDepth_sorted.
Qed.

Lemma sortNodesByDepth_in nm x : In x (sortNodesByDepth nm) <-> In x nm.
Proof.
  unfold sortNodesByDepth. induction nm as [|r nm IH]; simpl; [tauto|].
  rewrite insertByDepth_in, IH. intuition.
Qed.

Lemma same_maps_refl st : same_maps st st.
Proof. repeat split. Qed.

Lemma same_maps_trans st1 st2 st3 :
  same_maps st1 st2 -> same_maps st2 st3 -> same_maps st1 st3.
Proof.
  intros (A1 & A2 & A3 & A4) (B1 & B2 & B3 & B4).
  repeat split; congruence.
Qed.

Lemma exactPass_same_maps sortedOld sortedNew st :
  same_maps st (exactPass sortedOld sortedNew st).
Proof.
  revert st. induction sortedOld as [|o rest IH]; intros st; simpl.
  - apply same_maps_refl.
  - destruct (hasHighlightedAncestor (nodeMap (oldSide st)) (nr_path o)).
    + eapply same_maps_trans; [|apply IH]. repeat split.
    + destruct (firstCandidate _ (newSide st) sortedNew) as [n|].
      * eapply same_maps_trans; [|apply IH]. repeat split.
      * apply IH.
Qed.

Lemma pairStructural_same_maps dmp o n st :
  same_maps st (outcomeState (pairStructural dmp o n st)).
Proof.
  unfold pairStructural.
  destruct (performDiff dmp (nr_textContent o) (nr_textContent n)) as [diffs|].
  - destruct (hasSignificantChanges diffs); simpl.
    + repeat split; simpl; apply skeleton_markAsHighlighted.
    + repeat split.
  - repeat split.
Qed.

Lemma structuralPass_same_maps dmp sortedOld sortedNew st :
  same_maps st (outcomeState (structuralPass dmp sortedOld sortedNew st)).
Proof.
  revert st. induction sortedOld as [|o rest IH]; intros st; simpl.
  - apply same_maps_refl.
  - destruct (mem_path (nr_path o) (processed (oldSide st))
              || hasHighlightedAncestor (nodeMap (oldSide st)) (nr_path o)).
    + apply IH.
    + destruct (firstCandidate _ (newSide st) sortedNew) as [n|]; [|apply IH].
      pose proof (pairStructural_same_maps dmp o n st) as Hp.
      destruct (pairStructural dmp o n st) as [st'|st']; simpl in *.
      * eapply same_maps_trans; [exact Hp|apply IH].
      * exact Hp.
Qed.

(** Step 2.3 keeps its invariant.  The entries still to visit are sorted
    by depth, are keys of the map, and are not shorter than any path
    marked so far. *)
Lemma residualPass_inv platform ct sorted :
  StronglySorted depth_le sorted ->
  forall s,
    (forall n, In n sorted ->
               In (nr_path n) (map nr_path (nodeMap s)) /\
               length (nr_path n) = S (nr_depth n)) ->
    (forall p n, In p (marked s) -> In n sorted ->
                 (length p <= length (nr_path n))%nat) ->
    residual_inv s ->
    residual_inv (residualPass platform ct sorted s).
Proof.
  induction 1 as [|n rest Hs IH Hn]; intros s Hkeys Hlen Hinv; simpl.
  - exact Hinv.
  - destruct (mem_path (nr_path n) (processed s)
              || hasHighlightedAncestor (nodeMap s) (nr_path n)) eqn:Eskip.
    + apply IH; auto.
      * intros m Hm. apply Hkeys. now right.
      * intros p m Hp Hm. apply Hlen; auto. now right.
    + apply orb_false_iff in Eskip as [_ Ehha].
      destruct Hinv as (Hwf & Hhl & Hpre).
      destruct (Hkeys n (or_introl eq_refl)) as [Hkey Hdepth].
      apply IH; simpl.
      * intros m Hm. rewrite (skeleton_paths _ _ (skeleton_markAsHighlighted _ _)).
        apply Hkeys. now right.
      * intros p m Hp Hm. apply in_app_or in Hp as [Hp|[<-|[]]].
        -- apply Hlen; auto. now right.
        -- destruct (Hkeys m (or_intror Hm)) as [_ Hdm].
           pose proof (proj1 (Forall_forall _ _) Hn m Hm) as Hle.
           unfold depth_le in Hle. lia.
      * split; [|split].
        -- eapply wf_map_skeleton; [apply skeleton_markAsHighlighted|exact Hwf].
        -- intros p Hp. apply in_app_or in Hp as [Hp|[<-|[]]].
           ++ destruct (Hhl p Hp) as (r & Hr & Hrh).
              destruct (getRecord_markAsHighlighted _ (nr_path n) _ _ Hr)
                as (r' & Hr' & _ & _ & Hmono & _).
              exists r'. split; [exact Hr'|]. now apply Hmono.
           ++ destruct (getRecord_exists _ _ Hkey) as (r & Hr).
              exists (setHighlighted r). split; [|reflexivity].
              now apply getRecord_markAsHighlighted_same.
        -- intros p q Hp Hq.
           apply in_app_or in Hp as [Hp|[<-|[]]];
             apply in_app_or in Hq as [Hq|[<-|[]]].
           ++ now apply Hpre.
           ++ destruct (is_strict_prefix p (nr_path n)) eqn:E; [|reflexivity].
              destruct (Hhl p Hp) as (r & Hr & Hrh).
              rewrite (hasHighlightedAncestor_complete _ p _ r Hwf Hr Hrh Hkey E)
                in Ehha. discriminate.
           ++ destruct (is_strict_prefix (nr_path n) q) eqn:E; [|reflexivity].
              apply is_strict_prefix_length in E.
              specialize (Hlen q n Hq (or_introl eq_refl)). lia.
           ++ destruct (is_strict_prefix (nr_path n) (nr_path n)) eqn:E;
                [|reflexivity].
              apply is_strict_prefix_length in E. lia.
Qed.

Lemma residualPass_from_createNodeMap platform ct container s :
  map skeleton (nodeMap s) = map skeleton (createNodeMap container) ->
  marked s = [] ->
  residual_inv
    (residualPass platform ct (sortNodesByDepth (createNodeMap container)) s).
Proof.
  intros Hsk Hm.
  pose proof (createNodeMap_wf container) as Hwf0.
  apply residualPass_inv.
  - apply sortNodesByDepth_sorted.
  - intros n Hn. apply (proj1 (sortNodesByDepth_in _ _)) in Hn. split.
    + rewrite (skeleton_paths _ _ Hsk). now apply in_map.
    + destruct Hwf0 as [Hwf _].
      now destruct (proj1 (Forall_forall _ _) Hwf n Hn) as (_ & _ & ?).
  - intros p n Hp. rewrite Hm in Hp. destruct Hp.
  - split; [|split].
    + eapply wf_map_skeleton; eauto.
    + intros p Hp. rewrite Hm in Hp. destruct Hp.
    + intros p q Hp. rewrite Hm in Hp. destruct Hp.
Qed.

(** C6. In the state that one pass of [deepCompareAndMarkChanges] ends
    in, whether it returned or was cut short by an exception, an element
    handed to [markNodeAsChanged] (these are the ones that can receive
    [diff-node-removed] or [diff-node-added]) has no descendant that was
    handed to it as well: no marked path is a proper prefix of another
    marked path, on the old side and on the new side. *)
Theorem marked_element_has_no_marked_descendant
  (dmp : Dmp) (platform : Platform) (oldContainer newContainer : node) :
  let st := outcomeState
              (deepCompareAndMarkChanges dmp platform oldContainer newContainer) in
  forall p q : Path,
    is_strict_prefix p q = true ->
    ~ (In p (marked (oldSide st)) /\ In q (marked (oldSide st))) /\
    ~ (In p (marked (newSide st)) /\ In q (marked (newSide st))).
Proof.
  intros st p q Hpq. subst st. unfold deepCompareAndMarkChanges.
  set (st0 := initialState oldContainer newContainer).
  set (so := sortNodesByDepth (nodeMap (oldSide st0))).
  set (sn := sortNodesByDepth (nodeMap (newSide st0))).
  pose proof (exactPass_same_maps so sn st0) as H1.
  pose proof (structuralPass_same_maps dmp so sn (exactPass so sn st0)) as H2.
  pose proof (same_maps_trans _ _ _ H1 H2) as (Ho & Hn & Hmo & Hmn).
  destruct (structuralPass dmp so sn (exactPass so sn st0)) as [st2|st2];
    simpl in *.
  - pose proof (residualPass_from_createNodeMap platform removed oldContainer
                  (oldSide st2) Ho Hmo) as (_ & _ & Hold).
    pose proof (residualPass_from_createNodeMap platform added newContainer
                  (newSide st2) Hn Hmn) as (_ & _ & Hnew).
    split; intros [Hp Hq].
    + specialize (Hold p q Hp Hq). fold so in Hold. congruence.
    + specialize (Hnew p q Hp Hq). fold sn in Hnew. congruence.
  - rewrite Hmo, Hmn. split; intros [[] _].
Qed.

(* ================================================================== *)
(** * The aligner on two identical trees *)
(* ================================================================== *)

Lemma processNode_paths n :
  forall path depth parent r,
    In r (processNode n path depth parent) ->
    exists s, nr_path r = path ++ s.
Proof.
  induction n as [data|e cs IH|] using node_tree_ind;
    intros path depth parent r; [intros []| |intros []].
  rewrite processNode_children. intros [Hr|Hin].
  - subst r. exists []. simpl. now rewrite app_nil_r.
  - revert Hin. generalize 0%nat.
    induction IH as [|c cs Hc _ IHcs]; intros index Hin; [destruct Hin|].
    cbn [processChildren] in Hin.
    destruct c as [d|e' cs'|]; try (now apply (IHcs index)).
    apply in_app_or in Hin as [Hin|Hin]; [|now apply (IHcs (S index))].
    destruct (Hc _ _ _ _ Hin) as (s & Hs).
    exists (index :: s). rewrite Hs, <- app_assoc. reflexivity.
Qed.

Lemma processChildren_paths cs index path depth r :
  In r (processChildren cs index path depth) ->
  exists j s, nr_path r = path ++ j :: s /\ (index <= j)%nat.
Proof.
  revert index. induction cs as [|c cs IH]; intros index Hin; [destruct Hin|].
  cbn [processChildren] in Hin.
  assert (Hrest : forall i, (index <= i)%nat ->
                    In r (processChildren cs i path depth) ->
                    exists j s, nr_path r = path ++ j :: s /\ (index <= j)%nat).
  { intros i Hi H. destruct (IH i H) as (j & s & Hp & Hj).
    exists j, s. split; [exact Hp|lia]. }
  destruct c as [d|e' cs'|]; try (now apply (Hrest index)).
  apply in_app_or in Hin as [Hin|Hin]; [|apply (Hrest (S index)); auto].
  destruct (processNode_paths _ _ _ _ _ Hin) as (s & Hs).
  exists index, s. split; [|lia]. rewrite Hs, <- app_assoc. reflexivity.
Qed.

Lemma processChildren_NoDup_from
  (cs : list node)
  (IH : Forall (fun c => forall path depth parent,
                   NoDup (map nr_path (processNode c path depth parent))) cs) :
  forall index path depth,
    NoDup (map nr_path (processChildren cs index path depth)).
Proof.
  induction IH as [|c cs Hc _ IHcs]; intros index path depth.
  - constructor.
  - cbn [processChildren]. destruct c as [d|e' cs'|]; try apply IHcs.
    rewrite map_app. apply NoDup_app; [apply Hc|apply IHcs|].
    intros a Ha Hb.
    apply in_map_iff in Ha as (ra & <- & Hra).
    apply in_map_iff in Hb as (rb & Heq & Hrb).
    destruct (processNode_paths _ _ _ _ _ Hra) as (s & Hs).
    destruct (processChildren_paths _ _ _ _ _ Hrb) as (j & s' & Hs' & Hj).
    rewrite Hs, Hs', <- app_assoc in Heq.
    apply app_inv_head in Heq. simpl in Heq. inversion Heq. lia.
Qed.

Lemma processNode_NoDup n :
  forall path depth parent,
    NoDup (map nr_path (processNode n path depth parent)).
Proof.
  induction n as [data|e cs IH|] using node_tree_ind;
    intros path depth parent; [constructor| |constructor].
  rewrite processNode_children. cbn [map nr_path]. constructor.
  - intros Hin. apply in_map_iff in Hin as (r & Hp & Hr).
    destruct (processChildren_paths _ _ _ _ _ Hr) as (j & s & Hs & _).
    rewrite Hs in Hp. rewrite <- (app_nil_r path) in Hp at 2.
    apply app_inv_head in Hp. discriminate.
  - now apply processChildren_NoDup_from.
Qed.

Lemma createNodeMap_NoDup container :
  NoDup (map nr_path (createNodeMap container)).
Proof.
  apply processChildren_NoDup_from. apply Forall_forall.
  intros c _. apply processNode_NoDup.
Qed.

Lemma processNode_unflagged n :
  forall path depth parent, unflagged (processNode n path depth parent).
Proof.
  induction n as [data|e cs IH|] using node_tree_ind;
    intros path depth parent; [constructor| |constructor].
  rewrite processNode_children. constructor; [reflexivity|].
  generalize 0%nat. induction IH as [|c cs Hc _ IHcs]; intros index.
  - constructor.
  - cbn [processChildren]. destruct c as [d|e' cs'|]; try apply IHcs.
    apply Forall_app. split; [apply Hc|apply IHcs].
Qed.

Lemma processChildren_unflagged cs index path depth :
  unflagged (processChildren cs index path depth).
Proof.
  revert index. induction cs as [|c cs IH]; intros index.
  - constructor.
  - cbn [processChildren]. destruct c as [d|e' cs'|]; try apply IH.
    apply Forall_app. split; [apply processNode_unflagged|apply IH].
Qed.

Lemma createNodeMap_unflagged container : unflagged (createNodeMap container).
Proof. apply processChildren_unflagged. Qed.

Lemma ancestorLoop_unflagged nm fuel cp :
  unflagged nm -> ancestorLoop fuel nm cp = false.
Proof.
  intros Hu. revert cp. induction fuel as [|fuel IH]; intros cp; [reflexivity|].
  cbn [ancestorLoop]. destruct cp as [p|]; [|reflexivity].
  destruct (getRecord nm p) as [r|] eqn:E; [|apply IH].
  apply getRecord_some in E as [Hin _].
  rewrite (proj1 (Forall_forall _ _) Hu r Hin). apply IH.
Qed.

Lemma hasHighlightedAncestor_unflagged nm p :
  unflagged nm -> hasHighlightedAncestor nm p = false.
Proof.
  intros Hu. unfold hasHighlightedAncestor.
  destruct (getRecord nm p); [|reflexivity].
  now apply ancestorLoop_unflagged.
Qed.

Lemma insertByDepth_perm r l : Permutation (insertByDepth r l) (r :: l).
Proof.
  induction l as [|x l IH]; simpl; [reflexivity|].
  destruct (nr_depth r <=? nr_depth x)%nat; [reflexivity|].
  rewrite IH. apply perm_swap.
Qed.

Lemma sortNodesByDepth_perm nm : Permutation (sortNodesByDepth nm) nm.
Proof.
  unfold sortNodesByDepth. induction nm as [|r nm IH]; simpl; [reflexivity|].
  rewrite insertByDepth_perm. now constructor.
Qed.

Lemma mem_path_true p l : mem_path p l = true <-> In p l.
Proof.
  unfold mem_path. rewrite existsb_exists. split.
  - intros (x & Hx & E). apply path_eqb_eq in E. now subst.
  - intros H. exists p. split; [exact H|apply path_eqb_refl].
Qed.






(* ================================================================== *)
(** * A pass over byte-identical inputs *)
(* ================================================================== *)




Lemma span_spaces_head s m r :
  span (N.eqb SPACE) s = (m, r) -> (2 <= length m)%nat ->
  exists m', m = SPACE :: SPACE :: m'.
Proof.
  intros Hs Hlen. apply span_all in Hs.
  destruct m as [|a [|b m']]; simpl in Hlen; try lia.
  cbn [forallb] in Hs. apply andb_true_iff in Hs as [Ha Hs].
  apply andb_true_iff in Hs as [Hb _].
  apply N.eqb_eq in Ha, Hb. subst. eauto.
Qed.

Lemma exec_spaces_sound s sk m r :
  exec_spaces s = Some (sk, m, r) ->
  s = sk ++ m ++ r /\ exists m', m = SPACE :: SPACE :: m'.
Proof.
  revert sk m r. induction s as [|c s IH]; intros sk m r; [discriminate|].
  cbn [exec_spaces].
  destruct (span (N.eqb SPACE) (c :: s)) as [m0 r0] eqn:Es.
  destruct (Nat.leb_spec 2 (length m0)) as [Hlen|Hlen].
  - intros H; inversion H; subst. split.
    + simpl. now apply (span_app (N.eqb SPACE)).
    + eapply span_spaces_head; eauto.
  - destruct (exec_spaces s) as [[[sk' m'] r']|] eqn:E; [|discriminate].
    intros H; inversion H; subst.
    destruct (IH _ _ _ eq_refl) as [-> Hm]. now split.
Qed.

Lemma exec_spaces_none s : ~ has_double_space s -> exec_spaces s = None.
Proof.
  intros H. destruct (exec_spaces s) as [[[sk m] r]|] eqn:E; [|reflexivity].
  exfalso. apply H. apply exec_spaces_sound in E as [-> (m' & ->)].
  exists sk, (m' ++ r). reflexivity.
Qed.

Lemma span_spaces_long (b : str) :
  (2 <= length (fst (span (N.eqb SPACE) (SPACE :: SPACE :: b))))%nat.
Proof.
  cbn [span]. rewrite !N.eqb_refl.
  destruct (span (N.eqb SPACE) b) as [m r]. simpl. lia.
Qed.

Lemma exec_spaces_complete (s : str) :
  has_double_space s -> exec_spaces s <> None.
Proof.
  intros (a & b & ->). induction a as [|c a IH]; cbn [app exec_spaces].
  - pose proof (span_spaces_long b) as Hl.
    destruct (span (N.eqb SPACE) (SPACE :: SPACE :: b)) as [m r].
    cbn [fst] in Hl. apply Nat.leb_le in Hl. rewrite Hl. discriminate.
  - destruct (span (N.eqb SPACE) (c :: a ++ SPACE :: SPACE :: b)) as [m r].
    destruct (2 <=? length m)%nat; [discriminate|].
    destruct (exec_spaces (a ++ SPACE :: SPACE :: b)) as [[[sk m'] r']|];
      [discriminate|contradiction].
Qed.

Lemma plain_check (s : str) : exec_spaces s = None -> plain s.
Proof. intros E H. now apply exec_spaces_complete in H. Qed.

Lemma markWhitespaceNode_plain platform content :
  ~ has_double_space content ->
  markWhitespaceNode platform content = TextNode content.
Proof.
  intros H. unfold markWhitespaceNode, newContent. cbn [whitespaceMarkup].
  rewrite (exec_spaces_none _ H), str_eqb_refl.
  now rewrite andb_false_r.
Qed.

Lemma markWhitespaceChanges_plain platform n :
  Forall (fun t => ~ has_double_space t) (textNodesOf n) ->
  markWhitespaceChanges platform n = n.
Proof.
  induction n as [data|e cs IH|] using node_tree_ind; intros H; simpl.
  - inversion H; subst. now apply markWhitespaceNode_plain.
  - f_equal. simpl in H. induction IH as [|c cs Hc _ IHcs]; [reflexivity|].
    simpl in H. apply Forall_app in H as [H1 H2].
    simpl. now rewrite Hc, IHcs.
  - reflexivity.
Qed.




(** The markup of the whitespace-run highlighter is built from the text
    of the node as it is.  The inputs are both the paragraph with the
    text [a  <span class="diff-removed">x</span>] (two spaces, the
    markup characters written as references): each container ends with
    an element of the class [diff-removed] that its rendered input did
    not have. *)
Example identical_inputs_can_get_other_markers :
  let html := js "<p>a  &lt;span class=" ++ [QUOTE] ++ js "diff-removed"
                ++ [QUOTE] ++ js "&gt;x&lt;/span&gt;</p>" in
  let rendered := containerOf (render example_platform html) in
  exists r,
    processSideBySideDiff simple_dmp example_platform html html = Completed r /\
    has_class (js "diff-removed") rendered = false /\
    has_class (js "diff-removed") (r_old r) = true /\
    has_class (js "diff-removed") (r_new r) = true.
Proof.
  eexists. split; [vm_compute; reflexivity|].
  repeat split; vm_compute; reflexivity.
Qed.

(* ================================================================== *)
(** * The text-diff path and the node aligner *)
(* ================================================================== *)

(** C2, as the code has it.  On the text-diff path (the structural-only
    test fails) with a character diff that returns, [highlightChanges]
    first runs [markStructuralChanges] on the two containers, that is,
    the node aligner and then the whitespace-run highlighter; the change
    ranges of the text diff are then spliced into the text nodes of the
    containers as these two steps left them, and each container is
    assigned the markup of the result. *)
Theorem text_path_runs_aligner_then_splices
  (dmp : Dmp) (platform : Platform) (oldHtml newHtml : str)
  (diffs : list DiffOp) (st : AlignState) :
  let oldContainer := containerOf (render platform oldHtml) in
  let newContainer := containerOf (render platform newHtml) in
  str_eqb (textContent oldContainer) (textContent newContainer)
    && negb (str_eqb oldHtml newHtml) = false ->
  performDiff dmp (textContent oldContainer) (textContent newContainer)
    = Ok diffs ->
  deepCompareAndMarkChanges dmp platform oldContainer newContainer = Done st ->
  let oldMarked := markWhitespaceChanges platform (tree (oldSide st)) in
  let newMarked := markWhitespaceChanges platform (tree (newSide st)) in
  processSideBySideDiff dmp platform oldHtml newHtml
  = Completed
      {| r_old := reparsed platform
                    (applyTextNodeChanges oldMarked (extractTextNodes oldMarked)
                       (fst (changeRanges 0 0 diffs)));
         r_new := reparsed platform
                    (applyTextNodeChanges newMarked (extractTextNodes newMarked)
                       (snd (changeRanges 0 0 diffs)));
         r_aligner := Some st;
         r_logged := false |}.
Proof.
  intros oldContainer newContainer Hpath Hdiff Hdc oldMarked newMarked.
  unfold processSideBySideDiff. fold oldContainer newContainer.
  rewrite Hpath, Hdiff. unfold highlightChanges, markStructuralChanges.
  rewrite Hdc. destruct (changeRanges 0 0 diffs) as [oc nc]. reflexivity.
Qed.

(** C2, counterexample.  The old HTML is [<div><p>x</p><p>y</p></div>]
    and the new one [<div><p>x</p></div><h1>t</h1>]; their texts, xy and
    xt, differ, so the pass takes the text-diff path.  The node aligner
    runs all the same: it pairs the two first paragraphs by signature and
    content, marks the old [div] removed and the new [div] and [h1]
    added, and the classes are in the result. *)
Lemma text_path_pairs_and_marks_nodes :
  let oldHtml := js "<div><p>x</p><p>y</p></div>" in
  let newHtml := js "<div><p>x</p></div><h1>t</h1>" in
  let oldContainer := containerOf (render example_platform oldHtml) in
  let newContainer := containerOf (render example_platform newHtml) in
  textContent oldContainer <> textContent newContainer /\
  exists r st,
    processSideBySideDiff simple_dmp example_platform oldHtml newHtml
      = Completed r /\
    r_aligner r = Some st /\
    nodeMapping st = [([0; 0], [0; 0])]%nat /\
    marked (oldSide st) = [[0]]%nat /\
    marked (newSide st) = [[0]; [1]]%nat /\
    has_class (js "diff-node-removed") (r_old r) = true /\
    has_class (js "diff-node-added") (r_new r) = true.
Proof.
  split; [vm_compute; discriminate|].
  eexists. eexists. split; [vm_compute; reflexivity|].
  cbn [r_aligner r_old r_new]. split; [reflexivity|].
  repeat split; vm_compute; reflexivity.
Qed.

Lemma text_path_runs_aligner_then_splices_witness :
  processSideBySideDiff simple_dmp example_platform
    (js "<p>Hello world</p>") (js "<p>Hello there</p>")
  = Completed
      {| r_old := containerOf
                    [elem "P" [TextNode (js "Hello ");
                               parsedMarker "diff-removed"
                                 [parsedMarker "diff-removed"
                                    [TextNode (js "world")]]]];
         r_new := containerOf
                    [elem "P" [TextNode (js "Hello ");
                               parsedMarker "diff-added"
                                 [parsedMarker "diff-added"
                                    [TextNode (js "there")]]]];
         r_aligner :=
           Some (outcomeState
                   (deepCompareAndMarkChanges simple_dmp example_platform
                      (containerOf [elem "P" [TextNode (js "Hello world")]])
                      (containerOf [elem "P" [TextNode (js "Hello there")]])));
         r_logged := false |}.
Proof.
  exact (text_path_runs_aligner_then_splices simple_dmp example_platform
           (js "<p>Hello world</p>") (js "<p>Hello there</p>")
           [(0, js "Hello "); (-1, js "world"); (1, js "there")]
           _ eq_refl eq_refl eq_refl).
Defined.

(* ================================================================== *)
(** * A throwing character diff *)
(* ================================================================== *)

(** C4, what the code does when the character diff throws.  On the
    text-diff path the call of [performDiff] stands before the [try]
    block: the exception leaves the pass uncaught, nothing is reported,
    and the containers hold the rendered inputs.  On the structural-only
    path there is no [try] block at all: an exception thrown inside the
    aligner leaves the pass uncaught with the containers as the aligner
    had them at that point. *)
Theorem diff_failure_leaves_pass_uncaught
  (dmp : Dmp) (platform : Platform) (oldHtml newHtml : str) :
  let oldContainer := containerOf (render platform oldHtml) in
  let newContainer := containerOf (render platform newHtml) in
  let structuralOnly :=
    str_eqb (textContent oldContainer) (textContent newContainer)
      && negb (str_eqb oldHtml newHtml) in
  (structuralOnly = false ->
   performDiff dmp (textContent oldContainer) (textContent newContainer)
     = Throw ->
   processSideBySideDiff dmp platform oldHtml newHtml
   = Uncaught {| r_old := oldContainer; r_new := newContainer;
                 r_aligner := None; r_logged := false |}) /\
  (structuralOnly = true ->
   forall st,
     deepCompareAndMarkChanges dmp platform oldContainer newContainer
       = Raised st ->
     processSideBySideDiff dmp platform oldHtml newHtml
     = Uncaught {| r_old := tree (oldSide st); r_new := tree (newSide st);
                   r_aligner := Some st; r_logged := false |}).
Proof.
  intros oldContainer newContainer structuralOnly. split.
  - intros Hpath Hthrow. unfold processSideBySideDiff.
    fold oldContainer newContainer structuralOnly.
    now rewrite Hpath, Hthrow.
  - intros Hpath st Hdc. unfold processSideBySideDiff.
    fold oldContainer newContainer structuralOnly.
    rewrite Hpath. unfold markStructuralChanges. now rewrite Hdc.
Qed.

Lemma diff_failure_leaves_pass_uncaught_witness :
  processSideBySideDiff throwing_dmp example_platform
    (js "<p>a</p>") (js "<p>b</p>")
  = Uncaught {| r_old := containerOf [elem "P" [TextNode (js "a")]];
                r_new := containerOf [elem "P" [TextNode (js "b")]];
                r_aligner := None; r_logged := false |}.
Proof.
  exact (proj1 (diff_failure_leaves_pass_uncaught throwing_dmp example_platform
                  (js "<p>a</p>") (js "<p>b</p>")) eq_refl eq_refl).
Defined.

(** An exception thrown inside [highlightChanges] is caught: the failure
    is reported and both containers are rendered again from the inputs. *)
Lemma highlight_failure_is_caught
  (dmp : Dmp) (platform : Platform) (oldHtml newHtml : str)
  (diffs : list DiffOp) (st : AlignState) :
  let oldContainer := containerOf (render platform oldHtml) in
  let newContainer := containerOf (render platform newHtml) in
  str_eqb (textContent oldContainer) (textContent newContainer)
    && negb (str_eqb oldHtml newHtml) = false ->
  performDiff dmp (textContent oldContainer) (textContent newContainer)
    = Ok diffs ->
  deepCompareAndMarkChanges dmp platform oldContainer newContainer
    = Raised st ->
  processSideBySideDiff dmp platform oldHtml newHtml
  = Completed {| r_old := oldContainer; r_new := newContainer;
                 r_aligner := Some st; r_logged := true |}.
Proof.
  intros oldContainer newContainer Hpath Hdiff Hdc.
  unfold processSideBySideDiff. fold oldContainer newContainer.
  rewrite Hpath, Hdiff. unfold highlightChanges, markStructuralChanges.
  now rewrite Hdc.
Qed.

(* ================================================================== *)
(** * The whitespace-run highlighter and markup characters in the text *)
(* ================================================================== *)

(** C9, at the paragraph rendered from [<p>a  &lt;b&gt;c</p>], whose
    text node has the data [a  <b>c] (two spaces).  The markup assigned
    to [innerHTML] carries the data outside the run of spaces verbatim,
    the less-than sign included; a fragment parser reads the [<b>] as a
    start tag, and the text of the container after the highlighter is
    [a  c]: three characters of the text are gone. *)
Theorem whitespace_highlighter_loses_markup_characters :
  let container :=
    containerOf (render example_platform (js "<p>a  &lt;b&gt;c</p>")) in
  container = containerOf [elem "P" [TextNode (js "a  <b>c")]] /\
  newContent (js "a  <b>c")
    = js "a" ++ whitespaceSpanOpen ++ js "  " ++ whitespaceSpanClose
        ++ js "<b>c" /\
  textContent (markWhitespaceChanges example_platform container)
    = js "a  c" /\
  textContent (markWhitespaceChanges example_platform container)
    <> textContent container.
Proof.
  split; [vm_compute; reflexivity|].
  split; [vm_compute; reflexivity|].
  split; [vm_compute; reflexivity|].
  vm_compute. discriminate.
Qed.

(* ================================================================== *)
(** * Worked instances of the theorems with hypotheses *)
(* ================================================================== *)

(** The change of the range [2, 4) in a text node abcd found at path
    [0]: the parts ab and cd spell abcd. *)
Lemma split_parts_spell_original_witness :
  nodes_text (changeFragment removed (js "abcd") 2 4) = js "abcd".
Proof.
  apply (proj1 (proj2 split_parts_spell_original)
           {| ch_start := 2; ch_end := 4; ch_text := js "cd";
              ch_type := removed |}
           [{| tn_path := [0%nat]; tn_text := js "abcd";
               tn_startPos := 0; tn_endPos := 4 |}]
           {| tn_path := [0%nat]; tn_text := js "abcd";
              tn_startPos := 0; tn_endPos := 4 |}
           2 4 (js "abcd")).
  simpl. left. reflexivity.
Defined.

(** The old side of [<div><p>x</p><p>y</p></div>] against
    [<div><p>x</p></div><h1>t</h1>]: the [div] at path 0 is marked, its
    child at path 0/0 is not. *)
Lemma marked_element_has_no_marked_descendant_witness :
  is_strict_prefix [0%nat] [0%nat; 0%nat] = true /\
  ~ (In [0%nat]
        (marked (oldSide (outcomeState
           (deepCompareAndMarkChanges simple_dmp example_platform
              (containerOf (render example_platform
                              (js "<div><p>x</p><p>y</p></div>")))
              (containerOf (render example_platform
                              (js "<div><p>x</p></div><h1>t</h1>"))))))) /\
      In [0%nat; 0%nat]
        (marked (oldSide (outcomeState
           (deepCompareAndMarkChanges simple_dmp example_platform
              (containerOf (render example_platform
                              (js "<div><p>x</p><p>y</p></div>")))
              (containerOf (render example_platform
                              (js "<div><p>x</p></div><h1>t</h1>")))))))).
Proof.
  split; [reflexivity|].
  exact (proj1 (marked_element_has_no_marked_descendant
                  simple_dmp example_platform
                  (containerOf (render example_platform
                                  (js "<div><p>x</p><p>y</p></div>")))
                  (containerOf (render example_platform
                                  (js "<div><p>x</p></div><h1>t</h1>")))
                  [0%nat] [0%nat; 0%nat] eq_refl)).
Defined.

(** A changed group over [1, 3) meets the text node [a  b] in its two
    spaces only: the node stays unreplaced. *)
Lemma whitespace_only_group_not_wrapped_witness :
  nth_error
    (applyGroup removed
       [{| ts_text := js "a  b"; ts_parent := newSpan [];
           ts_start := 0; ts_end := 4 |}]
       [None]
       {| g_start := 1; g_end := 3; g_isChanged := true |}) 0
  = Some None.
Proof.
  exact (whitespace_only_group_not_wrapped removed
           [{| ts_text := js "a  b"; ts_parent := newSpan [];
               ts_start := 0; ts_end := 4 |}]
           [None]
           {| g_start := 1; g_end := 3; g_isChanged := true |}
           0%nat
           {| ts_text := js "a  b"; ts_parent := newSpan [];
              ts_start := 0; ts_end := 4 |}
           1 3 eq_refl eq_refl eq_refl).
Defined.


(* ================================================================== *)
(** * The scenarios of the specification, run on the model *)
(* ================================================================== *)

(** Scenario 1: world and there are flagged as whole words. *)
Example scenario_word_groups :
  performDiff simple_dmp (js "Hello world") (js "Hello there")
  = Ok [(0, js "Hello "); (-1, js "world"); (1, js "there")].
Proof. vm_compute. reflexivity. Qed.

(** Scenario 2: a list that only changes its type has the same text on
    both sides; the structural-only path marks the old list removed and
    the new list added, pairs the items and highlights no text. *)
Example scenario_list_type_change :
  exists st,
    processSideBySideDiff simple_dmp example_platform
      (js "<ul><li>A</li></ul>") (js "<ol><li>A</li></ol>")
    = Completed
        {| r_old := containerOf
                      [ElemNode {| created := false; isHTMLElement := true;
                                   tagName := js "UL";
                                   attributes :=
                                     [(js "class", js "diff-node-removed")] |}
                                [elem "LI" [TextNode (js "A")]]];
           r_new := containerOf
                      [ElemNode {| created := false; isHTMLElement := true;
                                   tagName := js "OL";
                                   attributes :=
                                     [(js "class", js "diff-node-added")] |}
                                [elem "LI" [TextNode (js "A")]]];
           r_aligner := Some st; r_logged := false |} /\
    nodeMapping st = [([0; 0], [0; 0])]%nat /\
    highlightCalls st = [].
Proof. eexists. split; [vm_compute; reflexivity|]. split; reflexivity. Qed.

(** Scenario 4: one of two spaces is deleted.  The texts differ, the
    text-diff path runs; the aligner pairs the paragraphs and, the change
    being white space only, highlights nothing; the whitespace-run
    highlighter wraps the two spaces of the old side; the deleted space
    is then wrapped as removed inside that wrapper, and the containers
    hold what the parser reads from the markup of the result. *)
Example scenario_deleted_space :
  exists r st,
    processSideBySideDiff scenario4_dmp example_platform
      (js "<p>a  b</p>") (js "<p>a b</p>")
    = Completed r /\
    r_aligner r = Some st /\
    highlightCalls st = [] /\
    r_old r = containerOf
                [elem "P"
                   [elem "SPAN"
                      [TextNode (js "a");
                       ElemNode
                         {| created := false; isHTMLElement := true;
                            tagName := js "SPAN";
                            attributes :=
                              [(js "class", js "diff-whitespace");
                               (js "style", js "white-space: pre-wrap;")] |}
                         [TextNode (js " ");
                          parsedMarker "diff-removed" [TextNode (js " ")]];
                       TextNode (js "b")]]] /\
    r_new r = containerOf [elem "P" [TextNode (js "a b")]].
Proof.
  do 2 eexists. split; [vm_compute; reflexivity|].
  cbn [r_aligner r_old r_new]. split; [reflexivity|].
  repeat split; vm_compute; reflexivity.
Qed.

(* ****************************************************************** *)
(** * Further properties of the component *)
(* ****************************************************************** *)

(* ================================================================== *)
(** * Text node extraction *)
(* ================================================================== *)

Lemma ranges_tile_app pos l1 mid l2 stop :
  ranges_tile pos l1 mid -> ranges_tile mid l2 stop ->
  ranges_tile pos (l1 ++ l2) stop.
Proof.
  revert pos. induction l1 as [|[[s e] t] l1 IH]; simpl; intros pos H1 H2.
  - now subst.
  - destruct H1 as (Hs & He & Ht). repeat split; auto.
Qed.

Lemma strlen_app (a b : str) : strlen (a ++ b) = strlen a + strlen b.
Proof. unfold strlen. rewrite length_app. lia. Qed.

(** What [extractTextNodes] records below a node found at [path]: the
    entries tile the text of the node from the position it was entered
    with, spell that text, and each path leads from the node to the text
    node it was recorded for. *)
Lemma extractTextNode_spec n :
  forall path pos l p,
    extractTextNode n path pos = (l, p) ->
    p = pos + strlen (textContent n) /\
    ranges_tile pos (map tn_range l) p /\
    concat (map tn_text l) = textContent n /\
    (forall t, In t l ->
       exists rel, tn_path t = path ++ rel /\
                   findNodeByPath n rel = Some (TextNode (tn_text t))).
Proof.
  induction n as [data|e cs IH|] using node_tree_ind; intros path pos l p H.
  - simpl in H. inversion H; subst; clear H. simpl.
    repeat split; auto.
    + now rewrite app_nil_r.
    + intros t [<-|[]]. exists []. simpl. now rewrite app_nil_r.
  - cbn [extractTextNode] in H. cbn [textContent].
    assert (Hcs : forall i pos l p,
      (fix each (cs0 : list node) (i0 : nat) (pos0 : Z) {struct cs0}
         : list TextNodeMap * Z :=
         match cs0 with
         | [] => ([], pos0)
         | c :: cs' =>
             let (l1, p1) := extractTextNode c (path ++ [i0]) pos0 in
             let (l2, p2) := each cs' (S i0) p1 in (l1 ++ l2, p2)
         end) cs i pos = (l, p) ->
      p = pos + strlen (flat_map textContent cs) /\
      ranges_tile pos (map tn_range l) p /\
      concat (map tn_text l) = flat_map textContent cs /\
      (forall t, In t l ->
         exists k c rel, tn_path t = path ++ (i + k)%nat :: rel /\
                         nth_error cs k = Some c /\
                         findNodeByPath c rel = Some (TextNode (tn_text t)))).
    { clear H l p pos. induction IH as [|c cs Hc _ IHcs]; intros i pos l p H.
      - inversion H; subst. simpl. unfold strlen. simpl.
        repeat split; auto; try lia; try (intros t []).
      - destruct (extractTextNode c (path ++ [i]) pos) as [l1 p1] eqn:E1.
        destruct ((fix each (cs0 : list node) (i0 : nat) (pos0 : Z) {struct cs0}
                     : list TextNodeMap * Z :=
                     match cs0 with
                     | [] => ([], pos0)
                     | c0 :: cs' =>
                         let (l1, p1) := extractTextNode c0 (path ++ [i0]) pos0 in
                         let (l2, p2) := each cs' (S i0) p1 in (l1 ++ l2, p2)
                     end) cs (S i) p1) as [l2 p2] eqn:E2.
        inversion H; subst; clear H.
        destruct (Hc _ _ _ _ E1) as (Hp1 & Ht1 & Hc1 & Hf1).
        destruct (IHcs _ _ _ _ E2) as (Hp2 & Ht2 & Hc2 & Hf2).
        cbn [flat_map]. rewrite strlen_app, !map_app, concat_app.
        repeat split.
        + lia.
        + eapply ranges_tile_app; eauto.
        + now rewrite Hc1, Hc2.
        + intros t Hin. apply in_app_or in Hin as [Hin|Hin].
          * destruct (Hf1 t Hin) as (rel & Hpath & Hfind).
            exists 0%nat, c, rel. rewrite Nat.add_0_r.
            rewrite Hpath, <- app_assoc. simpl. auto.
          * destruct (Hf2 t Hin) as (k & c' & rel & Hpath & Hnth & Hfind).
            exists (S k), c', rel. simpl.
            replace (i + S k)%nat with (S i + k)%nat by lia. auto. }
    destruct (Hcs _ _ _ _ H) as (Hp & Ht & Hc & Hf).
    repeat split; auto.
    intros t Hin. destruct (Hf t Hin) as (k & c & rel & Hpath & Hnth & Hfind).
    exists (k :: rel). split; [exact Hpath|].
    simpl. now rewrite Hnth.
  - simpl in H. inversion H; subst. unfold strlen. simpl.
    repeat split; auto; try lia; try (intros t []).
Qed.

(** X1. Every entry of [extractTextNodes(root)] can be found again: its
    path resolves with [findNodeByPath] from the root to a text node
    whose data is the recorded text. *)
Theorem extractTextNodes_paths_resolve (root : node) (t : TextNodeMap) :
  In t (extractTextNodes root) ->
  findNodeByPath root (tn_path t) = Some (TextNode (tn_text t)).
Proof.
  unfold extractTextNodes. intros Hin.
  destruct root as [data|e cs|]; [destruct Hin| |destruct Hin].
  destruct (extractTextNode (ElemNode e cs) [] 0) as [l p] eqn:E.
  destruct (extractTextNode_spec (ElemNode e cs) [] 0 l p E)
    as (_ & _ & _ & Hf).
  destruct (Hf t Hin) as (rel & Hpath & Hfind).
  simpl in Hpath. now rewrite Hpath.
Qed.

(** X2. For a root that is an element, the entries of
    [extractTextNodes(root)] tile the text of the root: the first starts
    at 0, each ends where the next starts and spans exactly the length
    of its text, the last ends at the length of [root.textContent], and
    the texts in order spell [root.textContent].  A root that is no
    element has no entry. *)
Theorem extractTextNodes_tile_text (root : node) :
  match root with
  | ElemNode _ _ =>
      ranges_tile 0 (map tn_range (extractTextNodes root))
                  (strlen (textContent root)) /\
      concat (map tn_text (extractTextNodes root)) = textContent root
  | _ => extractTextNodes root = []
  end.
Proof.
  destruct root as [data|e cs|]; [reflexivity| |reflexivity].
  unfold extractTextNodes.
  destruct (extractTextNode (ElemNode e cs) [] 0) as [l p] eqn:E.
  destruct (extractTextNode_spec (ElemNode e cs) [] 0 l p E)
    as (Hp & Ht & Hc & _).
  cbn [fst]. split; [|exact Hc]. now rewrite Hp in Ht.
Qed.

Lemma extractTextNodes_paths_resolve_witness :
  findNodeByPath
    (containerOf [elem "P" [TextNode (js "a"); elem "B" [TextNode (js "b")]]])
    [0; 1; 0]%nat
  = Some (TextNode (js "b")).
Proof.
  apply (extractTextNodes_paths_resolve
           (containerOf [elem "P" [TextNode (js "a");
                                   elem "B" [TextNode (js "b")]]])
           {| tn_path := [0; 1; 0]%nat; tn_text := js "b";
              tn_startPos := 1; tn_endPos := 2 |}).
  vm_compute. right. left. reflexivity.
Defined.

Lemma textSpans_spec n :
  forall parent pos l p,
    textSpans parent n pos = (l, p) ->
    p = pos + strlen (textContent n) /\
    ranges_tile pos (map ts_range l) p /\
    concat (map ts_text l) = textContent n.
Proof.
  induction n as [data|e cs IH|] using node_tree_ind; intros parent pos l p H.
  - simpl in H. inversion H; subst; clear H. simpl.
    repeat split; auto. now rewrite app_nil_r.
  - cbn [textSpans] in H. cbn [textContent]. revert pos l p H.
    induction IH as [|c cs Hc _ IHcs]; intros pos l p H.
    + inversion H; subst. simpl. unfold strlen. simpl.
      repeat split; auto; lia.
    + destruct (textSpans e c pos) as [l1 p1] eqn:E1.
      destruct ((fix each (cs0 : list node) (position : Z) {struct cs0}
                   : list TextSpan * Z :=
                   match cs0 with
                   | [] => ([], position)
                   | c0 :: cs' =>
                       let (l1, p1) := textSpans e c0 position in
                       let (l2, p2) := each cs' p1 in (l1 ++ l2, p2)
                   end) cs p1) as [l2 p2] eqn:E2.
      inversion H; subst; clear H.
      destruct (Hc _ _ _ _ E1) as (Hp1 & Ht1 & Hc1).
      destruct (IHcs _ _ _ E2) as (Hp2 & Ht2 & Hc2).
      cbn [flat_map]. rewrite strlen_app, !map_app, concat_app.
      repeat split.
      * lia.
      * eapply ranges_tile_app; eauto.
      * now rewrite Hc1, Hc2.
  - simpl in H. inversion H; subst. unfold strlen. simpl.
    repeat split; auto; lia.
Qed.

(** X3. The entries of [extractTextNodesWithPositions(element)] tile the
    text of the element from 0 to its length, each spanning exactly the
    length of its text node, and the texts in order spell
    [element.textContent]. *)
Theorem extractTextNodesWithPositions_tile_text (e : Element) (cs : list node) :
  ranges_tile 0 (map ts_range (extractTextNodesWithPositions e cs))
              (strlen (textContent (ElemNode e cs))) /\
  concat (map ts_text (extractTextNodesWithPositions e cs))
  = textContent (ElemNode e cs).
Proof.
  unfold extractTextNodesWithPositions.
  destruct (textSpans e (ElemNode e cs) 0) as [l p] eqn:E.
  destruct (textSpans_spec _ _ _ _ _ E) as (Hp & Ht & Hc).
  simpl fst. split; [|exact Hc]. now rewrite Hp in Ht.
Qed.

(* ================================================================== *)
(** * The node map as a map *)
(* ================================================================== *)

Lemma children_cons_elem e cs rest :
  children (ElemNode e cs :: rest) = ElemNode e cs :: children rest.
Proof. reflexivity. Qed.

(** The entries made for the element children of [cs], which are
    numbered from [index]: each is the entry of an element found under
    one of them. *)
Lemma process_sound n :
  forall path depth parent r,
    In r (processNode n path depth parent) ->
    exists rel e cs,
      nr_path r = path ++ rel /\
      elementAt n rel = Some (ElemNode e cs) /\
      nr_signature r = signatureOf e cs /\
      nr_textContent r = textContent (ElemNode e cs) /\
      nr_highlighted r = false.
Proof.
  induction n as [data|e cs IH|] using node_tree_ind;
    intros path depth parent r; [intros []| |intros []].
  rewrite processNode_children. intros [Hr|Hin].
  - subst r. exists [], e, cs. simpl. rewrite app_nil_r.
    repeat split; reflexivity.
  - assert (Hcs : forall index,
      In r (processChildren cs index path (S depth)) ->
      exists k c rel e' cs',
        nth_error (children cs) k = Some c /\
        nr_path r = path ++ (index + k)%nat :: rel /\
        elementAt c rel = Some (ElemNode e' cs') /\
        nr_signature r = signatureOf e' cs' /\
        nr_textContent r = textContent (ElemNode e' cs') /\
        nr_highlighted r = false).
    { clear Hin. induction IH as [|c cs Hc _ IHcs]; intros index Hin;
        [destruct Hin|].
      cbn [processChildren] in Hin.
      destruct c as [d|e' cs'|]; try (now apply (IHcs index)).
      apply in_app_or in Hin as [Hin|Hin].
      - destruct (Hc _ _ _ _ Hin) as (rel & e2 & cs2 & Hp & He & Hs & Ht & Hh).
        exists 0%nat, (ElemNode e' cs'), rel, e2, cs2.
        rewrite Nat.add_0_r, Hp, <- app_assoc. simpl.
        repeat split; try reflexivity; assumption.
      - destruct (IHcs (S index) Hin)
          as (k & c & rel & e2 & cs2 & Hn & Hp & He & Hs & Ht & Hh).
        exists (S k), c, rel, e2, cs2. rewrite children_cons_elem. simpl.
        replace (index + S k)%nat with (S index + k)%nat by lia.
        repeat split; try reflexivity; assumption. }
    destruct (Hcs 0%nat Hin)
      as (k & c & rel & e2 & cs2 & Hn & Hp & He & Hs & Ht & Hh).
    exists (k :: rel), e2, cs2. simpl. rewrite Hn.
    repeat split; try reflexivity; assumption.
Qed.

Lemma processChildren_sound cs index path depth r :
  In r (processChildren cs index path depth) ->
  exists k c rel e' cs',
    nth_error (children cs) k = Some c /\
    nr_path r = path ++ (index + k)%nat :: rel /\
    elementAt c rel = Some (ElemNode e' cs') /\
    nr_signature r = signatureOf e' cs' /\
    nr_textContent r = textContent (ElemNode e' cs') /\
    nr_highlighted r = false.
Proof.
  revert index. induction cs as [|c cs IH]; intros index Hin; [destruct Hin|].
  cbn [processChildren] in Hin.
  destruct c as [d|e' cs'|]; try (now apply (IH index)).
  apply in_app_or in Hin as [Hin|Hin].
  - destruct (process_sound _ _ _ _ _ Hin)
      as (rel & e2 & cs2 & Hp & He & Hs & Ht & Hh).
    exists 0%nat, (ElemNode e' cs'), rel, e2, cs2.
    rewrite Nat.add_0_r, Hp, <- app_assoc. simpl.
        repeat split; try reflexivity; assumption.
  - destruct (IH (S index) Hin)
      as (k & c & rel & e2 & cs2 & Hn & Hp & He & Hs & Ht & Hh).
    exists (S k), c, rel, e2, cs2. rewrite children_cons_elem. simpl.
    replace (index + S k)%nat with (S index + k)%nat by lia.
        repeat split; try reflexivity; assumption.
Qed.

Lemma process_complete n :
  forall rel e cs path depth parent,
    is_element n = true ->
    elementAt n rel = Some (ElemNode e cs) ->
    In (path ++ rel) (map nr_path (processNode n path depth parent)).
Proof.
  induction n as [data|e0 cs0 IH|] using node_tree_ind;
    intros rel e cs path depth parent Hel Hat; try discriminate.
  rewrite processNode_children. destruct rel as [|k rel].
  - left. simpl. now rewrite app_nil_r.
  - right. simpl in Hat.
    destruct (nth_error (children cs0) k) as [c|] eqn:Hn; [|discriminate].
    assert (Hcs : forall index,
      In (path ++ (index + k)%nat :: rel)
         (map nr_path (processChildren cs0 index path (S depth)))).
    { revert k Hn. induction IH as [|c0 cs0 Hc0 _ IHcs]; intros k Hn index.
      - destruct k; discriminate.
      - cbn [processChildren].
        destruct c0 as [d|e' cs'|]; try (now apply IHcs).
        rewrite children_cons_elem in Hn. rewrite map_app. apply in_or_app.
        destruct k as [|k].
        + left. simpl in Hn. inversion Hn; subst c.
          rewrite Nat.add_0_r.
          replace (path ++ index :: rel) with ((path ++ [index]) ++ rel)
            by (rewrite <- app_assoc; reflexivity).
          eapply Hc0; eauto.
        + right. simpl in Hn.
          replace (index + S k)%nat with (S index + k)%nat by lia.
          now apply IHcs. }
    apply (Hcs 0%nat).
Qed.

Lemma processChildren_complete cs k c rel e' cs' index path depth :
  nth_error (children cs) k = Some c ->
  elementAt c rel = Some (ElemNode e' cs') ->
  In (path ++ (index + k)%nat :: rel)
     (map nr_path (processChildren cs index path depth)).
Proof.
  revert k index. induction cs as [|c0 cs IH]; intros k index Hn Hat.
  - destruct k; discriminate.
  - cbn [processChildren].
    destruct c0 as [d|e0 cs0|]; try (now apply IH).
    rewrite children_cons_elem in Hn. rewrite map_app. apply in_or_app.
    destruct k as [|k].
    + left. simpl in Hn. inversion Hn; subst c.
      rewrite Nat.add_0_r.
      replace (path ++ index :: rel) with ((path ++ [index]) ++ rel)
        by (rewrite <- app_assoc; reflexivity).
      eapply process_complete; eauto.
    + right. simpl in Hn.
      replace (index + S k)%nat with (S index + k)%nat by lia.
      now apply IH.
Qed.

Lemma children_are_elements cs k c :
  nth_error (children cs) k = Some c -> is_element c = true.
Proof.
  intros H. apply nth_error_In in H. unfold children in H.
  now apply filter_In in H as [_ ?].
Qed.

(** X4. The node map describes the elements below the container, one
    entry each.  A path is a key exactly when it is not empty and leads,
    through element children, to an element; the entry found under it
    then holds the signature and the text content of that element, is
    not flagged, has the path without its last index as parent and the
    number of indices after the first as depth. *)
Theorem createNodeMap_lookup (container : node) (path : Path) :
  (forall r, getRecord (createNodeMap container) path = Some r ->
     path <> [] /\
     exists e cs,
       elementAt container path = Some (ElemNode e cs) /\
       nr_signature r = signatureOf e cs /\
       nr_textContent r = textContent (ElemNode e cs) /\
       nr_highlighted r = false /\
       nr_parent r = removelast path /\
       length path = S (nr_depth r)) /\
  (path <> [] ->
   forall e cs, elementAt container path = Some (ElemNode e cs) ->
   exists r, getRecord (createNodeMap container) path = Some r).
Proof.
  split.
  - intros r Hr. apply getRecord_some in Hr as [Hin Hp].
    destruct (createNodeMap_wf container) as [Hwf _].
    destruct (proj1 (Forall_forall _ _) Hwf r Hin) as (Hne & Hpar & Hlen).
    rewrite Hp in Hne, Hpar, Hlen. split; [exact Hne|].
    destruct (processChildren_sound _ _ _ _ _ Hin)
      as (k & c & rel & e & cs & Hn & Hpath & Hat & Hs & Ht & Hh).
    exists e, cs. rewrite <- Hp, Hpath in *. simpl. rewrite Hn.
    repeat split; try reflexivity; assumption.
  - intros Hne e cs Hat. apply getRecord_exists.
    destruct path as [|k rel]; [congruence|].
    simpl in Hat.
    destruct (nth_error (children (childNodesOf container)) k) as [c|] eqn:Hn;
      [|discriminate].
    exact (processChildren_complete _ _ _ _ _ _ 0%nat [] 0%nat Hn Hat).
Qed.

(** X5. The keys of the node map are pairwise distinct, every entry has
    as parent its own path without the last index, and every parent path
    other than the container's is itself a key. *)
Theorem createNodeMap_keys (container : node) :
  NoDup (map nr_path (createNodeMap container)) /\
  (forall r, In r (createNodeMap container) ->
     nr_path r <> [] /\
     nr_parent r = removelast (nr_path r) /\
     (nr_parent r = [] \/
      exists parentNode,
        getRecord (createNodeMap container) (nr_parent r) = Some parentNode)).
Proof.
  split; [apply createNodeMap_NoDup|].
  intros r Hin. destruct (createNodeMap_wf container) as [Hwf Hcl].
  destruct (proj1 (Forall_forall _ _) Hwf r Hin) as (Hne & Hpar & _).
  repeat split; auto.
  destruct (Hcl r Hin) as [Hnil|Hp]; [now left|].
  right. now apply getRecord_exists.
Qed.

Lemma createNodeMap_lookup_witness :
  exists r,
    getRecord (createNodeMap
                 (containerOf [elem "UL" [elem "LI" [TextNode (js "A")]]]))
              [0; 0]%nat = Some r /\
    nr_signature r = js "li:1" /\ nr_textContent r = js "A".
Proof.
  destruct (proj2 (createNodeMap_lookup
                     (containerOf [elem "UL" [elem "LI" [TextNode (js "A")]]])
                     [0; 0]%nat)
              ltac:(discriminate) _ _ eq_refl) as (r & Hr).
  exists r. split; [exact Hr|].
  destruct (proj1 (createNodeMap_lookup _ _) r Hr)
    as (_ & e & cs & Hat & Hs & Ht & _).
  simpl in Hat. inversion Hat; subst. split; [exact Hs|exact Ht].
Defined.

Lemma createNodeMap_keys_witness :
  nr_parent {| nr_signature := js "li:1"; nr_textContent := js "A";
               nr_path := [0; 0]%nat; nr_depth := 1;
               nr_highlighted := false; nr_parent := [0%nat] |}
  = [0%nat].
Proof.
  destruct (proj2 (createNodeMap_keys
                     (containerOf [elem "UL" [elem "LI" [TextNode (js "A")]]]))
              {| nr_signature := js "li:1"; nr_textContent := js "A";
                 nr_path := [0; 0]%nat; nr_depth := 1;
                 nr_highlighted := false; nr_parent := [0%nat] |})
    as (_ & Hpar & _).
  - vm_compute. right. left. reflexivity.
  - exact Hpar.
Defined.

(* ================================================================== *)
(** * Ancestors in the node map *)
(* ================================================================== *)

Lemma ancestorLoop_sound nm :
  Forall wf_entry nm ->
  forall fuel cp,
    ancestorLoop fuel nm (Some cp) = true ->
    exists p r s, cp = p ++ s /\ getRecord nm p = Some r /\
                  nr_highlighted r = true.
Proof.
  intros Hwf. induction fuel as [|fuel IH]; intros cp H; [discriminate|].
  cbn [ancestorLoop] in H.
  destruct (getRecord nm cp) as [rc|] eqn:Erc.
  - destruct (nr_highlighted rc) eqn:Ehl.
    + exists cp, rc, []. rewrite app_nil_r. auto.
    + destruct (getRecord_some _ _ _ Erc) as [Hin Hp].
      destruct (proj1 (Forall_forall _ _) Hwf rc Hin) as (Hne & Hpar & _).
      rewrite Hpar, Hp in H.
      destruct (IH _ H) as (p & r & s & Hs & Hr & Hh).
      exists p, r, (s ++ [last cp 0%nat]). repeat split; auto.
      rewrite app_assoc, <- Hs. apply app_removelast_last. congruence.
  - destruct fuel; discriminate.
Qed.

Lemma hasHighlightedAncestor_sound nm q :
  Forall wf_entry nm ->
  hasHighlightedAncestor nm q = true ->
  exists p r, is_strict_prefix p q = true /\
              getRecord nm p = Some r /\ nr_highlighted r = true.
Proof.
  intros Hwf H. unfold hasHighlightedAncestor in H.
  destruct (getRecord nm q) as [rq|] eqn:Erq; [|discriminate].
  destruct (getRecord_some _ _ _ Erq) as [Hin Hp].
  destruct (proj1 (Forall_forall _ _) Hwf rq Hin) as (Hne & Hpar & _).
  rewrite Hpar, Hp in H. rewrite Hp in Hne.
  destruct (ancestorLoop_sound nm Hwf _ _ H) as (p & r & s & Hs & Hr & Hh).
  exists p, r. repeat split; auto.
  apply is_strict_prefix_spec.
  rewrite (app_removelast_last 0%nat Hne), Hs, <- app_assoc.
  destruct s as [|x s]; simpl; eauto.
Qed.



Lemma StronglySorted_after {A : Type} (R : A -> A -> Prop) l1 x l2 :
  StronglySorted R (l1 ++ x :: l2) -> forall y, In y l2 -> R x y.
Proof.
  induction l1 as [|a l1 IH]; simpl; intros H y Hy.
  - inversion H; subst. exact (proj1 (Forall_forall _ _) H3 y Hy).
  - inversion H; subst. now apply IH.
Qed.

(** X7. In the order in which the passes walk the node map
    ([sortNodesByDepth] of [createNodeMap]), every element comes after
    all of its ancestors. *)
Theorem ancestors_are_visited_first (container : node) (p q : Path) :
  is_strict_prefix p q = true ->
  In p (map nr_path (createNodeMap container)) ->
  In q (map nr_path (createNodeMap container)) ->
  exists l1 l2 l3,
    map nr_path (sortNodesByDepth (createNodeMap container))
    = l1 ++ p :: l2 ++ q :: l3.
Proof.
  intros Hpq Hp Hq.
  set (sorted := sortNodesByDepth (createNodeMap container)).
  assert (Hin : forall x, In x (map nr_path (createNodeMap container)) ->
                          exists r, In r sorted /\ nr_path r = x).
  { intros x Hx. apply in_map_iff in Hx as (r & Hr & Hi).
    exists r. split; [now apply sortNodesByDepth_in|exact Hr]. }
  assert (Hlen : forall r, In r sorted -> length (nr_path r) = S (nr_depth r)).
  { intros r Hr. apply (proj1 (sortNodesByDepth_in _ _)) in Hr.
    destruct (createNodeMap_wf container) as [Hwf _].
    now destruct (proj1 (Forall_forall _ _) Hwf r Hr) as (_ & _ & ?). }
  destruct (Hin q Hq) as (rq & Hrq & Hpq').
  destruct (Hin p Hp) as (rp & Hrp & Hpp).
  destruct (in_split _ _ Hrq) as (a & b & Hs).
  pose proof (sortNodesByDepth_sorted (createNodeMap container)) as Hsorted.
  fold sorted in Hsorted. rewrite Hs in Hsorted, Hrp.
  apply in_app_or in Hrp as [Ha|[Heq|Hb]].
  - destruct (in_split _ _ Ha) as (a1 & a2 & Ha12).
    exists (map nr_path a1), (map nr_path a2), (map nr_path b).
    rewrite Hs, Ha12. rewrite <- Hpp, <- Hpq'.
    repeat (rewrite map_app || rewrite <- app_assoc || cbn [map app]).
    reflexivity.
  - exfalso. subst rp. apply is_strict_prefix_length in Hpq.
    rewrite <- Hpp, <- Hpq' in Hpq. lia.
  - exfalso. pose proof (StronglySorted_after _ _ _ _ Hsorted rp Hb) as Hd.
    unfold depth_le in Hd. apply is_strict_prefix_length in Hpq.
    rewrite <- Hpp, <- Hpq' in Hpq.
    rewrite (Hlen rq), (Hlen rp) in Hpq; [lia| |];
      rewrite Hs; apply in_or_app; right; simpl; auto.
Qed.

Lemma ancestors_are_visited_first_witness :
  exists l1 l2 l3,
    map nr_path
      (sortNodesByDepth
         (createNodeMap
            (containerOf [elem "UL" [elem "LI" [TextNode (js "A")]];
                          elem "P" []])))
    = l1 ++ [0%nat] :: l2 ++ [0; 0]%nat :: l3.
Proof.
  apply (ancestors_are_visited_first
           (containerOf [elem "UL" [elem "LI" [TextNode (js "A")]];
                         elem "P" []])
           [0%nat] [0; 0]%nat eq_refl).
  - vm_compute. left. reflexivity.
  - vm_compute. right. left. reflexivity.
Defined.

(* ================================================================== *)
(** * What the pairs, marks and flags of a pass are *)
(* ================================================================== *)

Lemma firstCandidate_some fits new sortedNew rn :
  firstCandidate fits new sortedNew = Some rn ->
  In rn sortedNew /\ fits rn = true /\
  ~ In (nr_path rn) (processed new).
Proof.
  unfold firstCandidate. intros H. apply find_some in H as [Hin Hc].
  apply andb_true_iff in Hc as [Hel Hfit].
  apply negb_true_iff, orb_false_iff in Hel as [_ Hmem].
  repeat split; auto. intros Hp. apply mem_path_true in Hp. congruence.
Qed.

Lemma markAsHighlighted_in nm p r :
  In r (markAsHighlighted nm p) ->
  exists r0, In r0 nm /\ nr_path r = nr_path r0 /\
             (nr_highlighted r = true ->
              nr_highlighted r0 = true \/ nr_path r0 = p).
Proof.
  unfold markAsHighlighted. intros H.
  apply in_map_iff in H as (r0 & Hr & Hin).
  exists r0. split; [exact Hin|].
  destruct (path_eqb (nr_path r0) p) eqn:E; subst r.
  - apply path_eqb_eq in E. simpl. auto.
  - auto.
Qed.

Lemma getRecord_of_In nm r :
  NoDup (map nr_path nm) -> In r nm -> getRecord nm (nr_path r) = Some r.
Proof.
  unfold getRecord. induction nm as [|x nm IH]; intros Hnd Hin; [destruct Hin|].
  simpl in Hnd. inversion Hnd as [|? ? Hx Hnd']; subst. simpl.
  destruct Hin as [->|Hin].
  - now rewrite path_eqb_refl.
  - destruct (path_eqb (nr_path x) (nr_path r)) eqn:E; [|now apply IH].
    exfalso. apply path_eqb_eq in E. apply Hx. rewrite E. now apply in_map.
Qed.

Lemma pairs_inv_pairUp sortedOld sortedNew st ro rn :
  pairs_inv sortedOld sortedNew st ->
  In ro sortedOld -> In rn sortedNew ->
  nr_signature ro = nr_signature rn ->
  ~ In (nr_path ro) (map fst (nodeMapping st)) ->
  ~ In (nr_path rn) (processed (newSide st)) ->
  pairs_inv sortedOld sortedNew (pairUp (nr_path ro) (nr_path rn) st).
Proof.
  intros (J1 & J2 & J3 & J4 & J5 & J6 & J7 & J8) Hro Hrn Hsig Hno Hnn.
  unfold pairs_inv, pairUp. simpl. repeat split.
  - destruct H as [E|H]; [inversion E; now left|].
    right. now apply (J1 o n).
  - destruct H as [E|H]; [inversion E; now left|].
    right. now apply (J1 o n).
  - destruct H as [E|H].
    + inversion E; subst. exists ro, rn. auto.
    + now apply (J1 o n).
  - constructor; assumption.
  - constructor; [|assumption]. intros Hin. apply Hnn.
    apply in_map_iff in Hin as ([o n] & Hn & Hin). simpl in Hn. subst n.
    now apply (J1 o (nr_path rn)).
  - intros p [<-|Hp]; [now left|]. right. now apply J4.
  - intros p [<-|Hp]; [now left|]. right. now apply J5.
  - assumption.
  - assumption.
  - intros c Hc. right. now apply J8.
Qed.

(** Step 2.1 keeps the invariant; it writes no flag. *)
Lemma exactPass_pairs sortedOld sortedNew :
  NoDup (map nr_path sortedOld) ->
  forall rest visited st,
    sortedOld = visited ++ rest ->
    unflagged (nodeMap (oldSide st)) ->
    pairs_inv sortedOld sortedNew st ->
    (forall p, In p (map fst (nodeMapping st)) ->
               In p (map nr_path visited)) ->
    let st' := exactPass rest sortedNew st in
    pairs_inv sortedOld sortedNew st' /\
    nodeMap (oldSide st') = nodeMap (oldSide st) /\
    nodeMap (newSide st') = nodeMap (newSide st) /\
    highlightCalls st' = highlightCalls st.
Proof.
  intros Hnd rest. induction rest as [|o rest IH];
    intros visited st Hs Hu Hinv Hvis; simpl.
  - auto.
  - rewrite (hasHighlightedAncestor_unflagged _ _ Hu).
    assert (Hs' : sortedOld = (visited ++ [o]) ++ rest)
      by (now rewrite <- app_assoc).
    destruct (firstCandidate _ (newSide st) sortedNew) as [rn|] eqn:E.
    + apply firstCandidate_some in E as (Hrn & Hfit & Hnn).
      apply andb_true_iff in Hfit as [Hsig _]. apply str_eqb_eq in Hsig.
      assert (Hno : ~ In (nr_path o) (map fst (nodeMapping st))).
      { intros Hin. apply Hvis in Hin.
        rewrite Hs, map_app in Hnd. simpl in Hnd.
        apply NoDup_remove_2 in Hnd. apply Hnd, in_or_app. now left. }
      specialize (IH (visited ++ [o]) (pairUp (nr_path o) (nr_path rn) st) Hs').
      simpl in IH. apply IH; auto.
      * apply pairs_inv_pairUp; auto.
        rewrite Hs. apply in_or_app. right. now left.
      * intros p [<-|Hp]; rewrite map_app; apply in_or_app.
        -- right. now left.
        -- left. now apply Hvis.
    + apply (IH (visited ++ [o]) st Hs'); auto.
      intros p Hp. rewrite map_app. apply in_or_app. left. now apply Hvis.
Qed.

Lemma pairStructural_pairs dmp sortedOld sortedNew st ro rn :
  pairs_inv sortedOld sortedNew st ->
  In ro sortedOld -> In rn sortedNew ->
  nr_signature ro = nr_signature rn ->
  ~ In (nr_path ro) (processed (oldSide st)) ->
  ~ In (nr_path rn) (processed (newSide st)) ->
  pairs_inv sortedOld sortedNew (outcomeState (pairStructural dmp ro rn st)).
Proof.
  intros Hinv Hro Hrn Hsig Hno Hnn.
  assert (Hp : pairs_inv sortedOld sortedNew
                 (pairUp (nr_path ro) (nr_path rn) st)).
  { apply pairs_inv_pairUp; auto.
    destruct Hinv as (J1 & _). intros Hin.
    apply in_map_iff in Hin as ([o n] & Ho & Hin). simpl in Ho. subst o.
    apply Hno. now apply (J1 (nr_path ro) n). }
  unfold pairStructural.
  destruct (performDiff dmp (nr_textContent ro) (nr_textContent rn))
    as [diffs|]; [|exact Hp].
  destruct (hasSignificantChanges diffs); [|exact Hp].
  destruct Hp as (J1 & J2 & J3 & J4 & J5 & J6 & J7 & J8).
  unfold pairs_inv, markTextDifferences. simpl in *. repeat split; auto.
  - now apply (J1 o n).
  - now apply (J1 o n).
  - now apply (J1 o n).
  - intros r Hr Hh. rewrite map_app. apply in_or_app.
    apply markAsHighlighted_in in Hr as (r0 & Hr0 & Hpath & Hflag).
    rewrite Hpath. destruct (Hflag Hh) as [Hh0|Hp0].
    + left. now apply J6.
    + right. simpl. now left.
  - intros r Hr Hh. rewrite map_app. apply in_or_app.
    apply markAsHighlighted_in in Hr as (r0 & Hr0 & Hpath & Hflag).
    rewrite Hpath. destruct (Hflag Hh) as [Hh0|Hp0].
    + left. now apply J7.
    + right. simpl. now left.
  - intros c Hc. apply in_app_or in Hc as [Hc|[<-|[]]].
    + now apply J8.
    + now left.
Qed.

Lemma structuralPass_pairs dmp sortedOld sortedNew :
  forall rest st,
    (forall o, In o rest -> In o sortedOld) ->
    pairs_inv sortedOld sortedNew st ->
    pairs_inv sortedOld sortedNew
      (outcomeState (structuralPass dmp rest sortedNew st)).
Proof.
  induction rest as [|o rest IH]; intros st Hsub Hinv; simpl; [exact Hinv|].
  assert (Hsub' : forall x, In x rest -> In x sortedOld)
    by (intros; apply Hsub; now right).
  destruct (mem_path (nr_path o) (processed (oldSide st))) eqn:Em; simpl.
  - now apply IH.
  - destruct (hasHighlightedAncestor (nodeMap (oldSide st)) (nr_path o));
      [now apply IH|].
    destruct (firstCandidate _ (newSide st) sortedNew) as [rn|] eqn:E;
      [|now apply IH].
    apply firstCandidate_some in E as (Hrn & Hfit & Hnn).
    apply str_eqb_eq in Hfit.
    assert (Hp : pairs_inv sortedOld sortedNew
                   (outcomeState (pairStructural dmp o rn st))).
    { apply pairStructural_pairs; auto.
      - apply Hsub. now left.
      - intros Hin. apply mem_path_true in Hin. congruence. }
    destruct (pairStructural dmp o rn st) as [st'|st']; simpl in *.
    + now apply IH.
    + exact Hp.
Qed.

(** The state before step 2.3, or the one an exception left. *)
Lemma matching_pairs dmp oldContainer newContainer :
  let st0 := initialState oldContainer newContainer in
  let so := sortNodesByDepth (createNodeMap oldContainer) in
  let sn := sortNodesByDepth (createNodeMap newContainer) in
  pairs_inv so sn (outcomeState (structuralPass dmp so sn (exactPass so sn st0))).
Proof.
  intros st0 so sn.
  assert (Hnd : NoDup (map nr_path so)).
  { eapply Permutation_NoDup; [|apply (createNodeMap_NoDup oldContainer)].
    apply Permutation_map. symmetry. apply sortNodesByDepth_perm. }
  destruct (exactPass_pairs so sn Hnd so [] st0 eq_refl
              (createNodeMap_unflagged oldContainer)) as (H1 & _).
  - unfold pairs_inv, st0. simpl. repeat split; try constructor;
      try (intros; contradiction).
    + intros r Hr Hh.
      pose proof (createNodeMap_unflagged oldContainer) as Hu.
      rewrite (proj1 (Forall_forall _ _) Hu r Hr) in Hh. discriminate.
    + intros r Hr Hh.
      pose proof (createNodeMap_unflagged newContainer) as Hu.
      rewrite (proj1 (Forall_forall _ _) Hu r Hr) in Hh. discriminate.
  - intros p [].
  - apply structuralPass_pairs; auto.
Qed.

(** Step 2.3 on one side: the invariant is kept, marks are only added,
    and every entry walked ends classified. *)
Lemma residualPass_total platform ct M H sorted :
  forall s,
    wf_map (nodeMap s) ->
    residual_ok M H s ->
    let s' := residualPass platform ct sorted s in
    residual_ok M H s' /\
    (forall p, In p (marked s) -> In p (marked s')) /\
    (forall n, In n sorted -> classified M H (marked s') (nr_path n)).
Proof.
  induction sorted as [|n rest IH]; intros s Hwf Hok; simpl.
  - repeat split; auto; try apply Hok. intros n [].
  - destruct (mem_path (nr_path n) (processed s)) eqn:Em; simpl.
    + destruct (IH s Hwf Hok) as (Hok' & Hmono & Hcl).
      repeat split; auto; try apply Hok'.
      intros m [<-|Hm]; [|now apply Hcl].
      apply mem_path_true in Em. destruct Hok as (_ & Hp & _).
      destruct (Hp _ Em) as [HM|(a & Ha & Hpre)].
      * now left.
      * right. right. exists a. split; [exact Hpre|]. left. now apply Hmono.
    + destruct (hasHighlightedAncestor (nodeMap s) (nr_path n)) eqn:Eh.
      * destruct (IH s Hwf Hok) as (Hok' & Hmono & Hcl).
        repeat split; auto; try apply Hok'.
        intros m [<-|Hm]; [|now apply Hcl].
        apply hasHighlightedAncestor_sound in Eh as (a & r & Hpre & Hr & Hh);
          [|apply Hwf].
        apply getRecord_some in Hr as [Hin Hpa]. subst a.
        destruct Hok as (_ & _ & Hfl & _).
        right. right. exists (nr_path r). split; [exact Hpre|].
        destruct (Hfl r Hin Hh) as [HH|Hm']; [now right|].
        left. now apply Hmono.
      * set (s1 := {| tree := updateElement (nr_path n)
                                (markNodeAsChanged platform ct) (tree s);
                      nodeMap := markAsHighlighted (nodeMap s) (nr_path n);
                      processed :=
                        filter (is_strict_prefix (nr_path n))
                               (map nr_path (nodeMap s)) ++ processed s;
                      marked := marked s ++ [nr_path n] |}).
        assert (Hnp : ~ In (nr_path n) (processed s)).
        { intros Hin. apply mem_path_true in Hin. congruence. }
        destruct Hok as (HM & Hp & Hfl & Hmk).
        assert (Hok1 : residual_ok M H s1).
        { unfold residual_ok, s1. simpl. repeat split.
          - intros p Hp'. apply in_or_app. right. now apply HM.
          - intros p Hp'. apply in_app_or in Hp' as [Hd|Hp'].
            + right. exists (nr_path n).
              apply filter_In in Hd as [_ Hd].
              split; [apply in_or_app; right; now left|exact Hd].
            + destruct (Hp _ Hp') as [?|(a & Ha & Hpre)]; [now left|].
              right. exists a. split; [apply in_or_app; now left|exact Hpre].
          - intros r Hr Hh.
            apply markAsHighlighted_in in Hr as (r0 & Hr0 & Hpath & Hflag).
            rewrite Hpath. destruct (Hflag Hh) as [Hh0|Hp0].
            + destruct (Hfl r0 Hr0 Hh0) as [?|?]; [now left|].
              right. apply in_or_app. now left.
            + right. apply in_or_app. right. now left.
          - intros p Hp' HpM. apply in_app_or in Hp' as [Hp'|[<-|[]]].
            + now apply (Hmk p).
            + apply Hnp. now apply HM. }
        assert (Hwf1 : wf_map (nodeMap s1)).
        { eapply wf_map_skeleton; [apply skeleton_markAsHighlighted|exact Hwf]. }
        destruct (IH s1 Hwf1 Hok1) as (Hok' & Hmono & Hcl).
        repeat split; auto; try apply Hok'.
        -- intros p Hp'. apply Hmono. apply in_or_app. now left.
        -- intros m [<-|Hm]; [|now apply Hcl].
           right. left. apply Hmono. apply in_or_app. right. now left.
Qed.

Lemma sorted_elements container ro :
  In ro (sortNodesByDepth (createNodeMap container)) ->
  getRecord (createNodeMap container) (nr_path ro) = Some ro /\
  exists e cs,
    elementAt container (nr_path ro) = Some (ElemNode e cs) /\
    nr_signature ro = signatureOf e cs.
Proof.
  intros Hin. apply (proj1 (sortNodesByDepth_in _ _)) in Hin. split.
  - apply getRecord_of_In; [apply createNodeMap_NoDup|exact Hin].
  - destruct (processChildren_sound _ _ _ _ _ Hin)
      as (k & c & rel & e & cs & Hn & Hpath & Hat & Hs & _).
    exists e, cs. rewrite Hpath. simpl. rewrite Hn. auto.
Qed.

(** X8. Every pair that a pass of the aligner makes, whether it returns
    or is cut short by an exception, joins an element of the old
    container and an element of the new container that have the same
    signature (tag, attributes outside the editor's own, number of child
    nodes). *)
Theorem paired_elements_have_equal_signatures
  (dmp : Dmp) (platform : Platform) (oldContainer newContainer : node)
  (o n : Path) :
  In (o, n)
     (nodeMapping
        (outcomeState
           (deepCompareAndMarkChanges dmp platform oldContainer newContainer))) ->
  exists e cs e' cs',
    elementAt oldContainer o = Some (ElemNode e cs) /\
    elementAt newContainer n = Some (ElemNode e' cs') /\
    signatureOf e cs = signatureOf e' cs'.
Proof.
  unfold deepCompareAndMarkChanges.
  pose proof (matching_pairs dmp oldContainer newContainer) as Hinv.
  cbv zeta in Hinv. cbn [initialState oldSide newSide nodeMap] in *.
  destruct (structuralPass dmp _ _ _) as [st2|st2]; simpl in *; intros Hin;
    destruct Hinv as (J1 & _);
    destruct (J1 o n Hin) as (_ & _ & ro & rn & Hro & Hrn & Ho & Hn & Hsig);
    destruct (sorted_elements _ _ Hro) as (_ & e & cs & Hat & Hs);
    destruct (sorted_elements _ _ Hrn) as (_ & e' & cs' & Hat' & Hs');
    exists e, cs, e', cs'; subst o n; repeat split; auto; congruence.
Qed.

(** X9. The pairing of a pass is one to one: no element of the old
    container and no element of the new container is in two pairs; and
    the highlight applicator is only ever called on a pair. *)
Theorem pairing_is_one_to_one
  (dmp : Dmp) (platform : Platform) (oldContainer newContainer : node) :
  let st := outcomeState
              (deepCompareAndMarkChanges dmp platform oldContainer newContainer) in
  NoDup (map fst (nodeMapping st)) /\
  NoDup (map snd (nodeMapping st)) /\
  incl (highlightCalls st) (nodeMapping st).
Proof.
  unfold deepCompareAndMarkChanges.
  pose proof (matching_pairs dmp oldContainer newContainer) as Hinv.
  cbv zeta in Hinv. cbn [initialState oldSide newSide nodeMap] in *.
  destruct (structuralPass dmp _ _ _) as [st2|st2]; simpl in *;
    destruct Hinv as (_ & J2 & J3 & _ & _ & _ & _ & J8); auto.
Qed.

Lemma pairs_inv_residual_old so sn st :
  pairs_inv so sn st -> marked (oldSide st) = [] ->
  residual_ok (map fst (nodeMapping st)) (map fst (highlightCalls st))
              (oldSide st).
Proof.
  intros (J1 & _ & _ & J4 & _ & J6 & _) Hm. unfold residual_ok.
  rewrite Hm. repeat split.
  - intros p Hp. apply in_map_iff in Hp as ([o n] & <- & Hin).
    now apply (J1 o n).
  - intros p Hp. left. now apply J4.
  - intros r Hr Hh. left. now apply J6.
  - intros p [].
Qed.

Lemma pairs_inv_residual_new so sn st :
  pairs_inv so sn st -> marked (newSide st) = [] ->
  residual_ok (map snd (nodeMapping st)) (map snd (highlightCalls st))
              (newSide st).
Proof.
  intros (J1 & _ & _ & _ & J5 & _ & J7 & _) Hm. unfold residual_ok.
  rewrite Hm. repeat split.
  - intros p Hp. apply in_map_iff in Hp as ([o n] & <- & Hin).
    now apply (J1 o n).
  - intros p Hp. left. now apply J5.
  - intros r Hr Hh. left. now apply J7.
  - intros p [].
Qed.

(** The facts of a completed pass from which the next theorems are
    read. *)
Lemma completed_pass_facts dmp platform oldContainer newContainer st :
  deepCompareAndMarkChanges dmp platform oldContainer newContainer = Done st ->
  let Mo := map fst (nodeMapping st) in
  let Ho := map fst (highlightCalls st) in
  let Mn := map snd (nodeMapping st) in
  let Hn := map snd (highlightCalls st) in
  residual_ok Mo Ho (oldSide st) /\ residual_ok Mn Hn (newSide st) /\
  (forall r, In r (createNodeMap oldContainer) ->
             classified Mo Ho (marked (oldSide st)) (nr_path r)) /\
  (forall r, In r (createNodeMap newContainer) ->
             classified Mn Hn (marked (newSide st)) (nr_path r)).
Proof.
  unfold deepCompareAndMarkChanges.
  pose proof (matching_pairs dmp oldContainer newContainer) as Hinv.
  cbv zeta in Hinv.
  set (st0 := initialState oldContainer newContainer) in *.
  change (nodeMap (oldSide st0)) with (createNodeMap oldContainer).
  change (nodeMap (newSide st0)) with (createNodeMap newContainer).
  set (so := sortNodesByDepth (createNodeMap oldContainer)) in *.
  set (sn := sortNodesByDepth (createNodeMap newContainer)) in *.
  pose proof (exactPass_same_maps so sn st0) as H1.
  pose proof (structuralPass_same_maps dmp so sn (exactPass so sn st0)) as H2.
  pose proof (same_maps_trans _ _ _ H1 H2) as (Hso & Hsn & Hmo & Hmn).
  destruct (structuralPass dmp so sn (exactPass so sn st0)) as [st2|st2];
    [|intros E; discriminate E].
  simpl in Hinv, Hso, Hsn, Hmo, Hmn.
  intros E. inversion E; subst st; clear E. simpl.
  destruct (residualPass_total platform removed
              (map fst (nodeMapping st2)) (map fst (highlightCalls st2))
              so (oldSide st2)) as (Ho1 & _ & Ho3).
  { eapply wf_map_skeleton; [exact Hso|apply createNodeMap_wf]. }
  { eapply pairs_inv_residual_old; eauto. }
  destruct (residualPass_total platform added
              (map snd (nodeMapping st2)) (map snd (highlightCalls st2))
              sn (newSide st2)) as (Hn1 & _ & Hn3).
  { eapply wf_map_skeleton; [exact Hsn|apply createNodeMap_wf]. }
  { eapply pairs_inv_residual_new; eauto. }
  repeat split; try apply Ho1; try apply Hn1.
  - intros r Hr. apply Ho3. now apply sortNodesByDepth_in.
  - intros r Hr. apply Hn3. now apply sortNodesByDepth_in.
Qed.

(** X10. When a pass of the aligner returns, no element is left
    unclassified: every element under the old container is paired, or
    marked removed, or lies under an element that was marked removed or
    highlighted; and likewise, with added for removed, every element
    under the new container. *)
Theorem every_element_is_classified
  (dmp : Dmp) (platform : Platform) (oldContainer newContainer : node)
  (st : AlignState) :
  deepCompareAndMarkChanges dmp platform oldContainer newContainer = Done st ->
  (forall r, In r (createNodeMap oldContainer) ->
     classified (map fst (nodeMapping st)) (map fst (highlightCalls st))
                (marked (oldSide st)) (nr_path r)) /\
  (forall r, In r (createNodeMap newContainer) ->
     classified (map snd (nodeMapping st)) (map snd (highlightCalls st))
                (marked (newSide st)) (nr_path r)).
Proof.
  intros H. destruct (completed_pass_facts _ _ _ _ _ H) as (_ & _ & Ho & Hn).
  now split.
Qed.

(** X11. An element handed to [markNodeAsChanged] is never one of a
    pair: the elements marked removed or added are elements for which no
    partner was found. *)
Theorem marked_elements_are_unpaired
  (dmp : Dmp) (platform : Platform) (oldContainer newContainer : node)
  (st : AlignState) :
  deepCompareAndMarkChanges dmp platform oldContainer newContainer = Done st ->
  (forall p, In p (marked (oldSide st)) ->
             ~ In p (map fst (nodeMapping st))) /\
  (forall p, In p (marked (newSide st)) ->
             ~ In p (map snd (nodeMapping st))).
Proof.
  intros H. destruct (completed_pass_facts _ _ _ _ _ H) as (Ho & Hn & _).
  split; [apply Ho|apply Hn].
Qed.

Lemma paired_elements_have_equal_signatures_witness :
  exists e cs e' cs',
    elementAt (containerOf [elem "UL" [elem "LI" [TextNode (js "A")]]])
              [0; 0]%nat = Some (ElemNode e cs) /\
    elementAt (containerOf [elem "OL" [elem "LI" [TextNode (js "A")]]])
              [0; 0]%nat = Some (ElemNode e' cs') /\
    signatureOf e cs = signatureOf e' cs'.
Proof.
  apply (paired_elements_have_equal_signatures simple_dmp example_platform
           (containerOf [elem "UL" [elem "LI" [TextNode (js "A")]]])
           (containerOf [elem "OL" [elem "LI" [TextNode (js "A")]]])
           [0; 0]%nat [0; 0]%nat).
  vm_compute. left. reflexivity.
Defined.

Lemma every_element_is_classified_witness :
  let st := outcomeState
              (deepCompareAndMarkChanges simple_dmp example_platform
                 (containerOf [elem "UL" [elem "LI" [TextNode (js "A")]]])
                 (containerOf [elem "OL" [elem "LI" [TextNode (js "A")]]])) in
  Forall
    (fun r => classified (map fst (nodeMapping st))
                         (map fst (highlightCalls st))
                         (marked (oldSide st)) (nr_path r))
    (createNodeMap (containerOf [elem "UL" [elem "LI" [TextNode (js "A")]]])).
Proof.
  intros st. apply Forall_forall.
  exact (proj1 (every_element_is_classified simple_dmp example_platform
                  (containerOf [elem "UL" [elem "LI" [TextNode (js "A")]]])
                  (containerOf [elem "OL" [elem "LI" [TextNode (js "A")]]])
                  st eq_refl)).
Defined.

Lemma marked_elements_are_unpaired_witness :
  let st := outcomeState
              (deepCompareAndMarkChanges simple_dmp example_platform
                 (containerOf [elem "UL" [elem "LI" [TextNode (js "A")]]])
                 (containerOf [elem "OL" [elem "LI" [TextNode (js "A")]]])) in
  In [0%nat] (marked (oldSide st)) /\
  ~ In [0%nat] (map fst (nodeMapping st)).
Proof.
  intros st. split; [vm_compute; left; reflexivity|].
  apply (proj1 (marked_elements_are_unpaired simple_dmp example_platform
                  (containerOf [elem "UL" [elem "LI" [TextNode (js "A")]]])
                  (containerOf [elem "OL" [elem "LI" [TextNode (js "A")]]])
                  st eq_refl)).
  vm_compute. left. reflexivity.
Defined.

(* ================================================================== *)
(** * The aligner and the text of the containers *)
(* ================================================================== *)

Lemma updateElement_text f :
  (forall n, textContent (f n) = textContent n) ->
  forall n path, textContent (updateElement path f n) = textContent n.
Proof.
  intros Hf n. induction n as [data|e cs IH|] using node_tree_ind;
    intros [|index path]; simpl; auto.
  revert index. induction IH as [|c cs Hc _ IHcs]; intros index; [reflexivity|].
  destruct (is_original c).
  - destruct index as [|index]; simpl.
    + now rewrite Hc.
    + now rewrite IHcs.
  - simpl. now rewrite IHcs.
Qed.

Lemma markNodeAsChanged_text platform ct n :
  textContent (markNodeAsChanged platform ct n) = textContent n.
Proof.
  destruct n as [d|e cs|]; simpl; auto.
  destruct (negb (isHTMLElement e)); [reflexivity|].
  destruct (backgroundWasChanged platform _ && truthy _); reflexivity.
Qed.

Lemma highlightOn_text ct drop diffs p s :
  textContent (tree (highlightOn ct drop diffs p s)) = textContent (tree s).
Proof.
  unfold highlightOn. simpl. apply updateElement_text.
  intros [d|e cs|]; auto. apply highlightSide_text.
Qed.

Lemma exactPass_trees so sn st :
  tree (oldSide (exactPass so sn st)) = tree (oldSide st) /\
  tree (newSide (exactPass so sn st)) = tree (newSide st).
Proof.
  revert st. induction so as [|o rest IH]; intros st; simpl; [auto|].
  destruct (hasHighlightedAncestor (nodeMap (oldSide st)) (nr_path o)).
  - destruct (IH {| oldSide := addProcessed (nr_path o) (oldSide st);
                    newSide := newSide st;
                    nodeMapping := nodeMapping st;
                    highlightCalls := highlightCalls st |}) as [-> ->]. auto.
  - destruct (firstCandidate _ (newSide st) sn) as [n|]; [|apply IH].
    destruct (IH (pairUp (nr_path o) (nr_path n) st)) as [-> ->]. auto.
Qed.

Lemma structuralPass_text dmp so sn st :
  let st' := outcomeState (structuralPass dmp so sn st) in
  textContent (tree (oldSide st')) = textContent (tree (oldSide st)) /\
  textContent (tree (newSide st')) = textContent (tree (newSide st)).
Proof.
  revert st. induction so as [|o rest IH]; intros st; simpl; [auto|].
  destruct (mem_path (nr_path o) (processed (oldSide st))
            || hasHighlightedAncestor (nodeMap (oldSide st)) (nr_path o));
    [apply IH|].
  destruct (firstCandidate _ (newSide st) sn) as [n|]; [|apply IH].
  assert (Hp : textContent (tree (oldSide (outcomeState (pairStructural dmp o n st))))
               = textContent (tree (oldSide st)) /\
               textContent (tree (newSide (outcomeState (pairStructural dmp o n st))))
               = textContent (tree (newSide st))).
  { unfold pairStructural.
    destruct (performDiff dmp (nr_textContent o) (nr_textContent n))
      as [diffs|]; [|auto].
    destruct (hasSignificantChanges diffs); [|auto].
    simpl. split; apply highlightOn_text. }
  destruct (pairStructural dmp o n st) as [st'|st']; simpl in *.
  - destruct (IH st') as [-> ->]. exact Hp.
  - exact Hp.
Qed.

Lemma residualPass_text platform ct sorted s :
  textContent (tree (residualPass platform ct sorted s)) = textContent (tree s).
Proof.
  revert s. induction sorted as [|n rest IH]; intros s; simpl; [reflexivity|].
  destruct (mem_path (nr_path n) (processed s)
            || hasHighlightedAncestor (nodeMap s) (nr_path n)); [apply IH|].
  rewrite IH. simpl. apply updateElement_text.
  intros m. apply markNodeAsChanged_text.
Qed.

Lemma aligner_text
  (dmp : Dmp) (platform : Platform) (oldContainer newContainer : node) :
  let st := outcomeState
              (deepCompareAndMarkChanges dmp platform oldContainer newContainer) in
  textContent (tree (oldSide st)) = textContent oldContainer /\
  textContent (tree (newSide st)) = textContent newContainer.
Proof.
  unfold deepCompareAndMarkChanges.
  set (st0 := initialState oldContainer newContainer).
  set (so := sortNodesByDepth (nodeMap (oldSide st0))).
  set (sn := sortNodesByDepth (nodeMap (newSide st0))).
  destruct (exactPass_trees so sn st0) as [E1 E2].
  pose proof (structuralPass_text dmp so sn (exactPass so sn st0)) as [T1 T2].
  rewrite E1 in T1. rewrite E2 in T2.
  destruct (structuralPass dmp so sn (exactPass so sn st0)) as [st2|st2];
    simpl in *.
  - now rewrite !residualPass_text.
  - auto.
Qed.

(** X12. The node aligner never changes the text of a container: in the
    state a pass ends in, returned or cut short, both trees have the
    [textContent] they had when the pass began. *)
Theorem aligner_keeps_text
  (dmp : Dmp) (platform : Platform) (oldContainer newContainer : node) :
  let st := outcomeState
              (deepCompareAndMarkChanges dmp platform oldContainer newContainer) in
  textContent (tree (oldSide st)) = textContent oldContainer /\
  textContent (tree (newSide st)) = textContent newContainer.
Proof.
  exact (aligner_text dmp platform oldContainer newContainer).
Qed.

(* ================================================================== *)
(** * A pass and the text of the containers *)
(* ================================================================== *)

Lemma has_double_space_firstn n s :
  has_double_space (firstn n s) -> has_double_space s.
Proof.
  intros (a & b & H). exists a, (b ++ skipn n s).
  rewrite <- (firstn_skipn n s) at 1. rewrite H, <- app_assoc. reflexivity.
Qed.

Lemma has_double_space_skipn n s :
  has_double_space (skipn n s) -> has_double_space s.
Proof.
  intros (a & b & H). exists (firstn n s ++ a), b.
  rewrite <- (firstn_skipn n s) at 1. rewrite H, <- app_assoc. reflexivity.
Qed.

Lemma has_double_space_substring s a b :
  has_double_space (substring s a b) -> has_double_space s.
Proof.
  unfold substring. intros H.
  apply has_double_space_firstn, has_double_space_skipn in H. exact H.
Qed.

Lemma has_double_space_substring_from s a :
  has_double_space (substring_from s a) -> has_double_space s.
Proof. apply has_double_space_skipn. Qed.

Lemma optional_plain (t : str) :
  plain t ->
  Forall plain (flat_map textNodesOf (if truthy t then [TextNode t] else [])).
Proof. intros H. destruct (truthy t); simpl; auto. Qed.

Lemma wordFragment_plain ct parent content ls le :
  plain content ->
  Forall plain (flat_map textNodesOf (wordFragment ct parent content ls le)).
Proof.
  intros H. unfold wordFragment. rewrite !flat_map_app.
  apply Forall_app; split; [|apply Forall_app; split].
  - apply optional_plain. intros Hd. now apply has_double_space_substring in Hd.
  - unfold markerSpan. cbn [flat_map textNodesOf]. rewrite app_nil_r.
    apply optional_plain. intros Hd. now apply has_double_space_substring in Hd.
  - apply optional_plain. intros Hd.
    now apply has_double_space_substring_from in Hd.
Qed.

Lemma applyAffected_plain ct affected rs :
  (forall k ts ls le, In (k, ts, ls, le) affected -> plain (ts_text ts)) ->
  plain_fragments rs -> plain_fragments (applyAffected ct affected rs).
Proof.
  revert rs. induction affected as [|[[[k ts] ls] le] affected IH];
    intros rs Haff Hrs; simpl; [exact Hrs|].
  assert (Haff' : forall k ts ls le, In (k, ts, ls, le) affected ->
                                     plain (ts_text ts))
    by (intros; eapply Haff; right; eauto).
  destruct (str_eqb (trim (substring (ts_text ts) ls le)) []);
    [now apply IH|].
  apply IH; [exact Haff'|].
  intros j fragment Hj. apply nth_error_set_nth in Hj as [[-> Hv]|Hj].
  - inversion Hv; subst. apply wordFragment_plain.
    apply (Haff k ts ls le). now left.
  - now apply (Hrs j).
Qed.

Lemma applyWordHighlighting_plain textNodes words ct :
  Forall plain (map ts_text textNodes) ->
  plain_fragments (applyWordHighlighting textNodes words ct).
Proof.
  intros Hp. unfold applyWordHighlighting.
  assert (H0 : plain_fragments (repeat None (length textNodes))).
  { intros k fragment Hk. apply nth_error_In, repeat_spec in Hk. discriminate. }
  revert H0. generalize (repeat (@None (list node)) (length textNodes)).
  induction (groupWords None words) as [|g gs IH]; intros rs Hrs; simpl;
    [exact Hrs|].
  apply IH. unfold applyGroup. destruct (negb (g_isChanged g)); [exact Hrs|].
  apply applyAffected_plain; [|exact Hrs].
  intros k ts ls le Hin.
  destruct (affectedNodes_sound _ _ _ _ _ _ _ _ Hin) as (Hn & _ & _).
  apply nth_error_In in Hn.
  apply (proj1 (Forall_forall _ _) Hp). now apply in_map.
Qed.

Lemma plain_fragments_skipn n rs :
  plain_fragments rs -> plain_fragments (skipn n rs).
Proof.
  intros H k fragment Hk. rewrite nth_error_skipn in Hk. now apply (H _ _ Hk).
Qed.

Lemma replaceTextNodes_plain n :
  forall rs,
    no_space_runs n -> plain_fragments rs ->
    Forall plain (flat_map textNodesOf (fst (replaceTextNodes n rs))) /\
    plain_fragments (snd (replaceTextNodes n rs)).
Proof.
  unfold no_space_runs.
  induction n as [data|e cs IH|] using node_tree_ind; intros rs Hn Hrs.
  - destruct rs as [|[fragment|] rs]; simpl.
    + split; [exact Hn|exact Hrs].
    + split; [apply (Hrs 0%nat fragment eq_refl)|].
      intros k f Hk. now apply (Hrs (S k) f).
    + split; [exact Hn|].
      intros k f Hk. now apply (Hrs (S k) f).
  - cbn [replaceTextNodes textNodesOf] in *.
    assert (Hcs :
      Forall plain
        (flat_map textNodesOf
           (fst ((fix each (cs0 : list node) (rs0 : Replacements)
                    {struct cs0} : list node * Replacements :=
                    match cs0 with
                    | [] => ([], rs0)
                    | c :: cs1 =>
                        let (l1, rs1) := replaceTextNodes c rs0 in
                        let (l2, rs2) := each cs1 rs1 in (l1 ++ l2, rs2)
                    end) cs rs))) /\
      plain_fragments
        (snd ((fix each (cs0 : list node) (rs0 : Replacements)
                 {struct cs0} : list node * Replacements :=
                 match cs0 with
                 | [] => ([], rs0)
                 | c :: cs1 =>
                     let (l1, rs1) := replaceTextNodes c rs0 in
                     let (l2, rs2) := each cs1 rs1 in (l1 ++ l2, rs2)
                 end) cs rs))).
    { revert rs Hrs Hn. induction IH as [|c cs Hc _ IHcs]; intros rs Hrs Hn.
      - split; [constructor|exact Hrs].
      - cbn [flat_map] in Hn. apply Forall_app in Hn as [Hn1 Hn2].
        destruct (Hc rs Hn1 Hrs) as [Hf1 Hr1].
        destruct (replaceTextNodes c rs) as [l1 rs1]. cbn [fst snd] in *.
        destruct (IHcs rs1 Hr1 Hn2) as [Hf2 Hr2].
        destruct ((fix each (cs0 : list node) (rs0 : Replacements)
                     {struct cs0} : list node * Replacements :=
                     match cs0 with
                     | [] => ([], rs0)
                     | c0 :: cs1 =>
                         let (l1, rs2) := replaceTextNodes c0 rs0 in
                         let (l2, rs3) := each cs1 rs2 in (l1 ++ l2, rs3)
                     end) cs rs1) as [l2 rs2].
        cbn [fst snd] in *. split; [|exact Hr2].
        rewrite flat_map_app. apply Forall_app. now split. }
    destruct ((fix each (cs0 : list node) (rs0 : Replacements)
                 {struct cs0} : list node * Replacements :=
                 match cs0 with
                 | [] => ([], rs0)
                 | c :: cs1 =>
                     let (l1, rs1) := replaceTextNodes c rs0 in
                     let (l2, rs2) := each cs1 rs1 in (l1 ++ l2, rs2)
                 end) cs rs) as [cs' rs'].
    cbn [fst snd flat_map textNodesOf] in *. rewrite app_nil_r. exact Hcs.
  - simpl. split; [constructor|exact Hrs].
Qed.

Lemma highlightSide_plain ct drop diffs e cs :
  no_space_runs (ElemNode e cs) ->
  no_space_runs (highlightSide ct drop diffs e cs).
Proof.
  intros Hn. unfold highlightSide.
  set (rs := applyWordHighlighting _ _ ct).
  destruct (replaceTextNodes_plain (ElemNode e cs) rs Hn) as [Hf _].
  { apply applyWordHighlighting_plain.
    unfold extractTextNodesWithPositions. rewrite textSpans_texts. exact Hn. }
  destruct (fst (replaceTextNodes (ElemNode e cs) rs)) as [|n [|n' l]];
    try exact Hn.
  unfold no_space_runs. simpl in Hf. now rewrite app_nil_r in Hf.
Qed.

Lemma updateElement_plain f :
  (forall n, no_space_runs n -> no_space_runs (f n)) ->
  forall n path, no_space_runs n -> no_space_runs (updateElement path f n).
Proof.
  unfold no_space_runs. intros Hf n.
  induction n as [data|e cs IH|] using node_tree_ind;
    intros [|index path] Hn; try (now apply Hf); simpl; auto.
  cbn [textNodesOf] in Hn. revert index Hn.
  induction IH as [|c cs Hc _ IHcs]; intros index Hn; [constructor|].
  cbn [flat_map] in Hn. apply Forall_app in Hn as [Hn1 Hn2].
  destruct (is_original c).
  - destruct index as [|index]; cbn [flat_map]; apply Forall_app; split;
      auto.
  - cbn [flat_map]. apply Forall_app. split; auto.
Qed.

Lemma markNodeAsChanged_plain platform ct n :
  no_space_runs n -> no_space_runs (markNodeAsChanged platform ct n).
Proof.
  unfold no_space_runs. destruct n as [d|e cs|]; simpl; auto.
  destruct (negb (isHTMLElement e)); [auto|].
  destruct (backgroundWasChanged platform _ && truthy _); auto.
Qed.

Lemma structuralPass_plain dmp so sn st :
  no_space_runs (tree (oldSide st)) -> no_space_runs (tree (newSide st)) ->
  let st' := outcomeState (structuralPass dmp so sn st) in
  no_space_runs (tree (oldSide st')) /\ no_space_runs (tree (newSide st')).
Proof.
  revert st. induction so as [|o rest IH]; intros st Ho Hn; simpl; [auto|].
  destruct (mem_path (nr_path o) (processed (oldSide st))
            || hasHighlightedAncestor (nodeMap (oldSide st)) (nr_path o));
    [now apply IH|].
  destruct (firstCandidate _ (newSide st) sn) as [n|]; [|now apply IH].
  assert (Hp : no_space_runs (tree (oldSide (outcomeState (pairStructural dmp o n st)))) /\
               no_space_runs (tree (newSide (outcomeState (pairStructural dmp o n st))))).
  { unfold pairStructural.
    destruct (performDiff dmp (nr_textContent o) (nr_textContent n))
      as [diffs|]; [|auto].
    destruct (hasSignificantChanges diffs); [|auto].
    simpl. split; apply updateElement_plain; auto;
      intros [d|e cs|] Hm; auto; now apply highlightSide_plain. }
  destruct (pairStructural dmp o n st) as [st'|st']; simpl in *.
  - apply IH; apply Hp.
  - exact Hp.
Qed.

Lemma residualPass_plain platform ct sorted s :
  no_space_runs (tree s) ->
  no_space_runs (tree (residualPass platform ct sorted s)).
Proof.
  revert s. induction sorted as [|n rest IH]; intros s Hs; simpl; [exact Hs|].
  destruct (mem_path (nr_path n) (processed s)
            || hasHighlightedAncestor (nodeMap s) (nr_path n)); [now apply IH|].
  apply IH. simpl. apply updateElement_plain; auto.
  intros m. apply markNodeAsChanged_plain.
Qed.

Lemma aligner_plain dmp platform oldContainer newContainer :
  no_space_runs oldContainer -> no_space_runs newContainer ->
  let st := outcomeState
              (deepCompareAndMarkChanges dmp platform oldContainer newContainer) in
  no_space_runs (tree (oldSide st)) /\ no_space_runs (tree (newSide st)).
Proof.
  intros Ho Hn. unfold deepCompareAndMarkChanges.
  set (st0 := initialState oldContainer newContainer).
  set (so := sortNodesByDepth (nodeMap (oldSide st0))).
  set (sn := sortNodesByDepth (nodeMap (newSide st0))).
  destruct (exactPass_trees so sn st0) as [E1 E2].
  pose proof (structuralPass_plain dmp so sn (exactPass so sn st0)) as Hp.
  rewrite E1, E2 in Hp. destruct (Hp Ho Hn) as [P1 P2].
  destruct (structuralPass dmp so sn (exactPass so sn st0)) as [st2|st2];
    simpl in *.
  - split; now apply residualPass_plain.
  - auto.
Qed.

(** X13. Over inputs in which no text node holds two consecutive
    spaces, the steps of a pass of [processSideBySideDiff] never change
    the text: however the pass ends (completed, with a failure caught,
    or with an exception left uncaught), each container holds a tree
    with the [textContent] of its rendered input, or, at the end of a
    completed text-diff pass, what the parser reads from the markup of
    such a tree. *)
Theorem pass_keeps_text_up_to_reparse
  (dmp : Dmp) (platform : Platform) (oldHtml newHtml : str) :
  let oldContainer := containerOf (render platform oldHtml) in
  let newContainer := containerOf (render platform newHtml) in
  no_space_runs oldContainer -> no_space_runs newContainer ->
  let r := passResult (processSideBySideDiff dmp platform oldHtml newHtml) in
  exists oldTree newTree,
    textContent oldTree = textContent oldContainer /\
    textContent newTree = textContent newContainer /\
    ((r_old r = oldTree /\ r_new r = newTree) \/
     (r_old r = reparsed platform oldTree /\
      r_new r = reparsed platform newTree)).
Proof.
  intros oldContainer newContainer Ho Hn.
  pose proof (aligner_text dmp platform oldContainer newContainer)
    as [T1 T2].
  pose proof (aligner_plain dmp platform oldContainer newContainer Ho Hn)
    as [P1 P2].
  cbv zeta in T1, T2, P1, P2.
  unfold processSideBySideDiff. fold oldContainer newContainer.
  unfold highlightChanges, markStructuralChanges.
  destruct (str_eqb (textContent oldContainer) (textContent newContainer)
            && negb (str_eqb oldHtml newHtml)).
  - destruct (deepCompareAndMarkChanges dmp platform oldContainer newContainer)
      as [st|st]; cbn [outcomeState] in *; cbn [passResult r_old r_new].
    + rewrite !markWhitespaceChanges_plain by assumption.
      exists (tree (oldSide st)), (tree (newSide st)). auto.
    + exists (tree (oldSide st)), (tree (newSide st)). auto.
  - destruct (performDiff dmp (textContent oldContainer)
                (textContent newContainer)) as [diffs|];
      [|exists oldContainer, newContainer; cbn; auto].
    destruct (deepCompareAndMarkChanges dmp platform oldContainer newContainer)
      as [st|st]; cbn [outcomeState] in *.
    + destruct (changeRanges 0 0 diffs) as [oc nc].
      cbn [passResult r_old r_new].
      rewrite !markWhitespaceChanges_plain by assumption.
      eexists. eexists. split; [|split; [|right; split; reflexivity]].
      * now rewrite applyTextNodeChanges_text.
      * now rewrite applyTextNodeChanges_text.
    + exists oldContainer, newContainer. cbn. auto.
Qed.

Lemma no_space_runs_check (n : node) :
  forallb (fun t => match exec_spaces t with None => true | Some _ => false end)
          (textNodesOf n) = true ->
  no_space_runs n.
Proof.
  unfold no_space_runs. intros H. apply Forall_forall. intros t Ht.
  apply (proj1 (forallb_forall _ _) H) in Ht.
  apply plain_check. now destruct (exec_spaces t).
Qed.

Lemma pass_keeps_text_up_to_reparse_witness :
  let r := passResult (processSideBySideDiff simple_dmp example_platform
                         (js "<p>Hello world</p>") (js "<p>Hello there</p>")) in
  no_space_runs (containerOf (render example_platform (js "<p>Hello world</p>"))) /\
  no_space_runs (containerOf (render example_platform (js "<p>Hello there</p>"))) /\
  exists oldTree newTree,
    textContent oldTree = js "Hello world" /\
    textContent newTree = js "Hello there" /\
    ((r_old r = oldTree /\ r_new r = newTree) \/
     (r_old r = reparsed example_platform oldTree /\
      r_new r = reparsed example_platform newTree)).
Proof.
  assert (Ho : no_space_runs (containerOf (render example_platform
                                             (js "<p>Hello world</p>"))))
    by (apply no_space_runs_check; vm_compute; reflexivity).
  assert (Hn : no_space_runs (containerOf (render example_platform
                                             (js "<p>Hello there</p>"))))
    by (apply no_space_runs_check; vm_compute; reflexivity).
  split; [exact Ho|]. split; [exact Hn|].
  exact (pass_keeps_text_up_to_reparse simple_dmp example_platform
           (js "<p>Hello world</p>") (js "<p>Hello there</p>") Ho Hn).
Defined.

(* ================================================================== *)
(** * The markup of the whitespace highlighter *)
(* ================================================================== *)

Lemma span_rest cls s m r :
  span cls s = (m, r) -> forall c r', r = c :: r' -> cls c = false.
Proof.
  revert m r. induction s as [|a s IH]; intros m r; simpl.
  - intros H; inversion H; subst. discriminate.
  - destruct (cls a) eqn:Ea.
    + destruct (span cls s) as [m' r0] eqn:Es.
      intros H; inversion H; subst. eapply IH; eauto.
    + intros H; inversion H; subst. intros c r' Hr. inversion Hr; subst.
      exact Ea.
Qed.

Lemma forallb_spaces (m : str) :
  forallb (N.eqb SPACE) m = true -> Forall (eq SPACE) m.
Proof.
  induction m as [|c m IH]; simpl; [constructor|].
  intros H. apply andb_true_iff in H as [Hc Hm].
  constructor; [now apply N.eqb_eq|auto].
Qed.

Lemma plain_nil : plain [].
Proof. intros (a & b & H). destruct a; discriminate. Qed.

Lemma exec_spaces_match s sk m r :
  exec_spaces s = Some (sk, m, r) ->
  s = sk ++ m ++ r /\ plain sk /\ (forall t', sk <> t' ++ [SPACE]) /\
  (2 <= length m)%nat /\ Forall (eq SPACE) m /\
  (forall r', r <> SPACE :: r').
Proof.
  revert sk m r. induction s as [|c s IH]; intros sk m r; [discriminate|].
  cbn [exec_spaces].
  destruct (span (N.eqb SPACE) (c :: s)) as [m0 r0] eqn:Es.
  destruct (Nat.leb_spec 2 (length m0)) as [Hlen|Hlen].
  - intros H; inversion H; subst. repeat split.
    + simpl. now apply (span_app (N.eqb SPACE)).
    + apply plain_nil.
    + intros t' Ht. now destruct t'.
    + exact Hlen.
    + apply forallb_spaces. eapply span_all; eauto.
    + intros r' ->. pose proof (span_rest _ _ _ _ Es _ _ eq_refl) as Hc.
      now rewrite N.eqb_refl in Hc.
  - destruct (exec_spaces s) as [[[sk' m'] r']|] eqn:E; [|discriminate].
    intros H; inversion H; subst.
    destruct (IH _ _ _ eq_refl) as (Hs & Hp & Hend & Hl & Hm & Hr).
    assert (Hshort : forall b, c :: s <> SPACE :: SPACE :: b).
    { intros b Hb. rewrite Hb in Es. pose proof (span_spaces_long b) as Hl'.
      rewrite Es in Hl'. cbn [fst] in Hl'. lia. }
    repeat split; auto.
    + simpl. now rewrite Hs.
    + intros (a & b & Hab). destruct a as [|c' a]; cbn [app] in Hab.
      * inversion Hab; subst. apply (Hshort (b ++ m ++ r)). reflexivity.
      * inversion Hab; subst. apply Hp. now exists a, b.
    + intros t' Ht. destruct t' as [|c' t']; cbn [app] in Ht.
      * inversion Ht; subst.
        destruct m as [|x m]; [simpl in Hl; lia|].
        inversion Hm; subst. apply (Hshort (m ++ r)). reflexivity.
      * inversion Ht; subst. now apply (Hend t').
Qed.

Lemma whitespaceMarkup_spec fuel :
  forall content, (length content < fuel)%nat ->
                  marks_runs content (whitespaceMarkup fuel content).
Proof.
  induction fuel as [|fuel IH]; intros content Hlen; [lia|].
  cbn [whitespaceMarkup].
  destruct (exec_spaces content) as [[[sk m] r]|] eqn:E.
  - destruct (exec_spaces_match _ _ _ _ E) as (Hs & Hp & Hend & Hl & Hm & Hr).
    subst content. apply marks_run; auto.
    apply IH. rewrite !length_app in Hlen. lia.
  - apply marks_none. now apply plain_check.
Qed.

(** X14. [newContent], the markup that [markWhitespaceChanges] builds for
    a text node, is the text of the node with every maximal run of two
    or more literal spaces put between the tags of the whitespace
    marker; single spaces and all other characters are copied as they
    are. *)
Theorem newContent_marks_every_space_run (content : str) :
  marks_runs content (newContent content).
Proof. unfold newContent. apply whitespaceMarkup_spec. lia. Qed.

Lemma newContent_runs (content : str) :
  marks_runs content (whitespaceMarkup (S (length content)) content).
Proof. apply whitespaceMarkup_spec. lia. Qed.

Lemma marks_runs_length content markup :
  marks_runs content markup ->
  (plain content /\ markup = content) \/
  (has_double_space content /\ (length content < length markup)%nat).
Proof.
  induction 1 as [s Hs|t sp rest markup Ht Hend Hl Hsp Hr Hm IH].
  - left. auto.
  - right. split.
    + destruct sp as [|a [|b sp]]; simpl in Hl; try lia.
      inversion Hsp as [|? ? Ha Hsp']; subst.
      inversion Hsp' as [|? ? Hb _]; subst.
      exists t, (sp ++ rest). reflexivity.
    + assert (length rest <= length markup)%nat
        by (destruct IH as [[_ ->]|[_ IH]]; lia).
      rewrite !length_app. simpl. lia.
Qed.

(** X15. [markWhitespaceChanges] leaves a text node without two
    consecutive spaces as it is, and replaces every other text node by a
    fresh [span] whose content is parsed from [newContent]. *)
Theorem markWhitespaceNode_cases (platform : Platform) (content : str) :
  (plain content /\
   markWhitespaceNode platform content = TextNode content) \/
  (has_double_space content /\
   markWhitespaceNode platform content =
     ElemNode (newSpan []) (parseHTML platform (newContent content))).
Proof.
  unfold markWhitespaceNode.
  destruct (marks_runs_length _ _ (newContent_runs content))
    as [[Hp E]|[Hd Hlen]].
  - left. split; [exact Hp|]. fold (newContent content) in E.
    rewrite E, str_eqb_refl. now rewrite andb_false_r.
  - right. split; [exact Hd|]. fold (newContent content) in Hlen.
    assert (Ht : truthy (newContent content) = true).
    { destruct (newContent content); [simpl in Hlen; lia|reflexivity]. }
    assert (Hne : str_eqb (newContent content) content = false).
    { destruct (str_eqb (newContent content) content) eqn:E; [|reflexivity].
      apply str_eqb_eq in E. rewrite E in Hlen. lia. }
    now rewrite Ht, Hne.
Qed.

(* ================================================================== *)
(** * The tokens of the two tokenizers *)
(* ================================================================== *)

Lemma wordPattern_here s m r :
  match_here wordPattern s = Some (m, r) ->
  forallb is_wordchar m = true \/ (exists c, m = [c] /\ is_punct c = true).
Proof.
  unfold wordPattern, match_here, match_alt.
  destruct (span is_wordchar s) as [m0 r0] eqn:Es.
  destruct m0 as [|c m0].
  - destruct s as [|c s]; [discriminate|].
    destruct (is_punct c) eqn:Ep; [|discriminate].
    intros H; inversion H; subst. right. eauto.
  - intros H; inversion H; subst. left. eapply span_all; eauto.
Qed.

Lemma wordPattern_here_none c s :
  match_here wordPattern (c :: s) = None -> is_space c = true.
Proof.
  unfold wordPattern, match_here, match_alt.
  destruct (is_wordchar c) eqn:Ew.
  - destruct (span_head is_wordchar c s Ew) as (m & r & ->). discriminate.
  - assert (Hs : span is_wordchar (c :: s) = ([], c :: s))
      by (simpl; now rewrite Ew).
    rewrite Hs. destruct (is_punct c) eqn:Ep; [discriminate|].
    intros _. unfold is_wordchar in Ew. rewrite Ep, orb_false_r in Ew.
    now apply negb_false_iff in Ew.
Qed.

Lemma exec_wordPattern_some s sk m r :
  exec wordPattern s = Some (sk, m, r) ->
  forallb is_space sk = true /\
  (forallb is_wordchar m = true \/ (exists c, m = [c] /\ is_punct c = true)).
Proof.
  revert sk m r. induction s as [|c s IH]; intros sk m r; cbn [exec].
  - destruct (match_here wordPattern []) as [[m' r']|] eqn:E; [|discriminate].
    intros H; inversion H; subst. split; [reflexivity|].
    eapply wordPattern_here; eauto.
  - destruct (match_here wordPattern (c :: s)) as [[m' r']|] eqn:E.
    + intros H; inversion H; subst. split; [reflexivity|].
      eapply wordPattern_here; eauto.
    + destruct (exec wordPattern s) as [[[sk' m'] r']|] eqn:E'; [|discriminate].
      intros H; inversion H; subst.
      destruct (IH _ _ _ eq_refl) as [Hsk Hm]. split; [|exact Hm].
      simpl. now rewrite (wordPattern_here_none _ _ E), Hsk.
Qed.

Lemma exec_wordPattern_none s :
  exec wordPattern s = None -> forallb is_space s = true.
Proof.
  induction s as [|c s IH]; cbn [exec]; [reflexivity|].
  destruct (match_here wordPattern (c :: s)) as [[m' r']|] eqn:E;
    [discriminate|].
  destruct (exec wordPattern s) as [[[sk' m'] r']|] eqn:E'; [discriminate|].
  intros _. simpl. now rewrite (wordPattern_here_none _ _ E), IH.
Qed.

Lemma forceWords_loop_tokens fuel op text d :
  In d (forceWords_loop fuel op text) ->
  fst d = op /\ snd d <> [] /\ token_shape (snd d).
Proof.
  revert text. induction fuel as [|fuel IH]; intros text; [intros []|].
  cbn [forceWords_loop].
  destruct (exec wordPattern text) as [[[sk m] r]|] eqn:E.
  - pose proof (exec_wordPattern_some _ _ _ _ E) as [Hsk Hm].
    apply exec_sound in E as [_ Hne].
    intros Hin. apply in_app_or in Hin as [Hin|[<-|Hin]].
    + destruct sk as [|c sk]; [destruct Hin|]. destruct Hin as [<-|[]].
      simpl. repeat split; [discriminate|]. now left.
    + simpl. repeat split; [exact Hne|]. now right.
    + now apply (IH r).
  - apply exec_wordPattern_none in E.
    destruct text as [|c text]; [intros []|]. intros [<-|[]].
    simpl. repeat split; [discriminate|]. now left.
Qed.

Lemma forceDiffByWords_one_equal (d : DiffOp) :
  filter (fun x : DiffOp => fst x =? 0) (forceDiffByWords_one d)
  = filter (fun x : DiffOp => fst x =? 0) [d].
Proof.
  destruct d as [op text]. unfold forceDiffByWords_one.
  destruct (Z.eqb_spec op 0) as [->|Hop]; [reflexivity|].
  destruct (only_whitespace text); [reflexivity|].
  cbn [filter fst]. destruct (Z.eqb_spec op 0) as [|_]; [contradiction|].
  assert (H : forall l : list DiffOp,
             (forall x, In x l -> fst x = op) ->
             filter (fun x : DiffOp => fst x =? 0) l = []).
  { induction l as [|x l IH]; intros Hl; [reflexivity|].
    cbn [filter]. rewrite (Hl x (or_introl eq_refl)).
    destruct (Z.eqb_spec op 0) as [|_]; [contradiction|].
    apply IH. intros y Hy. apply Hl. now right. }
  apply H. intros x Hx. now apply forceWords_loop_tokens in Hx.
Qed.

(** X16. [forceDiffByWords] passes the unchanged operations through as
    they are, none dropped and none added; every fragment it returns
    for a changed operation carries that operation, is not empty, and is
    a token: white space only, word characters only, or a single
    punctuation character. *)
Theorem forceDiffByWords_fragments_are_tokens (diffs : list DiffOp) :
  filter (fun d : DiffOp => fst d =? 0) (forceDiffByWords diffs)
  = filter (fun d : DiffOp => fst d =? 0) diffs /\
  forall d : DiffOp,
    In d (forceDiffByWords diffs) ->
    (fst d = 0 /\ In d diffs) \/
    (fst d <> 0 /\ snd d <> [] /\ token_shape (snd d) /\
     exists source, In source diffs /\ fst source = fst d).
Proof.
  split.
  { unfold forceDiffByWords. induction diffs as [|x diffs IH]; [reflexivity|].
    cbn [flat_map]. rewrite filter_app, forceDiffByWords_one_equal, IH.
    cbn [filter]. now destruct (fst x =? 0). }
  unfold forceDiffByWords. intros d Hin.
  apply in_flat_map in Hin as ([op text] & Hsrc & Hd).
  unfold forceDiffByWords_one in Hd.
  destruct (Z.eqb_spec op 0) as [->|Hop].
  - destruct Hd as [<-|[]]. left. auto.
  - right. destruct (only_whitespace text) eqn:Ew.
    + destruct Hd as [<-|[]]. simpl.
      apply andb_true_iff in Ew as [Ht Hs].
      repeat split; auto.
      * now apply truthy_true.
      * now left.
      * exists (op, text). auto.
    + destruct (forceWords_loop_tokens _ _ _ _ Hd) as (Hf & Hne & Hsh).
      repeat split; auto; try congruence.
      exists (op, text). split; [exact Hsrc|]. now rewrite Hf.
Qed.

Lemma forceDiffByWords_fragments_are_tokens_witness :
  let diffs := [(0, js "Hello "); (-1, js "world, there")] in
  let d := (-1, js "world") in
  In d (forceDiffByWords diffs) /\
  ((fst d = 0 /\ In d diffs) \/
   (fst d <> 0 /\ snd d <> [] /\ token_shape (snd d) /\
    exists source, In source diffs /\ fst source = fst d)).
Proof.
  assert (H : In (-1, js "world")
                 (forceDiffByWords [(0, js "Hello "); (-1, js "world, there")]))
    by (vm_compute; right; left; reflexivity).
  split; [exact H|].
  exact (proj2 (forceDiffByWords_fragments_are_tokens _) _ H).
Defined.

Lemma splitPattern_here s m r :
  match_here splitPattern s = Some (m, r) -> token_shape m.
Proof.
  unfold splitPattern, match_here, match_alt.
  destruct (span is_wordchar s) as [m0 r0] eqn:Es.
  destruct m0 as [|c m0].
  - destruct s as [|c s]; [|destruct (is_punct c) eqn:Ep].
    + simpl. discriminate.
    + intros H; inversion H; subst. right. right. eauto.
    + destruct (span is_space (c :: s)) as [m1 r1] eqn:Esp.
      destruct m1 as [|c1 m1]; [discriminate|].
      intros H; inversion H; subst. left. eapply span_all; eauto.
  - intros H; inversion H; subst. right. left. eapply span_all; eauto.
Qed.

Lemma splitWords_loop_tokens fuel text w :
  In w (splitWords_loop fuel text) -> w <> [] /\ token_shape w.
Proof.
  revert text. induction fuel as [|fuel IH]; intros text; [intros []|].
  cbn [splitWords_loop].
  destruct (exec splitPattern text) as [[[sk m] r]|] eqn:E.
  - intros [<-|Hin]; [|now apply (IH r)].
    pose proof (exec_splitPattern_noskip _ _ _ _ E) as ->.
    split; [now apply exec_sound in E|].
    destruct text as [|c text]; cbn [exec] in E.
    + destruct (match_here splitPattern []) as [[m' r']|] eqn:E'; [|discriminate].
      inversion E; subst. eapply splitPattern_here; eauto.
    + destruct (match_here splitPattern (c :: text)) as [[m' r']|] eqn:E'.
      * inversion E; subst. eapply splitPattern_here; eauto.
      * destruct (splitPattern_head c text) as (m' & r' & E''). congruence.
  - destruct text as [|c text]; [intros []|].
    destruct (splitPattern_head c text) as (m' & r' & E').
    cbn [exec] in E. rewrite E' in E. discriminate.
Qed.

(** X17. Every fragment of [splitIntoWords] is a token: it is not empty
    and holds white space only, word characters only, or a single
    punctuation character. *)
Theorem splitIntoWords_fragments_are_tokens (text w : str) :
  In w (splitIntoWords text) -> w <> [] /\ token_shape w.
Proof.
  unfold splitIntoWords. destruct (truthy text) eqn:Et; cbn [negb];
    [|intros []].
  destruct (only_whitespace text) eqn:Ew.
  - intros [<-|[]]. apply andb_true_iff in Ew as [_ Hs].
    split; [now apply truthy_true|now left].
  - apply splitWords_loop_tokens.
Qed.

Lemma splitIntoWords_fragments_are_tokens_witness :
  In (js "b") (splitIntoWords (js "a, b")) /\
  js "b" <> [] /\ token_shape (js "b").
Proof.
  assert (H : In (js "b") (splitIntoWords (js "a, b")))
    by (vm_compute; right; right; right; left; reflexivity).
  split; [exact H|].
  exact (splitIntoWords_fragments_are_tokens _ _ H).
Defined.

(* ================================================================== *)
(** * The change ranges of the text path *)
(* ================================================================== *)

Lemma old_text_cons o t ds :
  old_text ((o, t) :: ds)
  = if o =? DIFF_INSERT then old_text ds else t ++ old_text ds.
Proof.
  unfold old_text, kept_text. cbn [filter fst].
  destruct (o =? DIFF_INSERT); reflexivity.
Qed.

Lemma new_text_cons o t ds :
  new_text ((o, t) :: ds)
  = if o =? DIFF_DELETE then new_text ds else t ++ new_text ds.
Proof.
  unfold new_text, kept_text. cbn [filter fst].
  destruct (o =? DIFF_DELETE); reflexivity.
Qed.

Lemma shifted_range text t (c : Change) (pos : Z) pre post :
  text = pre ++ ch_text c ++ post -> ch_start c = pos + strlen t + strlen pre ->
  exists pre' post', t ++ text = pre' ++ ch_text c ++ post' /\
                     ch_start c = pos + strlen pre'.
Proof.
  intros -> Hs. exists (t ++ pre), post. split.
  - now rewrite <- app_assoc.
  - rewrite Hs, strlen_app. lia.
Qed.

Lemma changeRanges_spec diffs :
  Forall valid_op diffs ->
  forall oldPos newPos,
    (forall c, In c (fst (changeRanges oldPos newPos diffs)) ->
       ch_type c = removed /\ ch_end c = ch_start c + strlen (ch_text c) /\
       exists pre post, old_text diffs = pre ++ ch_text c ++ post /\
                        ch_start c = oldPos + strlen pre) /\
    (forall c, In c (snd (changeRanges oldPos newPos diffs)) ->
       ch_type c = added /\ ch_end c = ch_start c + strlen (ch_text c) /\
       exists pre post, new_text diffs = pre ++ ch_text c ++ post /\
                        ch_start c = newPos + strlen pre).
Proof.
  induction 1 as [|[o t] ds Hv _ IH]; intros oldPos newPos.
  - split; intros c [].
  - unfold valid_op in Hv. cbn [fst] in Hv.
    rewrite old_text_cons, new_text_cons. cbn [changeRanges].
    destruct Hv as [-> | [-> | ->]]; cbn [Z.eqb DIFF_DELETE DIFF_EQUAL DIFF_INSERT
                                        Pos.eqb].
    + specialize (IH (oldPos + strlen t) newPos).
      destruct (changeRanges (oldPos + strlen t) newPos ds) as [oc nc].
      cbn [fst snd] in *. destruct IH as [IHo IHn]. split.
      * intros c [<- | Hc]; cbn.
        -- repeat split. exists [], (old_text ds). split; [reflexivity|].
           unfold strlen. simpl. lia.
        -- destruct (IHo c Hc) as (Ht & He & pre & post & Hx & Hs).
           repeat split; auto. eapply shifted_range; eauto.
      * exact IHn.
    + specialize (IH (oldPos + strlen t) (newPos + strlen t)).
      destruct IH as [IHo IHn]. split; intros c Hc.
      * destruct (IHo c Hc) as (Ht & He & pre & post & Hx & Hs).
        repeat split; auto. eapply shifted_range; eauto.
      * destruct (IHn c Hc) as (Ht & He & pre & post & Hx & Hs).
        repeat split; auto. eapply shifted_range; eauto.
    + specialize (IH oldPos (newPos + strlen t)).
      destruct (changeRanges oldPos (newPos + strlen t) ds) as [oc nc].
      cbn [fst snd] in *. destruct IH as [IHo IHn]. split.
      * exact IHo.
      * intros c [<- | Hc]; cbn.
        -- repeat split. exists [], (new_text ds). split; [reflexivity|].
           unfold strlen. simpl. lia.
        -- destruct (IHn c Hc) as (Ht & He & pre & post & Hx & Hs).
           repeat split; auto. eapply shifted_range; eauto.
Qed.

(** X18. For a diff list with the three operations of the library, every
    change range that [highlightChanges] derives for the old side is of
    type removed, spans exactly its own text, and that text stands in
    the old-side text of the diffs at the start offset of the range; the
    same holds for the new side with the type added. *)
Theorem changeRanges_are_located (diffs : list DiffOp) :
  Forall valid_op diffs ->
  Forall (located (old_text diffs) removed) (fst (changeRanges 0 0 diffs)) /\
  Forall (located (new_text diffs) added) (snd (changeRanges 0 0 diffs)).
Proof.
  intros Hv. destruct (changeRanges_spec diffs Hv 0 0) as [Ho Hn].
  split; apply Forall_forall; intros c Hc; unfold located.
  - destruct (Ho c Hc) as (Ht & He & pre & post & Hx & Hs).
    repeat split; auto. exists pre, post. split; [exact Hx|lia].
  - destruct (Hn c Hc) as (Ht & He & pre & post & Hx & Hs).
    repeat split; auto. exists pre, post. split; [exact Hx|lia].
Qed.

Lemma changeRanges_are_located_witness :
  let diffs := [(0, js "Hello "); (-1, js "world"); (1, js "there")] in
  Forall valid_op diffs /\
  Forall (located (old_text diffs) removed) (fst (changeRanges 0 0 diffs)) /\
  Forall (located (new_text diffs) added) (snd (changeRanges 0 0 diffs)).
Proof.
  assert (Hv : Forall valid_op
                 [(0, js "Hello "); (-1, js "world"); (1, js "there")]).
  { apply Forall_forall. intros d Hd. simpl in Hd. unfold valid_op.
    destruct Hd as [<- | [<- | [<- | []]]]; simpl; auto. }
  split; [exact Hv|].
  exact (changeRanges_are_located _ Hv).
Defined.

(** X19. With a diff engine that obeys the library laws, the operations
    that [performDiff] returns rebuild each input with every U+00A0
    turned into a space; both rebuilt texts have the length of their
    input, so an offset into them is an offset into the input. *)
Theorem performDiff_keeps_offsets
  (dmp : Dmp) (L : DmpLaws dmp) (oldText newText : str) (ops : list DiffOp) :
  performDiff dmp oldText newText = Ok ops ->
  old_text ops = restoreSpaces oldText /\
  new_text ops = restoreSpaces newText /\
  strlen (old_text ops) = strlen oldText /\
  strlen (new_text ops) = strlen newText.
Proof.
  intros H. destruct (performDiff_texts dmp L _ _ _ H) as [Ho Hn].
  rewrite Ho, Hn. unfold restoreSpaces, strlen.
  now rewrite !length_map.
Qed.

Lemma performDiff_keeps_offsets_witness :
  exists ops,
    performDiff simple_dmp (js "a b") (js "a c") = Ok ops /\
    strlen (old_text ops) = 3 /\ strlen (new_text ops) = 3.
Proof.
  eexists. split; [reflexivity|].
  split;
    apply (performDiff_keeps_offsets simple_dmp simple_dmp_laws
             (js "a b") (js "a c") _ eq_refl).
Defined.

(* ================================================================== *)
(** * The groups and the fragments of the highlight applicator *)
(* ================================================================== *)

Lemma groupWords_some g ws stop :
  tiles (g_end g) ws stop ->
  groups_chain (g_start g) (groupWords (Some g) ws) stop /\
  alternating (groupWords (Some g) ws) /\
  exists g' rest, groupWords (Some g) ws = g' :: rest /\
                  g_isChanged g' = g_isChanged g.
Proof.
  revert g. induction ws as [|w ws IH]; intros g Ht; cbn [groupWords].
  - simpl in Ht. simpl. repeat split; eauto.
  - destruct Ht as (Hs & He & Ht).
    destruct (Bool.eqb (g_isChanged g) (w_isChanged w)) eqn:E.
    + apply (IH {| g_start := g_start g; g_end := w_end w;
                   g_isChanged := g_isChanged g |}). exact Ht.
    + destruct (IH {| g_start := w_start w; g_end := w_end w;
                      g_isChanged := w_isChanged w |} Ht)
        as (Hc & Ha & g' & rest & Eg & Hg).
      cbn [g_start g_end g_isChanged] in *. rewrite Eg in *.
      split; [|split].
      * cbn [groups_chain]. split; [reflexivity|]. now rewrite <- Hs.
      * cbn [alternating]. split; [|exact Ha].
        rewrite Hg. intros Heq. rewrite Heq, Bool.eqb_reflx in E.
        discriminate.
      * eauto.
Qed.

(** X20. The groups that [applyWordHighlighting] forms from the words of
    [processContentWithWords] follow one another without gap or overlap
    from offset 0 to the length of the concatenated diff texts, and two
    neighbouring groups always differ in being changed or unchanged. *)
Theorem word_groups_chain_and_alternate
  (content : str) (diffs : list DiffOp) :
  let groups := groupWords None (processContentWithWords content diffs) in
  groups_chain 0 groups (strlen (concat (map snd diffs))) /\
  alternating groups.
Proof.
  unfold processContentWithWords.
  destruct (processContent_loop_spec 0 diffs) as [Ht _].
  change (0 + strlen (concat (map snd diffs)))
    with (strlen (concat (map snd diffs))) in Ht.
  destruct (processContent_loop 0 diffs) as [|w ws]; cbn [groupWords].
  - simpl in Ht. simpl. auto.
  - destruct Ht as (Hs & He & Ht).
    destruct (groupWords_some {| g_start := w_start w; g_end := w_end w;
                                 g_isChanged := w_isChanged w |} ws _ Ht)
      as (Hc & Ha & _).
    cbn [g_start] in Hc. cbv zeta. split; [|exact Ha].
    rewrite <- Hs at 1. exact Hc.
Qed.

Lemma affectedNodes_unprocessed rs g k0 textNodes k ts ls le :
  In (k, ts, ls, le) (affectedNodes rs g k0 textNodes) ->
  processed_node rs k = false.
Proof.
  revert k0. induction textNodes as [|t textNodes IH]; intros k0; simpl;
    [intros []|].
  destruct (processed_node rs k0) eqn:Ep; [apply IH|].
  destruct (localRange (ts_start t) (ts_end t) (strlen (ts_text t))
                       (g_start g) (g_end g)) as [[a b]|]; [|apply IH].
  intros [H|H]; [|now apply (IH (S k0))].
  inversion H; subst. exact Ep.
Qed.

Lemma applyAffected_entries ct affected :
  forall rs k fragment,
    nth_error (applyAffected ct affected rs) k = Some (Some fragment) ->
    nth_error rs k = Some (Some fragment) \/
    exists ts ls le,
      In (k, ts, ls, le) affected /\
      trim (substring (ts_text ts) ls le) <> [] /\
      fragment = wordFragment ct (ts_parent ts) (ts_text ts) ls le.
Proof.
  induction affected as [|[[[j ts] ls] le] affected IH]; intros rs k fragment;
    cbn [applyAffected]; [auto|].
  destruct (str_eqb (trim (substring (ts_text ts) ls le)) []) eqn:E.
  - intros H. destruct (IH _ _ _ H) as [H'|(ts' & ls' & le' & Hin & Hrest)];
      [auto|].
    right. exists ts', ls', le'. split; [now right|exact Hrest].
  - intros H. destruct (IH _ _ _ H) as [H'|(ts' & ls' & le' & Hin & Hrest)].
    + apply nth_error_set_nth in H' as [[-> Hv]|H']; [|auto].
      inversion Hv; subst. right. exists ts, ls, le.
      split; [now left|]. split; [|reflexivity].
      intros Ht. rewrite Ht in E. now rewrite str_eqb_refl in E.
    + right. exists ts', ls', le'. split; [now right|exact Hrest].
Qed.

Lemma applyGroup_keeps ct textNodes rs g k fragment :
  nth_error rs k = Some (Some fragment) ->
  nth_error (applyGroup ct textNodes rs g) k = Some (Some fragment).
Proof.
  intros H. unfold applyGroup. destruct (negb (g_isChanged g)); [exact H|].
  rewrite applyAffected_untouched; [exact H|].
  intros ts ls le Hin. apply affectedNodes_unprocessed in Hin.
  unfold processed_node in Hin. rewrite H in Hin. discriminate.
Qed.

Lemma replaced_fold ct textNodes groups :
  forall rs k fragment,
    nth_error rs k = Some (Some fragment) ->
    nth_error (fold_left (applyGroup ct textNodes) groups rs) k
    = Some (Some fragment).
Proof.
  induction groups as [|g groups IH]; intros rs k fragment H; simpl;
    [exact H|].
  apply IH. now apply applyGroup_keeps.
Qed.

(** X21. Once a text node has been replaced by the fragment of one
    group, the groups handled after it leave that fragment as it is: a
    text node is highlighted for one group at most. *)
Theorem replaced_text_node_is_skipped
  (changeType : ChangeType) (textNodes : list TextSpan)
  (groups : list Group) (rs : Replacements) (k : nat) (fragment : list node) :
  nth_error rs k = Some (Some fragment) ->
  nth_error (fold_left (applyGroup changeType textNodes) groups rs) k
  = Some (Some fragment).
Proof.
  apply replaced_fold.
Qed.

Lemma replaced_text_node_is_skipped_witness :
  let ts := {| ts_text := js "one two"; ts_parent := newSpan [];
               ts_start := 0; ts_end := 7 |} in
  let first := wordFragment removed (newSpan []) (js "one two") 0 3 in
  nth_error [Some first] 0 = Some (Some first) /\
  nth_error
    (fold_left (applyGroup removed [ts])
       [{| g_start := 4; g_end := 7; g_isChanged := true |}] [Some first]) 0
  = Some (Some first).
Proof.
  intros ts first. split; [reflexivity|].
  exact (replaced_text_node_is_skipped removed [ts]
           [{| g_start := 4; g_end := 7; g_isChanged := true |}]
           [Some first] 0%nat first eq_refl).
Defined.

(** X22. Every fragment in the result of [applyWordHighlighting] stands
    for a text node of the list and was built from one changed group:
    it is the text of the node before the range of the group, one
    marker span with the text inside the range, which is not white
    space only, and the text behind the range. *)
Theorem fragment_has_one_marker
  (textNodes : list TextSpan) (words : list Word) (changeType : ChangeType)
  (k : nat) (fragment : list node) :
  nth_error (applyWordHighlighting textNodes words changeType) k
    = Some (Some fragment) ->
  exists ts g localStart localEnd,
    nth_error textNodes k = Some ts /\
    In g (groupWords None words) /\ g_isChanged g = true /\
    localRange (ts_start ts) (ts_end ts) (strlen (ts_text ts))
               (g_start g) (g_end g) = Some (localStart, localEnd) /\
    trim (substring (ts_text ts) localStart localEnd) <> [] /\
    fragment = wordFragment changeType (ts_parent ts) (ts_text ts)
                            localStart localEnd.
Proof.
  unfold applyWordHighlighting.
  set (all := groupWords None words).
  assert (Hsub : forall g, In g all -> In g all) by auto.
  assert (H0 : forall fragment0,
             nth_error (repeat (@None (list node)) (length textNodes)) k
               = Some (Some fragment0) -> False).
  { intros f Hf. apply nth_error_In, repeat_spec in Hf. discriminate. }
  revert Hsub H0.
  generalize (repeat (@None (list node)) (length textNodes)) as rs.
  generalize all at 1 3 as gs.
  induction gs as [|g gs IH]; intros rs Hsub H0 H; simpl in H.
  - destruct (H0 _ H).
  - destruct (nth_error (applyGroup changeType textNodes rs g) k)
      as [[f|]|] eqn:Eg.
    + pose proof (replaced_fold changeType textNodes gs _ k f Eg) as Hf.
      rewrite Hf in H. inversion H; subst f. clear Hf H.
      unfold applyGroup in Eg.
      destruct (g_isChanged g) eqn:Ec; cbn [negb] in Eg;
        [|destruct (H0 _ Eg)].
      apply applyAffected_entries in Eg
        as [Eg|(ts & ls & le & Hin & Ht & Hfr)]; [destruct (H0 _ Eg)|].
      destruct (affectedNodes_sound _ _ _ _ _ _ _ _ Hin) as (Hn & _ & Hl).
      rewrite Nat.sub_0_r in Hn.
      exists ts, g, ls, le. repeat split; auto. apply Hsub. now left.
    + apply (IH (applyGroup changeType textNodes rs g)); auto.
      * intros g' Hg'. apply Hsub. now right.
      * intros f Hf. rewrite Eg in Hf. discriminate.
    + apply (IH (applyGroup changeType textNodes rs g)); auto.
      * intros g' Hg'. apply Hsub. now right.
      * intros f Hf. rewrite Eg in Hf. discriminate.
Qed.

Lemma fragment_has_one_marker_witness :
  let ts := {| ts_text := js "one two"; ts_parent := newSpan [];
               ts_start := 0; ts_end := 7 |} in
  let words := processContentWithWords (js "one two")
                 [(0, js "one "); (-1, js "two")] in
  let fragment := wordFragment removed (newSpan []) (js "one two") 4 7 in
  nth_error (applyWordHighlighting [ts] words removed) 0
    = Some (Some fragment) /\
  exists ts' g localStart localEnd,
    nth_error [ts] 0 = Some ts' /\
    In g (groupWords None words) /\ g_isChanged g = true /\
    localRange (ts_start ts') (ts_end ts') (strlen (ts_text ts'))
               (g_start g) (g_end g) = Some (localStart, localEnd) /\
    trim (substring (ts_text ts') localStart localEnd) <> [] /\
    fragment = wordFragment removed (ts_parent ts') (ts_text ts')
                            localStart localEnd.
Proof.
  intros ts words fragment.
  assert (H : nth_error (applyWordHighlighting [ts] words removed) 0
              = Some (Some fragment)) by reflexivity.
  split; [exact H|].
  exact (fragment_has_one_marker [ts] words removed 0%nat fragment H).
Defined.

Lemma processContent_loop_flags diffs :
  Forall (fun d : DiffOp => fst d = 0) diffs ->
  forall pos,
    Forall (fun w => w_isChanged w = false) (processContent_loop pos diffs).
Proof.
  induction 1 as [|[op text] diffs Hop _ IH]; intros pos; simpl;
    [constructor|].
  simpl in Hop. subst op.
  destruct (pushWords pos (negb (0 =? 0)) (splitIntoWords text))
    as [ws p] eqn:E.
  destruct (pushWords_spec _ _ _ _ _ E) as (_ & _ & _ & Hf).
  apply Forall_app. split; [exact Hf|apply IH].
Qed.

Lemma groupWords_flags ws :
  Forall (fun w => w_isChanged w = false) ws ->
  forall current,
    match current with Some g => g_isChanged g = false | None => True end ->
    Forall (fun g => g_isChanged g = false) (groupWords current ws).
Proof.
  induction 1 as [|w ws Hw _ IH]; intros current Hc; cbn [groupWords].
  - destruct current; repeat constructor; auto.
  - destruct current as [g|].
    + destruct (Bool.eqb (g_isChanged g) (w_isChanged w)).
      * apply IH. exact Hc.
      * constructor; [exact Hc|]. apply IH. exact Hw.
    + apply IH. exact Hw.
Qed.

Lemma fold_unchanged_groups ct textNodes groups :
  Forall (fun g => g_isChanged g = false) groups ->
  forall rs, fold_left (applyGroup ct textNodes) groups rs = rs.
Proof.
  induction 1 as [|g groups Hg _ IH]; intros rs; simpl; [reflexivity|].
  unfold applyGroup at 2. rewrite Hg. simpl. apply IH.
Qed.

Lemma replaceTextNodes_none n :
  forall rs,
    Forall (eq None) rs ->
    fst (replaceTextNodes n rs) = [n] /\
    Forall (eq None) (snd (replaceTextNodes n rs)).
Proof.
  induction n as [data|e cs IH|] using node_tree_ind; intros rs Hrs.
  - destruct Hrs as [|r rs <- Hrs]; simpl; auto.
  - cbn [replaceTextNodes].
    assert (Hcs :
      fst ((fix each (cs0 : list node) (rs0 : Replacements)
              {struct cs0} : list node * Replacements :=
              match cs0 with
              | [] => ([], rs0)
              | c :: cs1 =>
                  let (l1, rs1) := replaceTextNodes c rs0 in
                  let (l2, rs2) := each cs1 rs1 in (l1 ++ l2, rs2)
              end) cs rs) = cs /\
      Forall (eq None)
        (snd ((fix each (cs0 : list node) (rs0 : Replacements)
                 {struct cs0} : list node * Replacements :=
                 match cs0 with
                 | [] => ([], rs0)
                 | c :: cs1 =>
                     let (l1, rs1) := replaceTextNodes c rs0 in
                     let (l2, rs2) := each cs1 rs1 in (l1 ++ l2, rs2)
                 end) cs rs))).
    { revert rs Hrs. induction IH as [|c cs Hc _ IHcs]; intros rs Hrs.
      - split; [reflexivity|exact Hrs].
      - destruct (Hc rs Hrs) as [Hf1 Hr1].
        destruct (replaceTextNodes c rs) as [l1 rs1]. cbn [fst snd] in *.
        destruct (IHcs rs1 Hr1) as [Hf2 Hr2].
        destruct ((fix each (cs0 : list node) (rs0 : Replacements)
                     {struct cs0} : list node * Replacements :=
                     match cs0 with
                     | [] => ([], rs0)
                     | c0 :: cs1 =>
                         let (l1, rs2) := replaceTextNodes c0 rs0 in
                         let (l2, rs3) := each cs1 rs2 in (l1 ++ l2, rs3)
                     end) cs rs1) as [l2 rs2].
        cbn [fst snd] in *. subst. split; [reflexivity|exact Hr2]. }
    destruct ((fix each (cs0 : list node) (rs0 : Replacements)
                 {struct cs0} : list node * Replacements :=
                 match cs0 with
                 | [] => ([], rs0)
                 | c :: cs1 =>
                     let (l1, rs1) := replaceTextNodes c rs0 in
                     let (l2, rs2) := each cs1 rs1 in (l1 ++ l2, rs2)
                 end) cs rs) as [cs' rs'].
    cbn [fst snd] in *. destruct Hcs as [-> Hr]. auto.
  - simpl. auto.
Qed.

(** X23. When every operation of the diffs is an equality or the
    operation that a side leaves out, [markTextDifferences] leaves the
    element of that side exactly as it was: no text node is replaced and
    no marker is inserted. *)
Theorem side_without_changes_is_untouched
  (changeType : ChangeType) (drop : Z) (diffs : list DiffOp)
  (e : Element) (cs : list node) :
  (forall d, In d diffs -> fst d = drop \/ fst d = 0) ->
  highlightSide changeType drop diffs e cs = ElemNode e cs.
Proof.
  intros Hd. unfold highlightSide, processContentWithWords,
               applyWordHighlighting.
  rewrite fold_unchanged_groups.
  - destruct (replaceTextNodes_none (ElemNode e cs)
                (repeat None (length (extractTextNodesWithPositions e cs))))
      as [-> _]; [|reflexivity].
    apply Forall_forall. intros r Hr. now apply repeat_spec in Hr.
  - apply groupWords_flags; [|exact I].
    apply processContent_loop_flags. apply Forall_forall.
    intros d Hin. apply filter_In in Hin as [Hin Hf].
    destruct (Hd d Hin) as [E|E]; [|exact E].
    rewrite E, Z.eqb_refl in Hf. discriminate.
Qed.

Lemma side_without_changes_is_untouched_witness :
  let e := {| created := false; isHTMLElement := true; tagName := js "P";
              attributes := [] |} in
  highlightSide removed DIFF_INSERT [(0, js "Hello"); (1, js " world")]
                e [TextNode (js "Hello")]
  = ElemNode e [TextNode (js "Hello")].
Proof.
  intros e.
  apply (side_without_changes_is_untouched removed DIFF_INSERT
           [(0, js "Hello"); (1, js " world")] e [TextNode (js "Hello")]).
  intros d [<- | [<- | []]]; simpl; auto.
Defined.

(* ================================================================== *)
(** * The order of the raw splice *)
(* ================================================================== *)

Lemma insertChange_perm c l : Permutation (c :: l) (insertChange c l).
Proof.
  induction l as [|d l IH]; simpl; [reflexivity|].
  destruct (ch_start d <=? ch_start c); [reflexivity|].
  rewrite perm_swap. now constructor.
Qed.

Lemma insertChange_sorted c l :
  StronglySorted (fun a b => ch_start b <= ch_start a) l ->
  StronglySorted (fun a b => ch_start b <= ch_start a) (insertChange c l).
Proof.
  induction 1 as [|d l Hs IH Hd]; simpl.
  - repeat constructor.
  - destruct (Z.leb_spec (ch_start d) (ch_start c)) as [Hle|Hgt].
    + constructor; [now constructor|].
      constructor; [exact Hle|].
      eapply Forall_impl; [|exact Hd]. simpl. intros a Ha. lia.
    + constructor; [exact IH|].
      apply (Permutation_Forall (insertChange_perm c l)).
      constructor; [lia|exact Hd].
Qed.

(** X24. [applyTextNodeChanges] handles the change ranges from the end
    of the text to its start: the order it works in is a permutation of
    the ranges it was given in which no range starts before a later
    one. *)
Theorem sortChanges_descending (changes : list Change) :
  Permutation changes (sortChanges changes) /\
  StronglySorted (fun a b => ch_start b <= ch_start a) (sortChanges changes).
Proof.
  unfold sortChanges. induction changes as [|c changes [IHp IHs]]; simpl.
  - split; constructor.
  - split.
    + rewrite <- insertChange_perm. now constructor.
    + now apply insertChange_sorted.
Qed.

(* ================================================================== *)
(** * The class list of a marked element *)
(* ================================================================== *)

Lemma getAttribute_set_same name value attrs :
  getAttribute name (setAttribute name value attrs) = Some value.
Proof.
  induction attrs as [|[n v] attrs IH]; simpl.
  - now rewrite str_eqb_refl.
  - destruct (str_eqb n name) eqn:E; simpl; now rewrite E.
Qed.

Lemma getAttribute_set_other name other value attrs :
  other <> name ->
  getAttribute other (setAttribute name value attrs) = getAttribute other attrs.
Proof.
  intros Hne. induction attrs as [|[n v] attrs IH]; simpl.
  - destruct (str_eqb name other) eqn:E; [|reflexivity].
    apply str_eqb_eq in E. congruence.
  - destruct (str_eqb n name) eqn:E; simpl.
    + apply str_eqb_eq in E. subst n.
      destruct (str_eqb name other) eqn:E'; [|reflexivity].
      apply str_eqb_eq in E'. congruence.
    + now rewrite IH.
Qed.

Lemma split_on_word sep x :
  forallb (fun c => negb (sep c)) x = true ->
  forall cur rest, split_on sep cur (x ++ rest) = split_on sep (rev x ++ cur) rest.
Proof.
  induction x as [|c x IH]; intros Hx cur rest; [reflexivity|].
  simpl in Hx. apply andb_true_iff in Hx as [Hc Hx].
  apply negb_true_iff in Hc. cbn [app split_on]. rewrite Hc.
  rewrite IH by exact Hx. simpl. now rewrite <- app_assoc.
Qed.

Lemma split_join l :
  l <> [] ->
  Forall (fun x => forallb (fun c => negb (is_ascii_ws c)) x = true) l ->
  split_on is_ascii_ws [] (join (js " ") l) = l.
Proof.
  intros Hne Hl. induction Hl as [|x l Hx Hl IH]; [congruence|].
  destruct l as [|y l].
  - cbn [join]. rewrite <- (app_nil_r x) at 1.
    rewrite split_on_word by exact Hx. simpl.
    now rewrite app_nil_r, rev_involutive.
  - change (join (js " ") (x :: y :: l))
      with (x ++ js " " ++ join (js " ") (y :: l)).
    rewrite split_on_word by exact Hx.
    change (js " " ++ join (js " ") (y :: l))
      with (SPACE :: join (js " ") (y :: l)).
    cbn [split_on]. change (is_ascii_ws SPACE) with true. cbv iota.
    rewrite app_nil_r, rev_involutive. f_equal. apply IH. discriminate.
Qed.

Lemma split_on_pieces sep s :
  forall cur,
    forallb (fun c => negb (sep c)) cur = true ->
    Forall (fun x => forallb (fun c => negb (sep c)) x = true)
           (split_on sep cur s).
Proof.
  induction s as [|c s IH]; intros cur Hcur; simpl.
  - constructor; [|constructor].
    rewrite forallb_rev. exact Hcur.
  - destruct (sep c) eqn:Ec.
    + constructor; [now rewrite forallb_rev|]. now apply IH.
    + apply IH. simpl. now rewrite Ec, Hcur.
Qed.

Lemma mem_str_In x l : mem_str x l = true <-> In x l.
Proof.
  unfold mem_str. rewrite existsb_exists. split.
  - intros (y & Hy & E). apply str_eqb_eq in E. now subst.
  - intros H. exists x. split; [exact H|apply str_eqb_refl].
Qed.

Lemma dedup_spec l :
  forall seen x, In x (dedup seen l) <-> In x l /\ ~ In x seen.
Proof.
  induction l as [|y l IH]; intros seen x; simpl; [tauto|].
  destruct (mem_str y seen) eqn:E.
  - apply mem_str_In in E. rewrite IH. split.
    + intros [H1 H2]. auto.
    + intros [[-> |H1] H2]; [contradiction|auto].
  - assert (Hy : ~ In y seen)
      by (intros H; apply mem_str_In in H; congruence).
    simpl. rewrite IH. simpl. split.
    + intros [-> |[H1 H2]]; auto.
    + intros [[-> |H1] H2]; [auto|].
      destruct (list_eq_dec N.eq_dec y x) as [-> |Hne]; [auto|].
      right. split; [exact H1|]. intros [H|H]; auto.
Qed.

Lemma dedup_id l :
  forall seen,
    NoDup l -> (forall x, In x l -> ~ In x seen) -> dedup seen l = l.
Proof.
  induction l as [|y l IH]; intros seen Hnd Hs; simpl; [reflexivity|].
  inversion Hnd as [|? ? Hy Hl]; subst.
  destruct (mem_str y seen) eqn:E.
  - apply mem_str_In in E. destruct (Hs y (or_introl eq_refl) E).
  - f_equal. apply IH; [exact Hl|].
    intros x Hx [<- |H]; [contradiction|]. apply (Hs x (or_intror Hx) H).
Qed.

Lemma dedup_NoDup l : forall seen, NoDup (dedup seen l).
Proof.
  induction l as [|y l IH]; intros seen; simpl; [constructor|].
  destruct (mem_str y seen); [apply IH|].
  constructor; [|apply IH].
  intros H. apply dedup_spec in H as [_ H]. apply H. now left.
Qed.

Lemma filter_truthy_id (l : list str) :
  Forall (fun x => x <> []) l -> filter truthy l = l.
Proof.
  induction 1 as [|x l Hx _ IH]; simpl; [reflexivity|].
  destruct x; [congruence|]. simpl. now rewrite IH.
Qed.

(** The tokens of a class list are distinct, not empty and free of
    white space. *)
Lemma classList_tokens e :
  NoDup (classList e) /\
  Forall (fun x => x <> [] /\
                   forallb (fun c => negb (is_ascii_ws c)) x = true)
         (classList e).
Proof.
  unfold classList.
  destruct (getAttribute (js "class") (attributes e)) as [v|];
    [|split; constructor].
  split; [apply dedup_NoDup|].
  apply Forall_forall. intros x Hx. apply dedup_spec in Hx as [Hx _].
  apply filter_In in Hx as [Hx Ht]. split; [now apply truthy_true|].
  pose proof (split_on_pieces is_ascii_ws v [] eq_refl) as Hp.
  apply (proj1 (Forall_forall _ _) Hp). exact Hx.
Qed.

Lemma classList_add_spec token e :
  token <> [] ->
  forallb (fun c => negb (is_ascii_ws c)) token = true ->
  classList (classList_add token e)
  = if mem_str token (classList e) then classList e
    else classList e ++ [token].
Proof.
  intros Hne Hws. unfold classList_add.
  destruct (classList_tokens e) as [Hnd Hall].
  assert (Hround : forall tokens,
             tokens <> [] -> NoDup tokens ->
             Forall (fun x => x <> [] /\
                       forallb (fun c => negb (is_ascii_ws c)) x = true)
                    tokens ->
             classList (withAttributes e
                          (setAttribute (js "class") (join (js " ") tokens)
                                        (attributes e)))
             = tokens).
  { intros tokens Hnil Hd Ht.
    unfold classList. cbn [attributes withAttributes].
    rewrite getAttribute_set_same, split_join.
    - rewrite filter_truthy_id.
      + apply dedup_id; [exact Hd|intros x _ []].
      + eapply Forall_impl; [|exact Ht]. simpl. tauto.
    - exact Hnil.
    - eapply Forall_impl; [|exact Ht]. simpl. tauto. }
  destruct (mem_str token (classList e)) eqn:Em.
  - apply Hround; [|exact Hnd|exact Hall].
    apply mem_str_In in Em. intros H. rewrite H in Em. destruct Em.
  - assert (Hnot : ~ In token (classList e))
      by (intros H; apply mem_str_In in H; congruence).
    apply Hround.
    + intros H. apply app_eq_nil in H as [_ H]. discriminate.
    + apply NoDup_app; [exact Hnd|repeat constructor; intros []|].
      intros x Hx [<- | []]. contradiction.
    + apply Forall_app. split; [exact Hall|]. constructor; auto.
Qed.

(** X25. [markNodeAsChanged] on an HTML element keeps the children, the
    tag and every class the element had, adds the class
    [diff-node-<changeType>], and writes no attribute other than [class]
    and [data-original-style]; the inline style is kept as it is. *)
Theorem markNodeAsChanged_keeps_classes
  (platform : Platform) (changeType : ChangeType)
  (e : Element) (cs : list node) :
  isHTMLElement e = true ->
  exists e',
    markNodeAsChanged platform changeType (ElemNode e cs) = ElemNode e' cs /\
    tagName e' = tagName e /\
    (forall name, name <> js "class" -> name <> js "data-original-style" ->
                  getAttribute name (attributes e')
                  = getAttribute name (attributes e)) /\
    (forall token, In token (classList e') <->
                   In token (classList e) \/
                   token = js "diff-node-" ++ changeName changeType).
Proof.
  intros Hh. unfold markNodeAsChanged. rewrite Hh. cbn [negb].
  set (token := js "diff-node-" ++ changeName changeType).
  assert (Htok : token <> [] /\
                 forallb (fun c => negb (is_ascii_ws c)) token = true)
    by (destruct changeType; split; [discriminate|reflexivity
                                    |discriminate|reflexivity]).
  destruct Htok as [Hne Hws].
  pose proof (classList_add_spec token e Hne Hws) as Hcl.
  assert (Hattr : forall name, name <> js "class" ->
            getAttribute name (attributes (classList_add token e))
            = getAttribute name (attributes e)).
  { intros name Hn. unfold classList_add.
    cbn [attributes withAttributes]. now apply getAttribute_set_other. }
  assert (Htag : tagName (classList_add token e) = tagName e)
    by reflexivity.
  assert (Hin : forall t, In t (classList (classList_add token e)) <->
                          In t (classList e) \/ t = token).
  { intros t. rewrite Hcl.
    destruct (mem_str token (classList e)) eqn:Em.
    - apply mem_str_In in Em. split; [auto|]. intros [H| ->]; auto.
    - rewrite in_app_iff. simpl. split.
      + intros [H|[<- |[]]]; auto.
      + intros [H| ->]; auto. }
  destruct (backgroundWasChanged platform (classList_add token e)
            && truthy _).
  - eexists. split; [reflexivity|]. cbn [tagName attributes withAttributes].
    split; [exact Htag|]. split.
    + intros name Hc Hd. rewrite getAttribute_set_other by exact Hd.
      now apply Hattr.
    + intros t. unfold classList at 1. cbn [attributes withAttributes].
      rewrite getAttribute_set_other by discriminate.
      exact (Hin t).
  - eexists. split; [reflexivity|]. split; [exact Htag|].
    split; [|exact Hin]. intros name Hc _. now apply Hattr.
Qed.

Lemma markNodeAsChanged_keeps_classes_witness :
  let e := {| created := false; isHTMLElement := true; tagName := js "P";
              attributes := [(js "class", js "note big")] |} in
  exists e',
    markNodeAsChanged example_platform removed (ElemNode e []) = ElemNode e' [] /\
    tagName e' = js "P" /\
    (forall name, name <> js "class" -> name <> js "data-original-style" ->
                  getAttribute name (attributes e')
                  = getAttribute name (attributes e)) /\
    (forall token, In token (classList e') <->
                   In token (classList e) \/
                   token = js "diff-node-" ++ changeName removed).
Proof.
  intros e.
  exact (markNodeAsChanged_keeps_classes example_platform removed e []
           eq_refl).
Defined.

(* ================================================================== *)
(** * The export filter of the editor *)
(* ================================================================== *)

Lemma getAttribute_remove_other name other attrs :
  other <> name ->
  getAttribute other (removeAttribute name attrs) = getAttribute other attrs.
Proof.
  intros Hne. induction attrs as [|[n v] attrs IH]; simpl; [reflexivity|].
  destruct (str_eqb n name) eqn:E.
  - apply str_eqb_eq in E. subst n.
    destruct (str_eqb name other) eqn:E'; [|reflexivity].
    apply str_eqb_eq in E'. congruence.
  - simpl. now rewrite IH.
Qed.

Lemma getAttribute_absent name attrs :
  ~ In name (map fst attrs) -> getAttribute name attrs = None.
Proof.
  induction attrs as [|[n v] attrs IH]; simpl; [reflexivity|].
  intros H. destruct (str_eqb n name) eqn:E.
  - apply str_eqb_eq in E. tauto.
  - apply IH. tauto.
Qed.

Lemma removeAttribute_names name attrs x :
  In x (map fst (removeAttribute name attrs)) -> In x (map fst attrs).
Proof.
  induction attrs as [|[n v] attrs IH]; simpl; [auto|].
  destruct (str_eqb n name); simpl; tauto.
Qed.

Lemma removeAttribute_distinct name attrs :
  NoDup (map fst attrs) -> NoDup (map fst (removeAttribute name attrs)).
Proof.
  induction attrs as [|[n v] attrs IH]; simpl; [auto|].
  intros H. inversion H as [|? ? Hn Hd]; subst.
  destruct (str_eqb n name); [exact Hd|].
  simpl. constructor; [|auto].
  intros Hin. apply Hn. eapply removeAttribute_names; eauto.
Qed.

Lemma getAttribute_remove_same name attrs :
  NoDup (map fst attrs) ->
  getAttribute name (removeAttribute name attrs) = None.
Proof.
  induction attrs as [|[n v] attrs IH]; simpl; [reflexivity|].
  intros H. inversion H as [|? ? Hn Hd]; subst.
  destruct (str_eqb n name) eqn:E.
  - apply str_eqb_eq in E. subst n. now apply getAttribute_absent.
  - simpl. rewrite E. auto.
Qed.

Lemma clearPresentation_free e :
  attrs_distinct e -> presentation_free (clearPresentation e).
Proof.
  unfold attrs_distinct, presentation_free, clearPresentation.
  intros Hd. cbn [attributes withAttributes].
  set (a1 := removeAttribute (js "class") (attributes e)).
  set (a2 := removeAttribute (js "style") a1).
  assert (H1 : NoDup (map fst a1)) by now apply removeAttribute_distinct.
  assert (H2 : NoDup (map fst a2)) by now apply removeAttribute_distinct.
  assert (Hc : getAttribute (js "class") a2 = None).
  { unfold a2. rewrite getAttribute_remove_other by discriminate.
    now apply getAttribute_remove_same. }
  assert (Hs : getAttribute (js "style") a2 = None)
    by now apply getAttribute_remove_same.
  destruct (getAttribute (js "dir") a2) as [v|] eqn:Ed.
  - destruct (str_eqb v (js "ltr")) eqn:El.
    + rewrite !getAttribute_remove_other by discriminate.
      rewrite getAttribute_remove_same by exact H2.
      repeat split; auto. discriminate.
    + repeat split; auto. rewrite Ed. intros H. inversion H; subst.
      now rewrite str_eqb_refl in El.
  - repeat split; auto. rewrite Ed. discriminate.
Qed.

Lemma clearPresentation_same e : same_but_presentation e (clearPresentation e).
Proof.
  unfold same_but_presentation, clearPresentation.
  cbn [tagName isHTMLElement attributes withAttributes].
  repeat split. intros name Hc Hs Hd.
  destruct (getAttribute (js "dir") _) as [v|];
    [destruct (str_eqb v (js "ltr"))|];
    rewrite ?(getAttribute_remove_other (js "dir")) by exact Hd;
    rewrite (getAttribute_remove_other (js "style")) by exact Hs;
    now rewrite (getAttribute_remove_other (js "class")) by exact Hc.
Qed.

Lemma unmatched_is_free e :
  matchesExportSelector e = false -> presentation_free e.
Proof.
  unfold matchesExportSelector, presentation_free.
  destruct (getAttribute (js "style") (attributes e)); [discriminate|].
  destruct (getAttribute (js "class") (attributes e)); [discriminate|].
  destruct (getAttribute (js "dir") (attributes e)) as [v|];
    [|intros _; repeat split; discriminate].
  intros H. repeat split. intros Hv. inversion Hv; subst v.
  destruct (isHTMLElement e); discriminate H.
Qed.

Lemma same_but_presentation_refl e : same_but_presentation e e.
Proof. repeat split. Qed.

Lemma clearMatching_spec n :
  Forall attrs_distinct (elementsOf n) ->
  Forall presentation_free (elementsOf (clearMatching n)) /\
  Forall2 same_but_presentation (elementsOf n) (elementsOf (clearMatching n)) /\
  textContent (clearMatching n) = textContent n.
Proof.
  induction n as [data|e cs IH|] using node_tree_ind; intros Hd;
    [repeat split; constructor| |repeat split; constructor].
  cbn [clearMatching elementsOf textContent] in *.
  inversion Hd as [|? ? He Hcs]; subst.
  assert (Hrec :
    Forall presentation_free (flat_map elementsOf (map clearMatching cs)) /\
    Forall2 same_but_presentation (flat_map elementsOf cs)
            (flat_map elementsOf (map clearMatching cs)) /\
    flat_map textContent (map clearMatching cs) = flat_map textContent cs).
  { clear He Hd. induction IH as [|c cs Hc _ IHcs]; cbn [map flat_map] in *.
    - repeat split; constructor.
    - apply Forall_app in Hcs as [Hc1 Hc2].
      destruct (Hc Hc1) as (F1 & S1 & T1).
      destruct (IHcs Hc2) as (F2 & S2 & T2).
      repeat split.
      + apply Forall_app. now split.
      + now apply Forall2_app.
      + now rewrite T1, T2. }
  destruct Hrec as (F & S & T). repeat split.
  - constructor; [|exact F].
    destruct (matchesExportSelector e) eqn:Em.
    + now apply clearPresentation_free.
    + now apply unmatched_is_free.
  - constructor; [|exact S].
    destruct (matchesExportSelector e);
      [apply clearPresentation_same|apply same_but_presentation_refl].
  - exact T.
Qed.

Lemma removeStyles_spec e cs :
  Forall attrs_distinct (elementsOf (ElemNode e cs)) ->
  Forall presentation_free
         (elementsOf (removeStylesExportDOM (ElemNode e cs))) /\
  Forall2 same_but_presentation
          (elementsOf (ElemNode e cs))
          (elementsOf (removeStylesExportDOM (ElemNode e cs))) /\
  textContent (removeStylesExportDOM (ElemNode e cs))
  = textContent (ElemNode e cs).
Proof.
  intros Hd. unfold removeStylesExportDOM.
  destruct (clearMatching_spec (ElemNode e cs) Hd) as (F & S & T).
  cbn [clearMatching elementsOf textContent] in *.
  inversion Hd as [|? ? He Hcs]; subst.
  inversion F as [|? ? _ F']; subst.
  inversion S as [|? ? ? ? _ S']; subst.
  repeat split.
  - constructor; [now apply clearPresentation_free|exact F'].
  - constructor; [apply clearPresentation_same|exact S'].
  - exact T.
Qed.

(** X26. After [removeStylesExportDOM] on an exported element whose
    elements have attributes of distinct names, no element of the
    exported tree carries a [class] attribute, a [style] attribute or
    [dir="ltr"]. *)
Theorem removeStylesExportDOM_clears_presentation
  (e : Element) (cs : list node) :
  Forall attrs_distinct (elementsOf (ElemNode e cs)) ->
  Forall presentation_free
         (elementsOf (removeStylesExportDOM (ElemNode e cs))).
Proof. intros Hd. apply (removeStyles_spec e cs Hd). Qed.

Lemma removeStylesExportDOM_clears_presentation_witness :
  let e := {| created := false; isHTMLElement := true; tagName := js "P";
              attributes := [(js "class", js "note"); (js "dir", js "ltr")] |} in
  let b := {| created := false; isHTMLElement := true; tagName := js "B";
              attributes := [(js "style", js "color: red;")] |} in
  Forall presentation_free
    (elementsOf (removeStylesExportDOM
                   (ElemNode e [ElemNode b [TextNode (js "x")]]))).
Proof.
  intros e b.
  apply (removeStylesExportDOM_clears_presentation
           e [ElemNode b [TextNode (js "x")]]).
  repeat constructor; simpl; intuition discriminate.
Defined.

(** X27. [removeStylesExportDOM] changes nothing but the attributes
    [class], [style] and [dir]: the exported tree keeps its elements in
    order with their tags and every other attribute, and its text; an
    exported node that is no element is returned as it is. *)
Theorem removeStylesExportDOM_keeps_the_rest (element : node) :
  Forall2 same_but_presentation
          (elementsOf element) (elementsOf (removeStylesExportDOM element)) /\
  textContent (removeStylesExportDOM element) = textContent element /\
  match element with
  | ElemNode _ _ => True
  | _ => removeStylesExportDOM element = element
  end.
Proof.
  assert (Hkeep : forall n,
             Forall2 same_but_presentation
                     (elementsOf n) (elementsOf (clearMatching n)) /\
             textContent (clearMatching n) = textContent n).
  { induction n as [data|e cs IH|] using node_tree_ind;
      [split; [constructor|reflexivity]| |split; [constructor|reflexivity]].
    cbn [clearMatching elementsOf textContent].
    assert (Hrec :
      Forall2 same_but_presentation (flat_map elementsOf cs)
              (flat_map elementsOf (map clearMatching cs)) /\
      flat_map textContent (map clearMatching cs) = flat_map textContent cs).
    { induction IH as [|c cs [S1 T1] _ [S2 T2]]; cbn [map flat_map].
      - split; [constructor|reflexivity].
      - split; [now apply Forall2_app|now rewrite T1, T2]. }
    destruct Hrec as [S T]. split; [|exact T].
    constructor; [|exact S].
    destruct (matchesExportSelector e);
      [apply clearPresentation_same|apply same_but_presentation_refl]. }
  destruct element as [data|e cs|]; cbn [removeStylesExportDOM];
    [repeat split; constructor| |repeat split; constructor].
  destruct (Hkeep (ElemNode e cs)) as [S T].
  cbn [clearMatching elementsOf textContent] in *.
  inversion S as [|? ? ? ? _ S']; subst.
  repeat split; [|exact T].
  constructor; [apply clearPresentation_same|exact S'].
Qed.

(* ================================================================== *)
(** * The style strings of the toolbar *)
(* ================================================================== *)

Lemma startsWith_app (literal r : str) : startsWith (literal ++ r) literal = true.
Proof.
  induction literal as [|x literal IH]; [now destruct r|].
  simpl. now rewrite N.eqb_refl, IH.
Qed.

Lemma startsWith_true s literal :
  startsWith s literal = true -> s = literal ++ skipn (length literal) s.
Proof.
  revert s. induction literal as [|x literal IH]; intros s; [reflexivity|].
  destruct s as [|y s]; simpl; [discriminate|].
  intros H. apply andb_true_iff in H as [Hxy Hs].
  apply N.eqb_eq in Hxy. subst y. f_equal. now apply IH.
Qed.

Lemma skipn_literal (literal r : str) : skipn (length literal) (literal ++ r) = r.
Proof. induction literal; simpl; auto. Qed.

Lemma space_not_semicolon c : is_space c = true -> not_semicolon c = true.
Proof.
  intros H. unfold not_semicolon, SEMICOLON.
  destruct (N.eqb_spec c 59) as [->|]; [discriminate H|reflexivity].
Qed.

Lemma not_semicolon_iff c : not_semicolon c = true <-> c <> SEMICOLON.
Proof.
  unfold not_semicolon. rewrite negb_true_iff. apply N.eqb_neq.
Qed.

Lemma span_nil_head cls s r :
  span cls s = ([], r) -> r = s /\ forall c s', s = c :: s' -> cls c = false.
Proof.
  destruct s as [|c s]; simpl.
  - intros H; inversion H; subst. split; [reflexivity|discriminate].
  - destruct (cls c) eqn:E.
    + destruct (span cls s). discriminate.
    + intros H; inversion H; subst. split; [reflexivity|].
      intros c' s' Hc. inversion Hc; subst. exact E.
Qed.

(** An attempt succeeds exactly when the literal is followed by a
    character other than the semicolon. *)
Lemma match_declaration_hits literal u :
  hits literal u -> match_declaration literal u <> None.
Proof.
  intros (c & r & -> & Hc). unfold match_declaration.
  rewrite startsWith_app, skipn_literal.
  destruct (span is_space (c :: r)) as [spaces s2] eqn:Es.
  destruct (span not_semicolon s2) as [value s3] eqn:Ev.
  destruct value as [|v value]; [|discriminate].
  destruct spaces as [|x spaces].
  - apply span_nil_head in Es as [-> _].
    apply span_nil_head in Ev as [_ Hv].
    specialize (Hv c r eq_refl). apply not_semicolon_iff in Hc. congruence.
  - destruct (rev (x :: spaces)) eqn:Er; [|discriminate].
    apply (f_equal (@length _)) in Er. rewrite length_rev in Er.
    discriminate.
Qed.

Lemma match_declaration_none literal u :
  match_declaration literal u = None -> ~ hits literal u.
Proof. intros E H. now apply match_declaration_hits in H. Qed.

(** What a successful attempt returns. *)
Lemma match_declaration_some literal u matched g1 g2 after :
  match_declaration literal u = Some (matched, g1, g2, after) ->
  u = matched ++ after /\ hits literal u /\
  (exists t, matched = literal ++ t) /\
  (g2 = [SEMICOLON] \/ (g2 = [] /\ after = [])).
Proof.
  unfold match_declaration.
  destruct (startsWith u literal) eqn:Es; [|discriminate].
  apply startsWith_true in Es.
  destruct (span is_space (skipn (length literal) u)) as [spaces s2] eqn:E1.
  destruct (span not_semicolon s2) as [value s3] eqn:E2.
  pose proof (span_app _ _ _ _ E1) as H1.
  pose proof (span_app _ _ _ _ E2) as H2.
  assert (Hterm : forall s,
             (forall c s', s = c :: s' -> not_semicolon c = false) ->
             firstn 1 s = [SEMICOLON] \/ (firstn 1 s = [] /\ skipn 1 s = [])).
  { intros [|c s'] Hs; [right; auto|left].
    specialize (Hs c s' eq_refl). unfold not_semicolon in Hs.
    apply negb_false_iff, N.eqb_eq in Hs. now subst. }
  destruct value as [|v value].
  - destruct (rev spaces) as [|c rs] eqn:Er; [discriminate|].
    intros H; inversion H; subst matched g1 g2 after; clear H.
    apply span_nil_head in E2 as [-> Hs2].
    assert (Hsp : exists x spaces', spaces = x :: spaces' /\ is_space x = true).
    { destruct spaces as [|x spaces']; [discriminate|].
      exists x, spaces'. split; [reflexivity|].
      apply span_all in E1. simpl in E1.
      now apply andb_true_iff in E1 as [E1 _]. }
    destruct Hsp as (x & spaces' & -> & Hx).
    repeat split.
    + rewrite Es at 1. rewrite H1, <- ?app_assoc.
      now destruct s2.
    + exists x, (spaces' ++ s2). split.
      * rewrite Es at 1. now rewrite H1.
      * apply not_semicolon_iff. now apply space_not_semicolon.
    + eauto.
    + apply Hterm. exact Hs2.
  - intros H; inversion H; subst matched g1 g2 after; clear H.
    assert (Hs3 : forall c s', s3 = c :: s' -> not_semicolon c = false)
      by (intros c s' ->; eapply span_rest; eauto).
    repeat split.
    + rewrite Es at 1. rewrite H1, H2.
      destruct s3 as [|c3 s3]; cbn [firstn skipn];
        repeat (rewrite <- app_assoc || (progress cbn [app]));
        rewrite ?app_nil_r; reflexivity.
    + destruct spaces as [|x spaces'].
      * exists v, (value ++ s3). split.
        -- rewrite Es at 1. now rewrite H1, H2.
        -- apply not_semicolon_iff. apply span_all in E2. simpl in E2.
           now apply andb_true_iff in E2 as [E2 _].
      * exists x, (spaces' ++ s2). split.
        -- rewrite Es at 1. now rewrite H1.
        -- apply not_semicolon_iff, space_not_semicolon.
           apply span_all in E1. simpl in E1.
           now apply andb_true_iff in E1 as [E1 _].
    + eauto.
    + apply Hterm. exact Hs3.
Qed.

Lemma find_declaration_some literal s :
  forall before r,
    find_declaration literal s = Some (before, r) ->
    exists u, s = before ++ u /\ match_declaration literal u = Some r /\
              misses literal before u.
Proof.
  induction s as [|c s IH]; intros before r; cbn [find_declaration].
  - destruct (match_declaration literal []) as [r0|] eqn:E; [|discriminate].
    intros H; inversion H; subst. exists []. repeat split; auto.
    intros b1 b2 Hb Hne. destruct b1, b2; try discriminate. congruence.
  - destruct (match_declaration literal (c :: s)) as [r0|] eqn:E.
    + intros H; inversion H; subst. exists (c :: s). repeat split; auto.
      intros b1 b2 Hb Hne. destruct b1, b2; try discriminate. congruence.
    + destruct (find_declaration literal s) as [[b r0]|] eqn:E'; [|discriminate].
      intros H; inversion H; subst.
      destruct (IH _ _ eq_refl) as (u & -> & Hm & Hmiss).
      exists u. repeat split; auto.
      intros b1 b2 Hb Hne. destruct b1 as [|x b1]; cbn [app] in Hb.
      * subst b2. cbn [app]. now apply match_declaration_none.
      * inversion Hb; subst. now apply (Hmiss b1 b2).
Qed.

Lemma find_declaration_none literal s :
  find_declaration literal s = None ->
  forall s1 s2, s = s1 ++ s2 -> ~ hits literal s2.
Proof.
  induction s as [|c s IH]; cbn [find_declaration].
  - destruct (match_declaration literal []) eqn:E; [discriminate|].
    intros _ s1 s2 Hs. destruct s1, s2; try discriminate.
    now apply match_declaration_none.
  - destruct (match_declaration literal (c :: s)) eqn:E; [discriminate|].
    destruct (find_declaration literal s) as [[b r0]|] eqn:E'; [discriminate|].
    intros _ s1 s2 Hs. destruct s1 as [|x s1]; cbn [app] in Hs.
    + subst s2. now apply match_declaration_none.
    + inversion Hs; subst. now apply (IH eq_refl s1 s2).
Qed.

Lemma find_declaration_at literal b :
  forall u r,
    misses literal b u -> match_declaration literal u = Some r ->
    find_declaration literal (b ++ u) = Some (b, r).
Proof.
  induction b as [|c b IH]; intros u r Hmiss Hm.
  - cbn [app]. destruct u; cbn [find_declaration]; now rewrite Hm.
  - cbn [app find_declaration].
    destruct (match_declaration literal (c :: b ++ u)) as [r0|] eqn:E.
    + exfalso. apply (Hmiss [] (c :: b) eq_refl); [discriminate|].
      destruct r0 as [[[m g1] g2] a].
      now apply match_declaration_some in E as (_ & H & _).
    + rewrite (IH u r); [reflexivity| |exact Hm].
      intros b1 b2 Hb Hne. apply (Hmiss (c :: b1) b2); [|exact Hne].
      now rewrite Hb.
Qed.

(** The two patterns find the same first match. *)
Lemma match_value_declaration literal s :
  match_value literal s
  = match match_declaration literal s with
    | Some (_, g1, _, _) => Some g1
    | None => None
    end.
Proof.
  unfold match_value, match_declaration.
  destruct (startsWith s literal); [|reflexivity].
  destruct (span is_space (skipn (length literal) s)) as [spaces s2].
  destruct (span not_semicolon s2) as [value s3].
  destruct value; [destruct (rev spaces)|]; reflexivity.
Qed.

Lemma find_value_declaration literal s :
  find_value literal s
  = match find_declaration literal s with
    | Some (_, (_, g1, _, _)) => Some g1
    | None => None
    end.
Proof.
  induction s as [|c s IH]; cbn [find_value find_declaration];
    rewrite match_value_declaration;
    destruct (match_declaration literal _) as [[[[m g1] g2] a]|];
    try reflexivity.
  rewrite IH.
  now destruct (find_declaration literal s) as [[b [[[m g1] g2] a]]|].
Qed.

Lemma getSubstitution_plain matched before after g1 g2 (t rest : str) :
  ~ In DOLLAR t ->
  getSubstitution matched before after g1 g2 (t ++ rest)
  = t ++ getSubstitution matched before after g1 g2 rest.
Proof.
  induction t as [|c t IH]; intros Hd; [reflexivity|].
  cbn [app getSubstitution].
  destruct (N.eqb_spec c DOLLAR) as [->|Hc]; [destruct Hd; now left|].
  cbn [negb]. rewrite IH; [reflexivity|]. intros H. apply Hd. now right.
Qed.

Lemma getSubstitution_group2 matched before after g1 g2 :
  getSubstitution matched before after g1 g2 (js "$2") = g2.
Proof. cbn. now rewrite app_nil_r. Qed.

(** A declaration written by a handler is matched as it stands. *)
Lemma match_written property value g2 after :
  style_value value ->
  (g2 = [SEMICOLON] \/ (g2 = [] /\ after = [])) ->
  match_declaration (property ++ js ":")
                    ((property ++ js ":") ++ js " " ++ value ++ g2 ++ after)
  = Some ((property ++ js ":") ++ js " " ++ value ++ g2, value, g2, after).
Proof.
  intros ((c & r & -> & Hc) & Hsemi & _) Hg2.
  unfold match_declaration. rewrite startsWith_app, skipn_literal.
  assert (E1 : span is_space (js " " ++ (c :: r) ++ g2 ++ after)
               = (js " ", (c :: r) ++ g2 ++ after)).
  { change (js " ") with [SPACE]. cbn [app span].
    change (is_space SPACE) with true. cbv iota. now rewrite Hc. }
  rewrite E1.
  assert (E2 : forall v, ~ In SEMICOLON v ->
               span not_semicolon (v ++ g2 ++ after) = (v, g2 ++ after)).
  { induction v as [|x v IH]; intros Hv.
    - cbn [app]. destruct Hg2 as [->|[-> ->]]; reflexivity.
    - cbn [app span].
      assert (Hx : not_semicolon x = true)
        by (apply not_semicolon_iff; intros ->; apply Hv; now left).
      rewrite Hx, IH; [reflexivity|]. intros H. apply Hv. now right. }
  rewrite (E2 _ Hsemi).
  destruct Hg2 as [->|[-> ->]]; cbn [app firstn skipn];
    rewrite ?app_nil_r; reflexivity.
Qed.

(** Whether the pattern matches behind a non-empty text that ends with
    the literal does not depend on what follows the literal. *)
Lemma hits_behind literal b2 t t' :
  b2 <> [] ->
  hits literal (b2 ++ literal ++ t) -> hits literal (b2 ++ literal ++ t').
Proof.
  intros Hne (c & r & Hu & Hc).
  assert (Hpre : exists l, b2 ++ literal = (literal ++ [c]) ++ l).
  { replace (b2 ++ literal ++ t) with ((b2 ++ literal) ++ t) in Hu
      by now rewrite <- app_assoc.
    replace (literal ++ c :: r) with ((literal ++ [c]) ++ r) in Hu
      by now rewrite <- app_assoc.
    apply app_eq_app in Hu as (l & [[H1 H2]|[H1 H2]]).
    - eauto.
    - pose proof (f_equal (@length _) H1) as Hlen.
      rewrite !length_app in Hlen. simpl in Hlen.
      destruct b2 as [|x b2]; [congruence|]. simpl in Hlen.
      destruct l as [|y l]; [|simpl in Hlen; lia].
      rewrite app_nil_r in H1. exists []. now rewrite app_nil_r. }
  destruct Hpre as (l & Hl).
  exists c, (l ++ t'). split; [|exact Hc].
  replace (b2 ++ literal ++ t') with ((b2 ++ literal) ++ t')
    by now rewrite <- app_assoc.
  rewrite Hl, <- !app_assoc. reflexivity.
Qed.

Lemma literal_start property c r :
  ~ In SEMICOLON property -> SEMICOLON :: r <> (property ++ js ":") ++ c.
Proof.
  intros Hp H. destruct property as [|x property]; cbn [app] in H.
  - discriminate H.
  - inversion H; subst. apply Hp. now left.
Qed.

Lemma literal_clean property c :
  ~ In SEMICOLON property -> c <> SEMICOLON ->
  ~ In SEMICOLON ((property ++ js ":") ++ [c]).
Proof.
  intros Hp Hc H. rewrite !in_app_iff in H.
  destruct H as [[H|H]|H]; [auto| |].
  - destruct H as [H|[]]. discriminate H.
  - destruct H as [H|[]]. congruence.
Qed.

Lemma endsWithSemicolon_true s :
  endsWithSemicolon s = true -> exists s0, s = s0 ++ [SEMICOLON].
Proof.
  unfold endsWithSemicolon. destruct (rev s) as [|c rs] eqn:E; [discriminate|].
  intros H. apply N.eqb_eq in H. subst c.
  exists (rev rs). rewrite <- (rev_involutive s), E. reflexivity.
Qed.

Lemma template_written property value matched before after g1 g2 :
  ~ In DOLLAR property -> ~ In DOLLAR value ->
  getSubstitution matched before after g1 g2
    (property ++ js ": " ++ value ++ js "$2")
  = (property ++ js ":") ++ js " " ++ value ++ g2.
Proof.
  intros Hp Hv.
  replace (property ++ js ": " ++ value ++ js "$2")
    with ((property ++ js ": " ++ value) ++ js "$2")
    by (now rewrite <- !app_assoc).
  rewrite getSubstitution_plain, getSubstitution_group2.
  - change (js ": ") with (js ":" ++ js " "). now rewrite <- !app_assoc.
  - rewrite !in_app_iff. intros [H|[H|H]]; auto.
    destruct H as [H|[H|[]]]; discriminate H.
Qed.

(** After a handler has run, the first declaration that its pattern
    finds in the style is the one it has written. *)
Lemma setStyleProperty_written property value s :
  ~ In SEMICOLON property -> ~ In DOLLAR property -> style_value value ->
  exists before g2 after,
    setStyleProperty property value s
    = before ++ ((property ++ js ":") ++ js " " ++ value ++ g2) ++ after /\
    find_declaration (property ++ js ":")
                     (setStyleProperty property value s)
    = Some (before,
            ((property ++ js ":") ++ js " " ++ value ++ g2, value, g2, after)).
Proof.
  intros Hps Hpd Hv. pose proof Hv as (_ & Hvs & Hvd).
  unfold setStyleProperty.
  destruct (find_declaration (property ++ js ":") s)
    as [[before [[[matched g1] g2] after]]|] eqn:E.
  - apply find_declaration_some in E as (u & -> & Hm & Hmiss).
    apply match_declaration_some in Hm as (Hu & _ & (t & Ht) & Hg2).
    rewrite (template_written property value) by assumption.
    exists before, g2, after. split; [reflexivity|].
    replace (((property ++ js ":") ++ js " " ++ value ++ g2) ++ after)
      with ((property ++ js ":") ++ js " " ++ value ++ g2 ++ after)
      by (now rewrite <- !app_assoc).
    apply find_declaration_at; [|now apply match_written].
    intros b1 b2 Hb Hne Hhit. apply (Hmiss b1 b2 Hb Hne).
    rewrite Hu, Ht.
    replace (((property ++ js ":") ++ t) ++ after)
      with ((property ++ js ":") ++ t ++ after)
      by apply app_assoc.
    exact (hits_behind _ b2 _ (t ++ after) Hne Hhit).
  - pose proof (find_declaration_none _ _ E) as Hnone.
    set (sep := if truthy s && _ then _ else _).
    assert (Hsep : sep = [SEMICOLON] \/
                   (sep = [] /\ (s = [] \/ exists s0, s = s0 ++ [SEMICOLON]))).
    { unfold sep. destruct s as [|x s']; [right; auto|]. cbn [truthy andb].
      destruct (endsWithSemicolon (x :: s')) eqn:Ee; cbn [negb].
      - right. split; [reflexivity|]. right.
        now apply endsWithSemicolon_true.
      - left. reflexivity. }
    exists (s ++ sep), (js ";"), []. split.
    { change (js ": ") with (js ":" ++ js " ").
      now rewrite <- !app_assoc, app_nil_r. }
    replace (s ++ sep ++ property ++ js ": " ++ value ++ js ";")
      with ((s ++ sep) ++ (property ++ js ":") ++ js " " ++ value ++ js ";" ++ [])
      by (change (js ": ") with (js ":" ++ js " ");
          now rewrite <- !app_assoc, app_nil_r).
    apply find_declaration_at;
      [|apply match_written; [exact Hv|now left]].
    assert (Hfirst : forall x, ~ hits (property ++ js ":") (SEMICOLON :: x)).
    { intros x (c & r & Hx & _).
      apply (literal_start property (c :: r) x Hps). exact Hx. }
    intros b1 b2 Hb Hne Hhit.
    apply app_eq_app in Hb as (l & [[Hs Hb2]|[Hb1 Hs]]).
    + (* [b2] begins inside [s] *)
      destruct l as [|y l].
      * cbn [app] in Hb2. subst b2.
        destruct Hsep as [Hsep|[Hsep _]]; rewrite Hsep in *; [|congruence].
        now apply (Hfirst _ Hhit).
      * subst b2. destruct Hhit as (c & r & Hu & Hc).
        replace ((property ++ js ":") ++ c :: r)
          with (((property ++ js ":") ++ [c]) ++ r) in Hu
          by (now rewrite <- app_assoc).
        rewrite <- app_assoc in Hu.
        apply app_eq_app in Hu as (l' & [[Hl Hr]|[Hl Hr]]).
        -- apply (Hnone b1 (y :: l) Hs).
           exists c, l'. split; [|exact Hc].
           rewrite Hl, <- app_assoc. reflexivity.
        -- pose proof (literal_clean property c Hps Hc) as Hclean.
           rewrite Hl in Hclean.
           destruct l' as [|z l'].
           ++ apply (Hnone b1 (y :: l) Hs).
              exists c, []. split; [|exact Hc].
              rewrite app_nil_r in Hl. now rewrite <- Hl.
           ++ destruct Hsep as [Hsep|[Hsep [Hnil|(s0 & Hs0)]]];
                rewrite Hsep in Hr.
              ** cbn [app] in Hr. inversion Hr; subst z.
                 apply Hclean. rewrite in_app_iff. right. now left.
              ** subst s. destruct b1; discriminate.
              ** apply Hclean. rewrite in_app_iff. left.
                 assert (Hlast : exists l0, y :: l = l0 ++ [SEMICOLON]).
                 { rewrite Hs0 in Hs.
                   apply app_eq_app in Hs as (m & [[H1 H2]|[H1 H2]]).
                   - exists m. exact H2.
                   - destruct m as [|w m]; [|destruct m; discriminate].
                     cbn [app] in H2. exists []. cbn [app]. congruence. }
                 destruct Hlast as (l0 & ->).
                 rewrite in_app_iff. right. now left.
    + (* [b2] lies in the separator *)
      destruct Hsep as [Hsep|[Hsep _]]; rewrite Hsep in Hs.
      * destruct l as [|y l]; cbn [app] in Hs.
        -- subst b2. now apply (Hfirst _ Hhit).
        -- inversion Hs as [[Hy Hl]]. destruct l; [|discriminate].
           cbn [app] in Hl. congruence.
      * destruct l; [|discriminate]. cbn [app] in Hs. congruence.
Qed.

Lemma read_written property default value s previous :
  ~ In SEMICOLON property -> ~ In DOLLAR property -> style_value value ->
  readStyleProperty property default (setStyleProperty property value s)
                    previous
  = value.
Proof.
  intros Hps Hpd Hv.
  destruct (setStyleProperty_written property value s Hps Hpd Hv)
    as (before & g2 & after & _ & Hfind).
  unfold readStyleProperty. rewrite find_value_declaration, Hfind.
  destruct (setStyleProperty property value s) as [|x style].
  - exfalso. cbn [find_declaration] in Hfind.
    unfold match_declaration in Hfind.
    destruct property; cbn in Hfind; discriminate Hfind.
  - destruct Hv as ((c & r & -> & _) & _). reflexivity.
Qed.

(** X28. A value that a handler of the toolbar has written is the value
    the toolbar reads back: for a value that is not empty, does not
    begin with white space and holds no semicolon and no dollar sign,
    whatever the style of the text node was, [$updateToolbar] finds the
    value in the style that [onFontSizeChange], [onFontFamilyChange] or
    [onFontColorChange] has produced. *)
Theorem toolbar_reads_what_was_set (value currentStyle previous : str) :
  style_value value ->
  toolbarFontSize (onFontSizeChange value currentStyle) previous = value /\
  toolbarFontFamily (onFontFamilyChange value currentStyle) previous = value /\
  toolbarFontColor (onFontColorChange value currentStyle) previous = value.
Proof.
  intros Hv. repeat split; apply read_written; try exact Hv;
    cbn; intuition discriminate.
Qed.

Lemma style_value_check (c : char) (r : str) :
  is_space c = false ->
  forallb (fun x => negb (x =? SEMICOLON)%N && negb (x =? DOLLAR)%N) (c :: r)
  = true ->
  style_value (c :: r).
Proof.
  intros Hc Hall. split; [eauto|].
  split; intros Hin; apply (proj1 (forallb_forall _ _) Hall) in Hin;
    rewrite N.eqb_refl in Hin; cbn in Hin;
    rewrite ?andb_false_r in Hin; discriminate Hin.
Qed.

Lemma toolbar_reads_what_was_set_witness :
  style_value (js "20px") /\
  toolbarFontSize (onFontSizeChange (js "20px") (js "color: red;font-size:12px"))
                  (js "15px") = js "20px".
Proof.
  assert (Hv : style_value (js "20px"))
    by (apply style_value_check; reflexivity).
  split; [exact Hv|].
  exact (proj1 (toolbar_reads_what_was_set (js "20px")
                  (js "color: red;font-size:12px") (js "15px") Hv)).
Defined.

(** X29. The handlers of the toolbar are idempotent: for a value that is
    not empty, does not begin with white space and holds no semicolon
    and no dollar sign, writing it twice gives the style that writing it
    once gives. *)
Theorem toolbar_handlers_are_idempotent (value currentStyle : str) :
  style_value value ->
  onFontSizeChange value (onFontSizeChange value currentStyle)
  = onFontSizeChange value currentStyle /\
  onFontFamilyChange value (onFontFamilyChange value currentStyle)
  = onFontFamilyChange value currentStyle /\
  onFontColorChange value (onFontColorChange value currentStyle)
  = onFontColorChange value currentStyle.
Proof.
  intros Hv.
  assert (H : forall property,
             ~ In SEMICOLON property -> ~ In DOLLAR property ->
             setStyleProperty property value
               (setStyleProperty property value currentStyle)
             = setStyleProperty property value currentStyle).
  { intros property Hps Hpd.
    destruct (setStyleProperty_written property value currentStyle Hps Hpd Hv)
      as (before & g2 & after & Heq & Hfind).
    unfold setStyleProperty at 1. rewrite Hfind.
    rewrite template_written; [now rewrite Heq|exact Hpd|apply Hv]. }
  repeat split; apply H; cbn; intuition discriminate.
Qed.

Lemma toolbar_handlers_are_idempotent_witness :
  style_value (js "#FF0000") /\
  onFontColorChange (js "#FF0000")
    (onFontColorChange (js "#FF0000") (js "font-size: 12px"))
  = onFontColorChange (js "#FF0000") (js "font-size: 12px").
Proof.
  assert (Hv : style_value (js "#FF0000"))
    by (apply style_value_check; reflexivity).
  split; [exact Hv|].
  exact (proj2 (proj2 (toolbar_handlers_are_idempotent (js "#FF0000")
                         (js "font-size: 12px") Hv))).
Defined.

Lemma span_stop cls (a : str) x r :
  cls x = false ->
  span cls (a ++ x :: r)
  = (fst (span cls a), snd (span cls a) ++ x :: r).
Proof.
  intros Hx. induction a as [|y a IH]; cbn [app span].
  - now rewrite Hx.
  - destruct (cls y); [|reflexivity].
    rewrite IH. now destruct (span cls a).
Qed.

Lemma span_whole cls (a : str) :
  forallb cls a = true -> span cls a = (a, []).
Proof.
  induction a as [|y a IH]; simpl; [reflexivity|].
  intros H. apply andb_true_iff in H as [Hy Ha]. now rewrite Hy, IH.
Qed.

(** The pattern of a handler at a declaration that ends with a
    semicolon: group 2 is the semicolon and the text behind the match is
    what follows the semicolon. *)
Lemma match_closed_declaration literal decl rest :
  ~ In SEMICOLON decl ->
  exists matched g1,
    match_declaration literal (literal ++ js " " ++ decl ++ SEMICOLON :: rest)
    = Some (matched, g1, [SEMICOLON], rest).
Proof.
  intros Hd. unfold match_declaration. rewrite startsWith_app, skipn_literal.
  change (js " ") with [SPACE]. cbn [app span].
  change (is_space SPACE) with true. cbv iota.
  rewrite (span_stop is_space decl SEMICOLON rest eq_refl).
  pose proof (span_app is_space decl _ _ (surjective_pairing _)) as Hsplit.
  destruct (span is_space decl) as [ws d2]. cbn [fst snd] in *.
  assert (Hd2 : forallb not_semicolon d2 = true).
  { apply forallb_forall. intros x Hx. apply not_semicolon_iff.
    intros ->. apply Hd. rewrite Hsplit, in_app_iff. now right. }
  rewrite (span_stop not_semicolon d2 SEMICOLON rest eq_refl).
  rewrite (span_whole _ _ Hd2). cbn [fst snd app].
  destruct d2 as [|v d2].
  - destruct (rev (SPACE :: ws)) as [|c rs] eqn:Er.
    + apply (f_equal (@length _)) in Er. rewrite length_rev in Er.
      discriminate Er.
    + cbn [firstn skipn]. eauto.
  - cbn [firstn skipn]. eauto.
Qed.

(** X30. [onFontColorChange] takes the end of [background-color:] for a
    colour declaration: on a style that begins with a background colour,
    it replaces the background colour by the chosen text colour and
    adds no [color] declaration. *)
Theorem color_handler_rewrites_background (color decl rest : str) :
  ~ In DOLLAR color -> ~ In SEMICOLON decl ->
  onFontColorChange color
    (js "background-color: " ++ decl ++ SEMICOLON :: rest)
  = js "background-color: " ++ color ++ SEMICOLON :: rest.
Proof.
  intros Hc Hd. unfold onFontColorChange, setStyleProperty.
  destruct (match_closed_declaration (js "color" ++ js ":") decl rest Hd)
    as (matched & g1 & Hm).
  assert (Hfind :
    find_declaration (js "color" ++ js ":")
      (js "background-" ++
       (js "color" ++ js ":") ++ js " " ++ decl ++ SEMICOLON :: rest)
    = Some (js "background-", (matched, g1, [SEMICOLON], rest))).
  { apply find_declaration_at; [|exact Hm].
    intros b1 b2 Hb Hne (c & r & Hu & _).
    cbn in Hb.
    do 12 (destruct b1 as [|? b1];
           [cbn [app] in Hb; subst b2; cbn in Hu;
            try discriminate Hu; try (now elim Hne)
           |cbn [app] in Hb; try discriminate Hb;
            injection Hb as ? Hb; subst]). }
  change (js "background-color: ")
    with (js "background-" ++ (js "color" ++ js ":") ++ js " ").
  rewrite <- !app_assoc in *. rewrite Hfind.
  rewrite (template_written (js "color") color);
    [|cbn; intuition discriminate|exact Hc].
  now rewrite <- !app_assoc.
Qed.

Lemma color_handler_rewrites_background_witness :
  onFontColorChange (js "#0000FF") (js "background-color: red;font-size: 12px")
  = js "background-color: #0000FF;font-size: 12px".
Proof.
  apply (color_handler_rewrites_background (js "#0000FF") (js "red")
           (js "font-size: 12px"));
    cbn; intuition discriminate.
Defined.
